(** * The Realm coordinator (src/impl/realm_coordinator.cpp)

    A shallow embedding of [RealmCoordinator]: the process-wide registry of
    coordinators, the handle cache of one coordinator, version pinning for
    newly registered notifiers and the background cycle that brings them
    forward ([run_async_notifiers]).  Collaborators that live outside the
    file (the storage engine, the notifier objects, the [Realm] handle) are
    taken as parameters or modelled from their documented contract. *)

From Stdlib Require Import NArith String Lia.
From stdpp Require Import base option list gmap strings.

Open Scope string_scope.
Open Scope list_scope.
Open Scope nat_scope.

(** ** Snapshot versions *)

Definition uint64_max : N := 18446744073709551615%N.

(** Modelled from the spec: [SharedGroup::VersionID] (realm/group_shared.hpp is
    not among the sources), "a pair (version, index) totally ordered".  The
    default-constructed value is the "not set" sentinel whose [version] is
    [numeric_limits<uint_fast64_t>::max()] (the coordinator tests
    [version.version] against that constant); the comparison operators order
    snapshots by their [version] component, [index] being the slot the
    storage engine keeps that version in. *)
Record VersionID := mkVersionID { version : N; index : N }.

Definition VersionID_default : VersionID :=
  {| version := uint64_max; index := 0 |}.

Definition VersionID_eqb (a b : VersionID) : bool := (version a =? version b)%N.
Definition VersionID_ltb (a b : VersionID) : bool := (version a <? version b)%N.
Definition VersionID_leb (a b : VersionID) : bool := (version a <=? version b)%N.

(** ** Configuration and errors *)

(** Modelled from the spec: [ObjectStore::NotVersioned], the "not versioned"
    sentinel a caller passes as [schema_version] (object_store.hpp is not
    among the sources). *)
Definition NotVersioned : N := uint64_max.

Definition Schema := list string.

Record Config := mkConfig {
  path : string;
  read_only : bool;
  in_memory : bool;
  cache : bool;
  encryption_key : list N;
  schema_version : N;
  automatic_change_notifications : bool;
  schema : option Schema;
}.

Inductive Exception :=
| RealmFileException_AccessError (file : string) (message : string)
| MismatchedConfigException (message : string)
| system_error (message : string)
| other_exception (message : string).

Definition what (e : Exception) : string :=
  match e with
  | RealmFileException_AccessError _ m => m
  | MismatchedConfigException m => m
  | system_error m => m
  | other_exception m => m
  end.

(** ** Calls made on collaborators

    Every call the coordinator makes on an object it does not implement is
    recorded, in order, in a trace. *)

Definition ThreadId := nat.
Definition RealmId := nat.
Definition CoordId := nat.
Definition NotifierId := nat.

Inductive SgName := AdvancerSG | NotifierSG | HandleSG.

(** A reference to an element of the [change_info] vector of
    [run_async_notifiers], as [add_required_change_info] receives it: the
    position of the element, and the number of elements the vector had
    when the reference was taken.  The vector only grows while the
    function runs, so that number tells which allocation of the vector the
    reference points into ([reference_valid]). *)
Record InfoRef := mkInfoRef { ref_size : nat; ref_index : nat }.

Inductive Event :=
| EvOpenWithConfig (sg : SgName)
| EvBeginRead (sg : SgName) (v : VersionID)
| EvEndRead (sg : SgName)
| EvAdvance (sg : SgName) (target : VersionID)
| EvReleaseData (n : NotifierId)
| EvAttachTo (n : NotifierId) (sg : SgName)
| EvDetach (n : NotifierId)
| EvAddRequiredChangeInfo (n : NotifierId) (info : InfoRef)
| EvRun (n : NotifierId)
| EvPrepareHandover (n : NotifierId)
| EvDeliver (n : NotifierId)
| EvCallCallbacks (n : NotifierId)
| EvNotifyOthers
| EvNotify (r : RealmId)
| EvClose (r : RealmId).

Global Instance SgName_eq_dec : EqDecision SgName.
Proof. solve_decision. Defined.
Global Instance VersionID_eq_dec : EqDecision VersionID.
Proof. solve_decision. Defined.
Global Instance InfoRef_eq_dec : EqDecision InfoRef.
Proof. solve_decision. Defined.
Global Instance Event_eq_dec : EqDecision Event.
Proof. solve_decision. Defined.

(** ** Outcomes of a call

    A call returns, throws a C++ exception (the state reached so far is
    kept), or fails a [REALM_ASSERT], which terminates the process. *)

Inductive Outcome (S A : Type) :=
| Returned (a : A) (s : S)
| Thrown (e : Exception) (s : S)
| Aborted.
Arguments Returned {S A} a s.
Arguments Thrown {S A} e s.
Arguments Aborted {S A}.

Definition M (S A : Type) : Type := S → Outcome S A.

Global Instance M_ret {S} : MRet (M S) := λ A a s, Returned a s.
Global Instance M_bind {S} : MBind (M S) := λ A B f m s,
  match m s with
  | Returned a s' => f a s'
  | Thrown e s' => Thrown e s'
  | Aborted => Aborted
  end.

Definition get_state {S} : M S S := λ s, Returned s s.
Definition put_state {S} (s : S) : M S unit := λ _, Returned tt s.
Definition modify_state {S} (f : S → S) : M S unit := λ s, Returned tt (f s).
Definition throw {S A} (e : Exception) : M S A := λ s, Thrown e s.
Definition REALM_ASSERT {S} (b : bool) : M S unit :=
  λ s, if b then Returned tt s else Aborted.
Definition when {S} (b : bool) (m : M S unit) : M S unit :=
  if b then m else mret tt.

(** ** Objects *)

(** Modelled from the spec: the storage engine's transaction object, of which
    the coordinator uses [begin_read], [end_read] and
    [get_version_of_current_transaction] only.  [Some v] is a read transaction
    bound to snapshot [v]; [None] is no read transaction. *)
Record SharedGroup := mkSharedGroup { current_transaction : option VersionID }.

Definition resolve (latest target : VersionID) : VersionID :=
  if VersionID_eqb target VersionID_default then latest else target.

Definition begin_read (latest v : VersionID) (sg : SharedGroup) : SharedGroup :=
  {| current_transaction := Some (resolve latest v) |}.
Definition end_read (sg : SharedGroup) : SharedGroup :=
  {| current_transaction := None |}.
Definition get_version_of_current_transaction (sg : SharedGroup) : VersionID :=
  default VersionID_default (current_transaction sg).

(** [ListChangeInfo]: the identity of a link list and a pointer to the
    [CollectionChangeBuilder] that collects its changes. *)
Record ListChangeInfo := mkListChangeInfo {
  table_ndx : N;
  row_ndx : N;
  col_ndx : N;
  changes : nat;
}.

(** Modelled from the spec: the notifier interface the coordinator consumes
    (impl/background_collection.hpp is not among the sources).  A notifier is
    a shared object; [notifier_id] is its identity, [notifier_version] what
    [version()] answers, [is_alive] what [is_alive()] answers and
    [required_lists] the list descriptors [add_required_change_info] pushes
    onto the sink it is given. *)
Record BackgroundCollection := mkBackgroundCollection {
  notifier_id : NotifierId;
  notifier_version : VersionID;
  is_alive : bool;
  required_lists : list ListChangeInfo;
}.

(** [WeakRealmNotifier]: a weak reference to a handle, the thread it was
    opened on and whether it may be handed out again from the cache. *)
Record WeakRealmNotifier := mkWeakRealmNotifier {
  wrn_realm : RealmId;
  wrn_thread : ThreadId;
  wrn_cache : bool;
}.

Inductive ExternalCommitHelper := mkExternalCommitHelper.

Record RealmCoordinator := mkRealmCoordinator {
  m_config : Config;
  m_notifier : option ExternalCommitHelper;
  m_weak_realm_notifiers : list WeakRealmNotifier;
  m_new_notifiers : list BackgroundCollection;
  m_notifiers : list BackgroundCollection;
  m_notifier_sg : option SharedGroup;
  m_advancer_sg : option SharedGroup;
  m_async_error : option Exception;
}.

Definition Config_default : Config :=
  {| path := ""; read_only := false; in_memory := false; cache := true;
     encryption_key := []; schema_version := NotVersioned;
     automatic_change_notifications := true; schema := None |}.

(** [RealmCoordinator::RealmCoordinator() = default] *)
Definition RealmCoordinator_new : RealmCoordinator :=
  {| m_config := Config_default; m_notifier := None;
     m_weak_realm_notifiers := []; m_new_notifiers := []; m_notifiers := [];
     m_notifier_sg := None; m_advancer_sg := None; m_async_error := None |}.

Definition set_m_config (x : Config) (c : RealmCoordinator) :=
  mkRealmCoordinator x (m_notifier c) (m_weak_realm_notifiers c)
    (m_new_notifiers c) (m_notifiers c) (m_notifier_sg c) (m_advancer_sg c)
    (m_async_error c).
Definition set_m_notifier (x : option ExternalCommitHelper) (c : RealmCoordinator) :=
  mkRealmCoordinator (m_config c) x (m_weak_realm_notifiers c)
    (m_new_notifiers c) (m_notifiers c) (m_notifier_sg c) (m_advancer_sg c)
    (m_async_error c).
Definition set_m_weak_realm_notifiers (x : list WeakRealmNotifier) (c : RealmCoordinator) :=
  mkRealmCoordinator (m_config c) (m_notifier c) x
    (m_new_notifiers c) (m_notifiers c) (m_notifier_sg c) (m_advancer_sg c)
    (m_async_error c).
Definition set_m_new_notifiers (x : list BackgroundCollection) (c : RealmCoordinator) :=
  mkRealmCoordinator (m_config c) (m_notifier c) (m_weak_realm_notifiers c)
    x (m_notifiers c) (m_notifier_sg c) (m_advancer_sg c) (m_async_error c).
Definition set_m_notifiers (x : list BackgroundCollection) (c : RealmCoordinator) :=
  mkRealmCoordinator (m_config c) (m_notifier c) (m_weak_realm_notifiers c)
    (m_new_notifiers c) x (m_notifier_sg c) (m_advancer_sg c) (m_async_error c).
Definition set_m_notifier_sg (x : option SharedGroup) (c : RealmCoordinator) :=
  mkRealmCoordinator (m_config c) (m_notifier c) (m_weak_realm_notifiers c)
    (m_new_notifiers c) (m_notifiers c) x (m_advancer_sg c) (m_async_error c).
Definition set_m_advancer_sg (x : option SharedGroup) (c : RealmCoordinator) :=
  mkRealmCoordinator (m_config c) (m_notifier c) (m_weak_realm_notifiers c)
    (m_new_notifiers c) (m_notifiers c) (m_notifier_sg c) x (m_async_error c).
Definition set_m_async_error (x : option Exception) (c : RealmCoordinator) :=
  mkRealmCoordinator (m_config c) (m_notifier c) (m_weak_realm_notifiers c)
    (m_new_notifiers c) (m_notifiers c) (m_notifier_sg c) (m_advancer_sg c) x.

(** ** The process: registry, coordinator objects and handles

    [std::weak_ptr] and [std::shared_ptr] are modelled by object identities:
    an object is alive while it is in its heap, and a weak pointer resolves
    ([lock()] succeeds, [expired()] is false) exactly when the identity it
    holds is still in the heap.  Identities are never reused. *)

(** Modelled from the spec: the [Realm] handle (the class is not among the
    sources): it is bound to the coordinator it was initialised with and to
    the thread that opened it. *)
Record Realm := mkRealm {
  realm_config : Config;
  realm_coordinator : CoordId;
  realm_thread : ThreadId;
}.

Record Process := mkProcess {
  s_coordinators_per_path : gmap string CoordId;
  coordinators : gmap CoordId RealmCoordinator;
  realms : gmap RealmId Realm;
  (* bookkeeping, read by no operation: the path a coordinator was created for *)
  created_for : gmap CoordId string;
  next_object : nat;
  (* the environment of a call *)
  current_thread : ThreadId;
  commit_helper_error : option string;
  realm_init_error : option string;
  calls : list Event;
}.

Definition Process_initial : Process :=
  {| s_coordinators_per_path := ∅; coordinators := ∅; realms := ∅;
     created_for := ∅; next_object := 0; current_thread := 0;
     commit_helper_error := None; realm_init_error := None; calls := [] |}.

Definition set_registry (x : gmap string CoordId) (p : Process) :=
  mkProcess x (coordinators p) (realms p) (created_for p) (next_object p)
    (current_thread p) (commit_helper_error p) (realm_init_error p) (calls p).
Definition set_coordinators (x : gmap CoordId RealmCoordinator) (p : Process) :=
  mkProcess (s_coordinators_per_path p) x (realms p) (created_for p)
    (next_object p) (current_thread p) (commit_helper_error p)
    (realm_init_error p) (calls p).
Definition set_calls (x : list Event) (p : Process) :=
  mkProcess (s_coordinators_per_path p) (coordinators p) (realms p)
    (created_for p) (next_object p) (current_thread p) (commit_helper_error p)
    (realm_init_error p) x.

Definition coordinator_alive (p : Process) (w : CoordId) : bool :=
  bool_decide (is_Some (coordinators p !! w)).
Definition realm_alive (p : Process) (r : RealmId) : bool :=
  bool_decide (is_Some (realms p !! r)).

(** [std::make_shared<RealmCoordinator>()] followed by
    [weak_coordinator = coordinator]. *)
Definition make_coordinator (path : string) (p : Process) : CoordId * Process :=
  let c := next_object p in
  (c, mkProcess (<[path := c]> (s_coordinators_per_path p))
        (<[c := RealmCoordinator_new]> (coordinators p)) (realms p)
        (<[c := path]> (created_for p)) (S c)
        (current_thread p) (commit_helper_error p) (realm_init_error p)
        (calls p)).

(** [RealmCoordinator::get_coordinator].  [operator[]] on an absent path
    inserts an empty weak pointer, which does not lock. *)
Definition get_coordinator (path : string) (p : Process) : CoordId * Process :=
  match s_coordinators_per_path p !! path with
  | Some weak_coordinator =>
      if coordinator_alive p weak_coordinator then (weak_coordinator, p)
      else make_coordinator path p
  | None => make_coordinator path p
  end.

(** [RealmCoordinator::get_existing_coordinator] *)
Definition get_existing_coordinator (path : string) (p : Process) : option CoordId :=
  match s_coordinators_per_path p !! path with
  | None => None
  | Some w => if coordinator_alive p w then Some w else None
  end.

(** [RealmCoordinator::~RealmCoordinator]: erase every expired entry. *)
Definition RealmCoordinator_destructor (p : Process) : Process :=
  set_registry
    (filter (λ kv, coordinator_alive p kv.2) (s_coordinators_per_path p)) p.

(** The last [shared_ptr] to coordinator [c] goes away: weak pointers to it
    are expired from then on and its destructor runs. *)
Definition release_coordinator (c : CoordId) (p : Process) : Process :=
  RealmCoordinator_destructor (set_coordinators (delete c (coordinators p)) p).

Definition expired (p : Process) (n : WeakRealmNotifier) : bool :=
  negb (realm_alive p (wrn_realm n)).
Definition is_for_realm (n : WeakRealmNotifier) (realm : RealmId) : bool :=
  bool_decide (wrn_realm n = realm).
Definition is_cached_for_current_thread (p : Process) (n : WeakRealmNotifier) : bool :=
  wrn_cache n && bool_decide (wrn_thread n = current_thread p).

(** [RealmCoordinator::unregister_realm] *)
Definition unregister_realm (this : CoordId) (realm : RealmId) (p : Process) : Process :=
  set_coordinators
    (alter (λ c, set_m_weak_realm_notifiers
                   (filter (λ n, negb (expired p n || is_for_realm n realm))
                           (m_weak_realm_notifiers c)) c)
           this (coordinators p)) p.

(** The test on line 66: no configuration has been adopted yet. *)
Definition first_substantive_open (c : RealmCoordinator) : bool :=
  (negb (read_only (m_config c)) && negb (bool_decide (is_Some (m_notifier c))))
  || (read_only (m_config c) && bool_decide (m_weak_realm_notifiers c = [])).

Definition this_coordinator (this : CoordId) : M Process RealmCoordinator :=
  λ p, match coordinators p !! this with
       | Some c => Returned c p
       | None => Aborted
       end.
Definition update_this (this : CoordId) (f : RealmCoordinator → RealmCoordinator)
  : M Process unit :=
  modify_state (λ p, set_coordinators (alter f this (coordinators p)) p).

Definition schema_differs (a b : option Schema) : bool := negb (bool_decide (a = b)).

(** The [else] branch of lines 77-99. *)
Definition verify_config (m_config config : Config) : M Process unit :=
  if negb (bool_decide (read_only m_config = read_only config)) then
    throw (MismatchedConfigException
             "Realm at path already opened with different read permissions.")
  else if negb (bool_decide (in_memory m_config = in_memory config)) then
    throw (MismatchedConfigException
             "Realm at path already opened with different inMemory settings.")
  else if negb (bool_decide (encryption_key m_config = encryption_key config)) then
    throw (MismatchedConfigException
             "Realm at path already opened with a different encryption key.")
  else if negb (schema_version m_config =? schema_version config)%N
          && negb (schema_version config =? NotVersioned)%N then
    throw (MismatchedConfigException
             "Realm at path already opened with different schema version.")
  else if false && schema_differs (schema m_config) (schema config) then
    throw (MismatchedConfigException
             "Realm at path already opened with different schema")
  else mret tt.

(** The loop of lines 102-110. *)
Fixpoint find_cached_realm (p : Process) (l : list WeakRealmNotifier) : option RealmId :=
  match l with
  | [] => None
  | cachedRealm :: rest =>
      if is_cached_for_current_thread p cachedRealm
         && realm_alive p (wrn_realm cachedRealm)
      then Some (wrn_realm cachedRealm)
      else find_cached_realm p rest
  end.

(** Lines 113-116: [make_shared<Realm>], [init] and [emplace_back]. *)
Definition open_new_realm (this : CoordId) (config : Config) : M Process RealmId :=
  λ p, match realm_init_error p with
       | Some message => Thrown (other_exception message) p
       | None =>
           match coordinators p !! this with
           | None => Aborted
           | Some c =>
               let realm := next_object p in
               let entry := mkWeakRealmNotifier realm (current_thread p)
                              (cache (m_config c)) in
               Returned realm
                 (mkProcess (s_coordinators_per_path p)
                    (<[this := set_m_weak_realm_notifiers
                                 (m_weak_realm_notifiers c ++ [entry]) c]>
                       (coordinators p))
                    (<[realm := mkRealm config this (current_thread p)]> (realms p))
                    (created_for p) (S realm) (current_thread p)
                    (commit_helper_error p) (realm_init_error p) (calls p))
           end
       end.

(** [RealmCoordinator::get_realm(Realm::Config)] *)
Definition get_realm (this : CoordId) (config : Config) : M Process RealmId :=
  c ← this_coordinator this;
  (if first_substantive_open c then
     update_this this (set_m_config config);;
     if negb (read_only config) && negb (bool_decide (is_Some (m_notifier c)))
        && automatic_change_notifications config
     then
       p ← get_state;
       match commit_helper_error p with
       | Some message =>
           throw (RealmFileException_AccessError (path config) message)
       | None => update_this this (set_m_notifier (Some mkExternalCommitHelper))
       end
     else mret tt
   else verify_config (m_config c) config);;
  c ← this_coordinator this;
  p ← get_state;
  match (if cache config then find_cached_realm p (m_weak_realm_notifiers c)
         else None) with
  | Some realm => mret realm
  | None => open_new_realm this config
  end.

(** [RealmCoordinator::get_realm()] *)
Definition get_realm_again (this : CoordId) : M Process RealmId :=
  c ← this_coordinator this; get_realm this (m_config c).

(** [RealmCoordinator::get_schema] *)
Definition get_schema (c : RealmCoordinator) : option Schema :=
  if bool_decide (m_weak_realm_notifiers c = []) then None
  else schema (m_config c).

(** [RealmCoordinator::update_schema] *)
Definition update_schema (new_schema : Schema) (c : RealmCoordinator) : RealmCoordinator :=
  let cfg := m_config c in
  set_m_config
    (mkConfig (path cfg) (read_only cfg) (in_memory cfg) (cache cfg)
       (encryption_key cfg) (schema_version cfg)
       (automatic_change_notifications cfg) (Some new_schema)) c.

(** Modelled from the spec: [Realm::close] (the class is not among the
    sources): "closing re-enters [unregister_handle]". *)
Definition Realm_close (realm : RealmId) (p : Process) : Process :=
  let p := set_calls (calls p ++ [EvClose realm]) p in
  match realms p !! realm with
  | Some r => unregister_realm (realm_coordinator r) realm p
  | None => p
  end.

(** Lines 165-179: one registry entry of the loop under the registry mutex. *)
Definition clear_cache_visit (p : Process)
    (acc : gmap CoordId RealmCoordinator * list RealmId) (weak_coordinator : string * CoordId)
  : gmap CoordId RealmCoordinator * list RealmId :=
  match acc.1 !! weak_coordinator.2 with
  | None => acc
  | Some coordinator =>
      (<[weak_coordinator.2 := set_m_notifier None coordinator]> acc.1,
       acc.2 ++ (wrn_realm <$>
         filter (λ n, realm_alive p (wrn_realm n)) (m_weak_realm_notifiers coordinator)))
  end.

(** [RealmCoordinator::clear_cache].  The body never reads [this]. *)
Definition clear_cache (p : Process) : Process :=
  let '(heap, realms_to_close) :=
    foldl (clear_cache_visit p) (coordinators p, [])
          (map_to_list (s_coordinators_per_path p)) in
  let p := set_registry ∅ (set_coordinators heap p) in
  foldl (λ p weak_realm,
           if realm_alive p weak_realm then Realm_close weak_realm p else p)
        p realms_to_close.

(** [RealmCoordinator::clear_all_caches] *)
Definition clear_all_caches (p : Process) : Process :=
  let to_clear := (map_to_list (s_coordinators_per_path p)).*2 in
  foldl (λ p weak_coordinator,
           if coordinator_alive p weak_coordinator then clear_cache p else p)
        p to_clear.

(** ** The notifier machinery of one coordinator *)

(** [TransactionChangeInfo]: the table-level changes seen during an advance
    and the link lists whose changes notifiers asked for.  Modelled from the
    spec (impl/transact_log_handler.hpp is not among the sources). *)
Record TransactionChangeInfo (C : Type) := mkTransactionChangeInfo {
  tables : list C;
  lists : list ListChangeInfo;
}.
Arguments mkTransactionChangeInfo {C} tables lists.
Arguments tables {C} t.
Arguments lists {C} t.

(** What [Realm::open_with_config] (followed by the first [begin_read]) does
    when the coordinator opens a background transaction. *)
Inductive OpenResult :=
| OpenOk
| OpenThrows (e : Exception)
| OpenReadOnlyGroup.

(** The state a notifier-side method of one coordinator works on: the
    coordinator itself, the [CollectionChangeBuilder] objects that list
    descriptors point to, and the storage engine. *)
Record World (C : Type) := mkWorld {
  coordinator : RealmCoordinator;
  builders : gmap nat C;
  latest : VersionID;
  open_with_config : OpenResult;
  trace : list Event;
}.
Arguments mkWorld {C} coordinator builders latest open_with_config trace.
Arguments coordinator {C} w.
Arguments builders {C} w.
Arguments latest {C} w.
Arguments open_with_config {C} w.
Arguments trace {C} w.

Definition set_coordinator {C} (x : RealmCoordinator) (w : World C) : World C :=
  mkWorld x (builders w) (latest w) (open_with_config w) (trace w).
Definition set_builders {C} (x : gmap nat C) (w : World C) : World C :=
  mkWorld (coordinator w) x (latest w) (open_with_config w) (trace w).
Definition emit {C} (es : list Event) (w : World C) : World C :=
  mkWorld (coordinator w) (builders w) (latest w) (open_with_config w) (trace w ++ es).
Definition update_coordinator {C} (f : RealmCoordinator → RealmCoordinator)
    (w : World C) : World C :=
  set_coordinator (f (coordinator w)) w.

Definition is_empty {A} (l : list A) : bool :=
  match l with [] => true | _ => false end.

(** [container.back()] and an assignment through [&container.back()] *)
Definition back {A} (l : list A) : option A := l !! (length l - 1).
Definition update_back {A} (f : A → A) (l : list A) : list A :=
  alter f (length l - 1) l.

(** [RealmCoordinator::send_commit_notifications] *)
Definition send_commit_notifications {C} : M (World C) unit :=
  w ← get_state;
  REALM_ASSERT (negb (read_only (m_config (coordinator w))));;
  match m_notifier (coordinator w) with
  | Some _ => modify_state (emit [EvNotifyOthers])
  | None => mret tt
  end.

(** [RealmCoordinator::pin_version] *)
Definition pin_version {C} (version index : N) : M (World C) unit := λ w,
  let c := coordinator w in
  if bool_decide (is_Some (m_async_error c)) then Returned tt w
  else
    let versionid := mkVersionID version index in
    match m_advancer_sg c with
    | None =>
        match open_with_config w with
        | OpenOk =>
            Returned tt
              (emit [EvOpenWithConfig AdvancerSG; EvBeginRead AdvancerSG versionid]
                 (update_coordinator
                    (set_m_advancer_sg
                       (Some (begin_read (latest w) versionid (mkSharedGroup None)))) w))
        | OpenReadOnlyGroup => Aborted
        | OpenThrows e =>
            Returned tt
              (emit [EvOpenWithConfig AdvancerSG]
                 (update_coordinator
                    (λ c, set_m_advancer_sg None (set_m_async_error (Some e) c)) w))
        end
    | Some sg =>
        if is_empty (m_new_notifiers c) then
          Returned tt
            (emit [EvBeginRead AdvancerSG versionid]
               (update_coordinator
                  (set_m_advancer_sg (Some (begin_read (latest w) versionid sg))) w))
        else if VersionID_ltb versionid (get_version_of_current_transaction sg) then
          Returned tt
            (emit [EvEndRead AdvancerSG; EvBeginRead AdvancerSG versionid]
               (update_coordinator
                  (set_m_advancer_sg
                     (Some (begin_read (latest w) versionid (end_read sg)))) w))
        else Returned tt w
    end.

(** [RealmCoordinator::register_notifier] *)
Definition register_notifier {C} (notifier : BackgroundCollection) : M (World C) unit :=
  let v := notifier_version notifier in
  pin_version (version v) (index v);;
  modify_state (update_coordinator
                  (λ c, set_m_new_notifiers (m_new_notifiers c ++ [notifier]) c)).

(** The [swap_remove] lambda of [clean_up_dead_notifiers].  Every iteration
    either steps [i] or shortens the container, so [length container]
    iterations are enough.  The result is the container, the notifiers whose
    [release_data] was called, and [did_remove]. *)
Fixpoint swap_remove_loop (fuel i : nat) (container : list BackgroundCollection)
    (released : list NotifierId) (did_remove : bool)
  : list BackgroundCollection * list NotifierId * bool :=
  match fuel with
  | 0 => (container, released, did_remove)
  | S fuel =>
      match container !! i with
      | None => (container, released, did_remove)
      | Some n =>
          if is_alive n then swap_remove_loop fuel (S i) container released did_remove
          else
            let container :=
              if bool_decide (i + 1 < length container)
              then match back container with
                   | Some b => <[i := b]> container
                   | None => container
                   end
              else container in
            swap_remove_loop fuel i (removelast container)
              (released ++ [notifier_id n]) true
      end
  end.

Definition swap_remove (container : list BackgroundCollection)
  : list BackgroundCollection * list NotifierId * bool :=
  swap_remove_loop (length container) 0 container [] false.

(** [RealmCoordinator::clean_up_dead_notifiers] *)
Definition clean_up_dead_notifiers {C} (w : World C) : World C :=
  let c := coordinator w in
  let '(notifiers, released, did_remove) := swap_remove (m_notifiers c) in
  let w := emit (EvReleaseData <$> released)
             (update_coordinator (set_m_notifiers notifiers) w) in
  let w :=
    if did_remove && is_empty notifiers then
      match m_notifier_sg c with
      | Some sg => emit [EvEndRead NotifierSG]
                     (update_coordinator (set_m_notifier_sg (Some (end_read sg))) w)
      | None => w
      end
    else w in
  let '(new_notifiers, released, did_remove) := swap_remove (m_new_notifiers c) in
  let w := emit (EvReleaseData <$> released)
             (update_coordinator (set_m_new_notifiers new_notifiers) w) in
  if did_remove && is_empty new_notifiers then
    match m_advancer_sg c with
    | Some sg => emit [EvEndRead AdvancerSG]
                   (update_coordinator (set_m_advancer_sg (Some (end_read sg))) w)
    | None => w
    end
  else w.

(** [RealmCoordinator::open_helper_shared_group] *)
Definition open_helper_shared_group {C} : M (World C) unit := λ w,
  let c := coordinator w in
  match m_notifier_sg c with
  | None =>
      match open_with_config w with
      | OpenOk =>
          Returned tt
            (emit [EvOpenWithConfig NotifierSG; EvBeginRead NotifierSG VersionID_default]
               (update_coordinator
                  (set_m_notifier_sg
                     (Some (begin_read (latest w) VersionID_default (mkSharedGroup None))))
                  w))
      | OpenReadOnlyGroup => Aborted
      | OpenThrows e =>
          Returned tt
            (emit [EvOpenWithConfig NotifierSG]
               (update_coordinator
                  (λ c, set_m_notifier_sg None (set_m_async_error (Some e) c)) w))
      end
  | Some sg =>
      if is_empty (m_notifiers c) then
        Returned tt
          (emit [EvBeginRead NotifierSG VersionID_default]
             (update_coordinator
                (set_m_notifier_sg (Some (begin_read (latest w) VersionID_default sg))) w))
      else Returned tt w
  end.

(** ** The storage of [std::vector]

    A vector keeps its elements in one allocation.  [push_back] on a
    vector whose size has reached its capacity moves the elements to a new
    allocation, and every reference to an element of the old one is
    invalid from then on; [push_back] with room to spare invalidates no
    reference.  The capacity [c0] that [resize(2)] gives an empty vector
    and the capacity [grow c] that a reallocation chooses are the
    implementation's: 2, and twice the old capacity, in libstdc++ and in
    libc++. *)
Section Vector_storage.
Variable c0 : nat.
Variable grow : nat → nat.

(** Capacity and allocation, the allocations being counted from 0, of a
    vector after [resize(2)] and [pushes] calls of [push_back]. *)
Fixpoint storage_after (pushes : nat) : nat * nat :=
  match pushes with
  | 0 => (c0, 0)
  | S before =>
      let '(capacity, allocation) := storage_after before in
      if 2 + before <? capacity then (capacity, allocation)
      else (grow capacity, S allocation)
  end.

(** The allocation of the vector when it has [size] elements. *)
Definition allocation_at (size : nat) : nat := (storage_after (size - 2)).2.

(** Whether the reference [r] still points into the vector when the
    vector has [size] elements. *)
Definition reference_valid (r : InfoRef) (size : nat) : bool :=
  bool_decide (allocation_at (ref_size r) = allocation_at size).
End Vector_storage.

Section Engine.
Context {C : Type}.

(** [CollectionChangeBuilder::merge]: [merge a b] is [a] followed by [b]. *)
Variable merge : C → C → C.

(** The storage engine's transaction log: the table-level changes, one
    entry per table, and the changes of one link list, that advancing a
    read transaction from one version to another reports. *)
Variable table_log : N → N → list C.
Variable list_log : N → N → ListChangeInfo → C.

(** What [deliver(sg, error)] answers for a notifier. *)
Variable deliver : BackgroundCollection → SharedGroup → option Exception → bool.

Abbreviation Info := (TransactionChangeInfo C).

(** Table-level changes reported into a sink that already holds some. *)
Fixpoint accumulate (sink reported : list C) : list C :=
  match sink, reported with
  | [], _ => reported
  | _, [] => sink
  | s :: sink, r :: reported => merge s r :: accumulate sink reported
  end.

Definition report_lists (from to : N) (ls : list ListChangeInfo)
    (b : gmap nat C) : gmap nat C :=
  foldl (λ b l, alter (λ c, merge c (list_log from to l)) (changes l) b) b ls.

(** Modelled from the spec: [transaction::advance(sg, info, version)]
    "advances to target or latest, emitting table/list changes into the
    sink"; a default-constructed [version] stands for the latest one. *)
Definition advance (latest : VersionID) (sg : SharedGroup) (info : Info)
    (b : gmap nat C) (target : VersionID) : SharedGroup * Info * gmap nat C :=
  let from := get_version_of_current_transaction sg in
  let to := resolve latest target in
  (mkSharedGroup (Some to),
   mkTransactionChangeInfo
     (accumulate (tables info) (table_log (version from) (version to))) (lists info),
   report_lists (version from) (version to) (lists info) b).

(** Modelled from the spec: [add_required_change_info(info)] registers the
    lists the notifier observes. *)
Definition add_required_change_info (n : BackgroundCollection) (info : Info) : Info :=
  mkTransactionChangeInfo (tables info) (lists info ++ required_lists n).

(** [std::sort] by [version()]: insertion keeps the order of notifiers with
    the same version, which [std::sort] leaves unspecified. *)
Fixpoint insert_by_version (n : BackgroundCollection) (l : list BackgroundCollection) :=
  match l with
  | [] => [n]
  | m :: rest =>
      if VersionID_ltb (notifier_version n) (notifier_version m) then n :: l
      else m :: insert_by_version n rest
  end.
Definition sort_by_version (l : list BackgroundCollection) : list BackgroundCollection :=
  foldl (λ sorted n, insert_by_version n sorted) [] l.

(** The state of the loop of lines 352-361. *)
Record FanIn := mkFanIn {
  fi_change_info : list Info;
  fi_version : VersionID;
  fi_sg : SharedGroup;
  fi_builders : gmap nat C;
  fi_trace : list Event;
}.

(** Lines 353-360, for one staged notifier; [info] is [&change_info.back()],
    taken anew after each [push_back].  The notifier receives [*info], a
    reference to the last element of the vector as it is stored at that
    moment. *)
Definition fan_in_step (latest : VersionID) (st : FanIn) (notifier : BackgroundCollection)
  : FanIn :=
  let st :=
    if negb (VersionID_eqb (fi_version st) (notifier_version notifier)) then
      match back (fi_change_info st) with
      | None => st
      | Some info =>
          let '(sg, info', b) :=
            advance latest (fi_sg st) info (fi_builders st) (notifier_version notifier) in
          mkFanIn
            (update_back (λ _, mkTransactionChangeInfo (tables info') []) (fi_change_info st)
               ++ [mkTransactionChangeInfo [] (lists info')])
            (notifier_version notifier) sg b
            (fi_trace st ++ [EvAdvance AdvancerSG (notifier_version notifier)])
      end
    else st in
  mkFanIn
    (update_back (add_required_change_info notifier) (fi_change_info st))
    (fi_version st) (fi_sg st) (fi_builders st)
    (fi_trace st ++ [EvAttachTo (notifier_id notifier) AdvancerSG;
                     EvAddRequiredChangeInfo (notifier_id notifier)
                       (mkInfoRef (length (fi_change_info st))
                          (length (fi_change_info st) - 1))]).

(** Lines 391-405: [cur] merged into [prev] at the table level. *)
Definition merge_tables (prev cur : list C) : list C :=
  if is_empty cur then prev
  else if is_empty prev then cur
  else
    imap (λ j p, match cur !! j with Some c => merge p c | None => p end) prev
    ++ drop (length prev) cur.

Definition set_tables (x : list C) (info : Info) : Info :=
  mkTransactionChangeInfo x (lists info).

(** Lines 389-406: the body for one [i]. *)
Definition merge_step (change_info : list Info) (i : nat) : list Info :=
  match change_info !! i, change_info !! (i - 1) with
  | Some cur, Some prev =>
      <[i - 1 := set_tables (merge_tables (tables prev) (tables cur)) prev]> change_info
  | _, _ => change_info
  end.

(** [for (size_t i = change_info.size() - 1; i > 1; --i)] *)
Definition merge_pass (change_info : list Info) : list Info :=
  foldl merge_step change_info (reverse (seq 2 (length change_info - 2))).

Definition list_id (l : ListChangeInfo) : N * N * N :=
  (table_ndx l, col_ndx l, row_ndx l).

(** Line 414: [dst->merge(CollectionChangeBuilder{*src})] *)
Definition merge_builder (dst src : nat) (b : gmap nat C) : gmap nat C :=
  match b !! src with
  | Some s => alter (λ d, merge d s) dst b
  | None => b
  end.

(** Lines 412-416: [for (size_t j = i; j > 0; --j)] *)
Fixpoint dedup_inner (ls : list ListChangeInfo) (li : ListChangeInfo) (j : nat)
    (b : gmap nat C) : gmap nat C :=
  match j with
  | 0 => b
  | S j' =>
      let b :=
        match ls !! j' with
        | Some lj =>
            if bool_decide (list_id li = list_id lj)
            then merge_builder (changes lj) (changes li) b
            else b
        | None => b
        end in
      dedup_inner ls li j' b
  end.

(** Lines 411-417: [for (size_t i = 1; i < info.lists.size(); ++i)] *)
Definition dedup_lists (ls : list ListChangeInfo) (b : gmap nat C) : gmap nat C :=
  foldl (λ b i, match ls !! i with
                | Some li => dedup_inner ls li i b
                | None => b
                end)
        b (seq 1 (length ls - 1)).

(** Lines 410-418: [for (auto& info : change_info)] *)
Definition dedup_pass (change_info : list Info) (b : gmap nat C) : gmap nat C :=
  foldl (λ b info, dedup_lists (lists info) b) b change_info.

Definition empty_info : Info := mkTransactionChangeInfo [] [].

(** Lines 329-370: the staged notifiers are brought to the latest version
    on the advancer transaction.  The result is [change_info], [version]
    and the sorted [new_notifiers]. *)
Definition advance_new_notifiers (new_notifiers : list BackgroundCollection)
  : M (World C) (list Info * VersionID * list BackgroundCollection) := λ w,
  if is_empty new_notifiers then
    Returned ([empty_info], VersionID_default, new_notifiers) w
  else
    let new_notifiers := sort_by_version new_notifiers in
    match m_advancer_sg (coordinator w), head new_notifiers with
    | Some sg, Some front =>
        let version := get_version_of_current_transaction sg in
        if negb (VersionID_eqb version (notifier_version front)) then Aborted
        else
          let st := foldl (fan_in_step (latest w))
                      (mkFanIn [empty_info; empty_info] version sg (builders w) (trace w))
                      new_notifiers in
          match back (fi_change_info st) with
          | None => Aborted
          | Some info =>
              let '(sg, info, b) :=
                advance (latest w) (fi_sg st) info (fi_builders st) VersionID_default in
              Returned
                (update_back (λ _, info) (fi_change_info st),
                 get_version_of_current_transaction sg, new_notifiers)
                (mkWorld (set_m_advancer_sg (Some (end_read sg)) (coordinator w))
                   b (latest w) (open_with_config w)
                   (fi_trace st ++ [EvAdvance AdvancerSG VersionID_default]
                      ++ (EvDetach <$> (notifier_id <$> new_notifiers))
                      ++ [EvEndRead AdvancerSG]))
          end
    | _, _ => Aborted
    end.

(** Lines 374-381: the active notifiers ask for their changes in
    [change_info[0]] and the notifier transaction is advanced. *)
Definition advance_notifiers (change_info : list Info) (version : VersionID)
    (notifiers : list BackgroundCollection) : M (World C) (list Info) := λ w,
  match m_notifier_sg (coordinator w), change_info !! 0 with
  | Some sg, Some info0 =>
      let info0 := foldl (λ info n, add_required_change_info n info) info0 notifiers in
      let '(sg, info0, b) := advance (latest w) sg info0 (builders w) version in
      Returned (<[0 := info0]> change_info)
        (mkWorld (set_m_notifier_sg (Some sg) (coordinator w)) b (latest w)
           (open_with_config w)
           (trace w
              ++ ((λ n, EvAddRequiredChangeInfo (notifier_id n)
                          (mkInfoRef (length change_info) 0)) <$> notifiers)
              ++ [EvAdvance NotifierSG version]))
  | _, _ => Aborted
  end.

(** [RealmCoordinator::run_async_notifiers].  The result is the
    [change_info] vector the notifiers are run with, when the cycle gets
    that far. *)
Definition run_async_notifiers : M (World C) (option (list Info)) :=
  modify_state clean_up_dead_notifiers;;
  w ← get_state;
  if is_empty (m_notifiers (coordinator w)) && is_empty (m_new_notifiers (coordinator w))
  then mret None
  else
    when (negb (bool_decide (is_Some (m_async_error (coordinator w)))))
         open_helper_shared_group;;
    w ← get_state;
    if bool_decide (is_Some (m_async_error (coordinator w))) then
      modify_state
        (update_coordinator
           (λ c, set_m_new_notifiers []
                   (set_m_notifiers (m_notifiers c ++ m_new_notifiers c) c)));;
      mret None
    else
      modify_state (update_coordinator (set_m_new_notifiers []));;
      '(change_info, version, new_notifiers) ←
        advance_new_notifiers (m_new_notifiers (coordinator w));
      let notifiers := m_notifiers (coordinator w) in
      (* lock.unlock() *)
      change_info ← advance_notifiers change_info version notifiers;
      modify_state
        (emit ((λ n, EvAttachTo (notifier_id n) NotifierSG) <$> new_notifiers));;
      let notifiers := notifiers ++ new_notifiers in
      let change_info := merge_pass change_info in
      modify_state (λ w, set_builders (dedup_pass change_info (builders w)) w);;
      modify_state (emit (EvRun <$> (notifier_id <$> notifiers)));;
      (* lock.lock() *)
      modify_state (emit (EvPrepareHandover <$> (notifier_id <$> notifiers)));;
      modify_state (update_coordinator (set_m_notifiers notifiers));;
      modify_state clean_up_dead_notifiers;;
      mret (Some change_info).

(** [RealmCoordinator::on_change] *)
Definition on_change : M (World C) unit :=
  run_async_notifiers;;
  w ← get_state;
  modify_state
    (emit (EvNotify <$> (wrn_realm <$> m_weak_realm_notifiers (coordinator w)))).

(** The lambda [get_notifier_version] of [advance_to_ready]. *)
Fixpoint get_notifier_version (notifiers : list BackgroundCollection) : VersionID :=
  match notifiers with
  | [] => VersionID_default
  | notifier :: rest =>
      if negb (VersionID_eqb (notifier_version notifier) VersionID_default)
      then notifier_version notifier
      else get_notifier_version rest
  end.

(** Lines 504-508 (and 523-527): [deliver] on every active notifier. *)
Definition deliver_all (sg : SharedGroup) (w : World C)
  : list BackgroundCollection * World C :=
  let c := coordinator w in
  (filter (λ n, deliver n sg (m_async_error c)) (m_notifiers c),
   emit (EvDeliver <$> (notifier_id <$> m_notifiers c)) w).

(** The [while (true)] loop of [advance_to_ready].  The handle's thread
    holds no lock while it advances, so another thread may have replaced
    [m_notifiers] by the time the lock is taken again: [interleavings]
    lists what is found on each such occasion, and nothing changes any
    more once it is used up.  [None] is a loop that would not end. *)
Fixpoint advance_to_ready_loop (interleavings : list (list BackgroundCollection))
    (target_version : VersionID) (sg : SharedGroup) (w : World C)
  : option (SharedGroup * list BackgroundCollection * World C) :=
  let sg := mkSharedGroup (Some (resolve (latest w) target_version)) in
  let w := emit [EvAdvance HandleSG target_version] w in
  let w := match interleavings with
           | [] => w
           | found :: _ => update_coordinator (set_m_notifiers found) w
           end in
  let target_version := get_notifier_version (m_notifiers (coordinator w)) in
  if (version target_version =? uint64_max)%N then Some (sg, [], w)
  else if negb (VersionID_eqb target_version (get_version_of_current_transaction sg)) then
    match interleavings with
    | [] => None
    | _ :: later => advance_to_ready_loop later target_version sg w
    end
  else
    let '(notifiers, w) := deliver_all sg w in Some (sg, notifiers, w).

(** [RealmCoordinator::advance_to_ready]; [sg] is the handle's shared group. *)
Definition advance_to_ready (interleavings : list (list BackgroundCollection))
    (sg : SharedGroup) (w : World C) : option (SharedGroup * World C) :=
  let target_version := get_notifier_version (m_notifiers (coordinator w)) in
  if (version target_version =? uint64_max)%N then
    Some (mkSharedGroup (Some (latest w)), emit [EvAdvance HandleSG VersionID_default] w)
  else if VersionID_ltb target_version (get_version_of_current_transaction sg) then
    Some (sg, w)
  else
    match advance_to_ready_loop interleavings target_version sg w with
    | None => None
    | Some (sg, notifiers, w) =>
        Some (sg, emit (EvCallCallbacks <$> (notifier_id <$> notifiers)) w)
    end.

(** [RealmCoordinator::process_available_async] *)
Definition process_available_async (sg : SharedGroup) (w : World C) : World C :=
  let '(notifiers, w) := deliver_all sg w in
  emit (EvCallCallbacks <$> (notifier_id <$> notifiers)) w.
End Engine.

(** * Notions used in the statements *)

Definition contains (needle text : string) : bool :=
  bool_decide (is_Some (String.index 0 needle text)).

Definition config_mismatch (m_config config : Config) : Prop :=
  read_only m_config ≠ read_only config
  ∨ in_memory m_config ≠ in_memory config
  ∨ encryption_key m_config ≠ encryption_key config
  ∨ (schema_version m_config ≠ schema_version config
     ∧ schema_version config ≠ NotVersioned).


(** Engine calls that open a transaction or move one forward. *)
Definition opens_or_advances (e : Event) : bool :=
  match e with
  | EvOpenWithConfig _ | EvBeginRead _ _ | EvAdvance _ _ => true
  | _ => false
  end.

(** ** A concrete storage engine for the examples

    A change set is the list of commits it covers; the file has two tables
    and every commit touches both. *)

Definition V (n : N) : VersionID := mkVersionID n 0.

Definition commits (a b : N) : list N :=
  N.of_nat <$> seq (S (N.to_nat a)) (N.to_nat b - N.to_nat a).
Definition example_table_log (a b : N) : list (list N) :=
  [commits a b; commits a b].
Definition example_list_log (a b : N) (l : ListChangeInfo) : list N :=
  commits a b.
Definition example_deliver (n : BackgroundCollection) (sg : SharedGroup)
    (e : option Exception) : bool :=
  VersionID_eqb (notifier_version n) (get_version_of_current_transaction sg).

Definition returned {S A} (o : Outcome S A) (s : S) : S :=
  match o with Returned _ s' => s' | Thrown _ s' => s' | Aborted => s end.

(** ** Example processes *)

Definition example_config (ro : bool) : Config :=
  mkConfig "P" ro false true [] 1 true None.

(** Path "P" opened once, read-only. *)
Definition example_process_read_only : Process :=
  let '(c, p) := get_coordinator "P" Process_initial in
  returned (get_realm c (example_config true) p) p.

(** Path "P" opened once, writable. *)
Definition example_process : Process :=
  let '(c, p) := get_coordinator "P" Process_initial in
  returned (get_realm c (example_config false) p) p.

Definition coordinator_of (p : Process) (c : CoordId) : RealmCoordinator :=
  default RealmCoordinator_new (coordinators p !! c).

(** ** Calls on one coordinator *)

Inductive Call :=
| Call_pin_version (version index : N)
| Call_register_notifier (notifier : BackgroundCollection)
| Call_clean_up_dead_notifiers
| Call_run_async_notifiers
| Call_on_change
| Call_advance_to_ready (interleavings : list (list BackgroundCollection))
    (sg : SharedGroup)
| Call_process_available_async (sg : SharedGroup)
| Call_send_commit_notifications
| Call_update_schema (new_schema : Schema).

Section Calls.
Context {C : Type}.
Variable merge : C → C → C.
Variable table_log : N → N → list C.
Variable list_log : N → N → ListChangeInfo → C.
Variable deliver : BackgroundCollection → SharedGroup → option Exception → bool.

Definition state_of {A} (o : Outcome (World C) A) : option (World C) :=
  match o with
  | Returned _ s => Some s
  | Thrown _ s => Some s
  | Aborted => None
  end.

(** The state a call leaves behind, when the process survives it. *)
Definition call (k : Call) (w : World C) : option (World C) :=
  match k with
  | Call_pin_version v i => state_of (pin_version v i w)
  | Call_register_notifier n => state_of (register_notifier n w)
  | Call_clean_up_dead_notifiers => Some (clean_up_dead_notifiers w)
  | Call_run_async_notifiers =>
      state_of (run_async_notifiers merge table_log list_log w)
  | Call_on_change => state_of (on_change merge table_log list_log w)
  | Call_advance_to_ready interleavings sg =>
      snd <$> advance_to_ready deliver interleavings sg w
  | Call_process_available_async sg => Some (process_available_async deliver sg w)
  | Call_send_commit_notifications => state_of (send_commit_notifications w)
  | Call_update_schema s => Some (update_coordinator (update_schema s) w)
  end.

Fixpoint run_calls (ks : list Call) (w : World C) : option (World C) :=
  match ks with
  | [] => Some w
  | k :: ks => w' ← call k w; run_calls ks w'
  end.
End Calls.

(** [run_async_notifiers] on the error path: every staged notifier joins the
    active ones. *)
Definition drain_new_notifiers (c : RealmCoordinator) : RealmCoordinator :=
  set_m_new_notifiers [] (set_m_notifiers (m_notifiers c ++ m_new_notifiers c) c).

(** ** Invariant I2: the advancer transaction pins the oldest staged version *)

Definition minimum_version (l : list BackgroundCollection) : option N :=
  foldr (λ n acc, Some match acc with
                       | None => version (notifier_version n)
                       | Some m => N.min (version (notifier_version n)) m
                       end) None l.

Definition pinned_at_minimum (c : RealmCoordinator) : Prop :=
  m_new_notifiers c ≠ [] → m_async_error c = None →
  ∃ sg v, m_advancer_sg c = Some sg ∧ current_transaction sg = Some v
          ∧ Some (version v) = minimum_version (m_new_notifiers c).

(** ** Example worlds *)

Definition example_notifier (id : nat) (v : N) (alive : bool) : BackgroundCollection :=
  mkBackgroundCollection id (V v) alive [mkListChangeInfo 0 0 0 id].

Definition example_world (latest : N) (open : OpenResult) : World (list N) :=
  mkWorld RealmCoordinator_new
    (list_to_map ((λ i, (i, [])) <$> seq 0 8)) (V latest) open [].

(** The background open fails on the first registration. *)
Definition example_world_latched : World (list N) :=
  returned (register_notifier (example_notifier 1 3 true)
              (example_world 3 (OpenThrows (other_exception "I/O error"))))
           (example_world 3 OpenOk).

(** Notifier 1 is registered at version 3 and notifier 2 at version 5. *)
Definition example_world_two_staged : World (list N) :=
  let w := example_world 7 OpenOk in
  let w := returned (register_notifier (example_notifier 1 3 true) w) w in
  returned (register_notifier (example_notifier 2 5 true) w) w.

(** The environment: a staged notifier loses its handle. *)
Definition kill_staged {C} (id : NotifierId) (w : World C) : World C :=
  update_coordinator
    (λ c, set_m_new_notifiers
            ((λ n, if bool_decide (notifier_id n = id)
                   then mkBackgroundCollection (notifier_id n) (notifier_version n)
                          false (required_lists n)
                   else n) <$> m_new_notifiers c) c) w.

(** ** Delivery *)

(** A notifier's version is defined when it is not the "not set" sentinel. *)
Definition version_defined (n : BackgroundCollection) : Prop :=
  version (notifier_version n) ≠ uint64_max.

Global Instance version_defined_dec n : Decision (version_defined n).
Proof. unfold version_defined. apply _. Defined.

(** The calls of [add_required_change_info] on notifier [id]. *)
Definition is_add_required (id : NotifierId) (e : Event) : bool :=
  match e with
  | EvAddRequiredChangeInfo n _ => bool_decide (n = id)
  | _ => false
  end.

Definition is_deliver (e : Event) : bool :=
  match e with EvDeliver _ => true | _ => false end.
Definition is_handle_advance (e : Event) : bool :=
  match e with EvAdvance HandleSG _ => true | _ => false end.

(** One active notifier, prepared at version 7, on a file whose latest
    version is 7. *)
Definition example_world_ready : World (list N) :=
  update_coordinator (set_m_notifiers [example_notifier 1 7 true])
    (example_world 7 OpenOk).

Section Delivery.
Context {C : Type}.
Variable deliver : BackgroundCollection → SharedGroup → option Exception → bool.

End Delivery.

(** ** Duplicated list descriptors *)

Section Duplicates.
Context {C : Type}.
Variable merge : C → C → C.

(** The descriptors after position [k] that name the same list as [lk]. *)
Definition duplicates_after (ls : list ListChangeInfo) (k : nat) (lk : ListChangeInfo)
  : list ListChangeInfo :=
  filter (λ l, list_id l = list_id lk) (drop (S k) ls).

(** [x] with the changes of every descriptor of [dups] merged in, in order. *)
Definition merged_changes (b : gmap nat C) (x : C) (dups : list ListChangeInfo) : C :=
  foldl (λ acc l, match b !! changes l with
                  | Some c => merge acc c
                  | None => acc
                  end) x dups.
End Duplicates.

(** One entry with four descriptors; the first, second and fourth name the
    same list. *)
Definition example_lists : list ListChangeInfo :=
  [mkListChangeInfo 0 0 0 1; mkListChangeInfo 0 0 0 2;
   mkListChangeInfo 1 0 0 3; mkListChangeInfo 0 0 0 4].
Definition example_change_info : list (TransactionChangeInfo (list N)) :=
  [mkTransactionChangeInfo [] example_lists].
Definition example_builders : gmap nat (list N) :=
  list_to_map [(1, [1%N]); (2, [2%N]); (3, [3%N]); (4, [4%N])].

(** ** The fan-in over staged notifiers *)

(** The version a notifier was registered at. *)
Definition origin (n : BackgroundCollection) : N := version (notifier_version n).

(** The versions at which a pass over [ns] that starts at version [v] meets
    a version different from the one it is at. *)
Fixpoint slot_versions (v : N) (ns : list BackgroundCollection) : list N :=
  match ns with
  | [] => []
  | n :: rest =>
      if (v =? origin n)%N then slot_versions v rest
      else origin n :: slot_versions (origin n) rest
  end.

Fixpoint ascending_from (v : N) (ns : list BackgroundCollection) : Prop :=
  match ns with
  | [] => True
  | n :: rest => (v ≤ origin n)%N ∧ ascending_from (origin n) rest
  end.

(** The number of distinct origin versions among [ns]. *)
Definition distinct_origins (ns : list BackgroundCollection) : nat :=
  length (remove_dups (origin <$> ns)).

(** The changes of slot [i] and of all later slots, merged in order. *)
Fixpoint merge_suffixes {C} (merge_tables : list C → list C → list C)
    (ts : list (list C)) : list (list C) :=
  match ts with
  | [] => []
  | t :: rest =>
      match merge_suffixes merge_tables rest with
      | [] => [t]
      | t' :: rest' => merge_tables t t' :: t' :: rest'
      end
  end.

Section Fan_in_spec.
Context {C : Type}.
Variable table_log : N → N → list C.

(** The table-level changes of the slots a pass over [ns] closes: each
    holds the changes between the version the slot was opened at and the
    next version met. *)
Fixpoint closed_tables (v : N) (ns : list BackgroundCollection) : list (list C) :=
  match ns with
  | [] => []
  | n :: rest =>
      if (v =? origin n)%N then closed_tables v rest
      else table_log v (origin n) :: closed_tables (origin n) rest
  end.

(** The version the pass ends at. *)
Fixpoint last_version (v : N) (ns : list BackgroundCollection) : N :=
  match ns with
  | [] => v
  | n :: rest =>
      if (v =? origin n)%N then last_version v rest
      else last_version (origin n) rest
  end.
End Fan_in_spec.

(** The backwards merge pass started at index [lo] instead of 2. *)
Definition merge_from {C} (merge : C → C → C) (lo : nat)
    (l : list (TransactionChangeInfo C)) : list (TransactionChangeInfo C) :=
  foldl (merge_step merge) l (reverse (seq lo (length l - lo))).

(** The version the notifier transaction is at when a cycle advances it:
    its current one while there are active notifiers, the latest one when it
    has just begun a fresh read. *)
Definition notifier_sg_origin {C} (w : World C) : VersionID :=
  match m_notifier_sg (coordinator w) with
  | Some sg =>
      if is_empty (m_notifiers (coordinator w)) then latest w
      else get_version_of_current_transaction sg
  | None => latest w
  end.

(** Scenario S4: notifier 1 staged at version 3, notifier 2 staged at
    version 5, notifier 3 active with the notifier transaction at version
    5; the latest version is 7. *)
Definition example_world_S4 : World (list N) :=
  update_coordinator
    (λ c, set_m_notifier_sg (Some (mkSharedGroup (Some (V 5))))
            (set_m_notifiers [example_notifier 3 5 true] c))
    example_world_two_staged.

(** ** Histories of the process *)

Inductive ProcessOp :=
| Op_get_coordinator (path : string)
| Op_get_existing_coordinator (path : string)
| Op_release_coordinator (c : CoordId)
| Op_get_realm (this : CoordId) (config : Config)
| Op_unregister_realm (this : CoordId) (realm : RealmId)
| Op_close (realm : RealmId)
| Op_clear_cache
| Op_clear_all_caches.

Definition process_step (p : Process) (op : ProcessOp) : Process :=
  match op with
  | Op_get_coordinator path => (get_coordinator path p).2
  | Op_get_existing_coordinator path => p
  | Op_release_coordinator c =>
      if coordinator_alive p c then release_coordinator c p else p
  | Op_get_realm this config => returned (get_realm this config p) p
  | Op_unregister_realm this realm => unregister_realm this realm p
  | Op_close realm => if realm_alive p realm then Realm_close realm p else p
  | Op_clear_cache => clear_cache p
  | Op_clear_all_caches => clear_all_caches p
  end.

Definition run_process (ops : list ProcessOp) (p : Process) : Process :=
  foldl process_step p ops.

Definition clears_registry (op : ProcessOp) : bool :=
  match op with
  | Op_clear_cache | Op_clear_all_caches => true
  | _ => false
  end.

(** Invariant I1: two live coordinators created for the same path are the
    same object. *)
Definition at_most_one_live (p : Process) : Prop :=
  ∀ (c1 c2 : CoordId) (path : string),
    coordinator_alive p c1 = true → coordinator_alive p c2 = true →
    created_for p !! c1 = Some path → created_for p !! c2 = Some path →
    c1 = c2.

(** Every live coordinator is the registry's entry for the path it was
    created for, and object identities are fresh. *)
Definition registered (p : Process) : Prop :=
  (∀ (c : CoordId), is_Some (coordinators p !! c) →
     c < next_object p
     ∧ ∃ path, created_for p !! c = Some path
               ∧ s_coordinators_per_path p !! path = Some c).

(** What a call on handles leaves alone: the registry, the identity and
    liveness of coordinators, and the latched error of each of them. *)
Definition handle_frame (p p' : Process) : Prop :=
  s_coordinators_per_path p' = s_coordinators_per_path p
  ∧ created_for p' = created_for p
  ∧ next_object p ≤ next_object p'
  ∧ ∀ (c : CoordId),
      match coordinators p !! c, coordinators p' !! c with
      | Some co, Some co' => m_async_error co' = m_async_error co
      | None, None => True
      | _, _ => False
      end.

Definition handle_frames {A} (m : M Process A) : Prop :=
  ∀ p, match m p with
       | Returned _ p' | Thrown _ p' => handle_frame p p'
       | Aborted => True
       end.

(** ** Cached handles *)

(** The live handles a coordinator holds weak references to. *)
Definition collect_realms (p : Process) (heap : gmap CoordId RealmCoordinator)
    (c : CoordId) : list RealmId :=
  match heap !! c with
  | Some co =>
      wrn_realm <$> filter (λ n, realm_alive p (wrn_realm n)) (m_weak_realm_notifiers co)
  | None => []
  end.

(** The second loop of [clear_cache]. *)
Definition close_all (to_close : list RealmId) (p : Process) : Process :=
  foldl (λ p weak_realm,
           if realm_alive p weak_realm then Realm_close weak_realm p else p)
        p to_close.


(** A coordinator is registered under one path; a coordinator holds one weak
    reference per handle, each to a live handle that is bound to it. *)
Definition wf_handles (p : Process) : Prop :=
  (∀ (path1 path2 : string) (c : CoordId),
     s_coordinators_per_path p !! path1 = Some c →
     s_coordinators_per_path p !! path2 = Some c → path1 = path2)
  ∧ (∀ (c : CoordId) co, coordinators p !! c = Some co →
       NoDup (wrn_realm <$> m_weak_realm_notifiers co)
       ∧ ∀ n, n ∈ m_weak_realm_notifiers co →
           ∃ r, realms p !! wrn_realm n = Some r ∧ realm_coordinator r = c).

(** Path "P" opened on two threads. *)
Definition example_process_two_handles : Process :=
  let p := example_process in
  let p := mkProcess (s_coordinators_per_path p) (coordinators p) (realms p)
             (created_for p) (next_object p) 1 (commit_helper_error p)
             (realm_init_error p) (calls p) in
  returned (get_realm 0 (example_config false) p) p.




Ltac unfold_M :=
  unfold mbind, M_bind, mret, M_ret, get_state, put_state, modify_state, when,
    REALM_ASSERT, throw in *.

Ltac elem_solver := rewrite ?elem_of_app, ?elem_of_cons; intuition auto.


(** Object identities are handed out in increasing order. *)
Definition fresh_ids (p : Process) : Prop :=
  ∀ (c : CoordId), is_Some (coordinators p !! c) → c < next_object p.

(** The latched error of a coordinator object, if the object is alive. *)
Definition async_error_of (p : Process) (c : CoordId) : option (option Exception) :=
  m_async_error <$> coordinators p !! c.

(** A coordinator that existed in [p] and is alive in [p'] was alive in [p]
    with the same latched error. *)
Definition keeps_async_errors (p p' : Process) : Prop :=
  next_object p ≤ next_object p'
  ∧ ∀ (c : CoordId) co', c < next_object p → coordinators p' !! c = Some co' →
      ∃ co, coordinators p !! c = Some co ∧ m_async_error co' = m_async_error co.

(** The processes that the operations build: [wf_handles], with the
    identities of the objects in use below [next_object]. *)
Definition wf_process (p : Process) : Prop :=
  wf_handles p
  ∧ (∀ (path : string) (c : CoordId),
       s_coordinators_per_path p !! path = Some c → c < next_object p)
  ∧ (∀ (r : RealmId), is_Some (realms p !! r) → r < next_object p).

Definition keeps_wf {A} (m : M Process A) : Prop :=
  ∀ p, wf_process p →
    match m p with
    | Returned _ p' | Thrown _ p' => wf_process p'
    | Aborted => True
    end.

(** ** Notions used for the rest of the file *)

(** Lines 101-116 of [get_realm]: the cache is searched and, failing that,
    a new handle is opened. *)
Definition get_realm_lookup (this : CoordId) (config : Config) : M Process RealmId :=
  c ← this_coordinator this;
  p ← get_state;
  match (if cache config then find_cached_realm p (m_weak_realm_notifiers c)
         else None) with
  | Some realm => mret realm
  | None => open_new_realm this config
  end.

(** Lines 66-99 of [get_realm] change nothing for this coordinator and this
    configuration: the configuration is the stored one and no commit
    notifier is to be created, or it passes the verification. *)
Definition settled (c : RealmCoordinator) (config : Config) : Prop :=
  if first_substantive_open c then
    m_config c = config
    ∧ negb (read_only config) && negb (bool_decide (is_Some (m_notifier c)))
        && automatic_change_notifications config = false
  else ¬ config_mismatch (m_config c) config.

(** Process [p] with coordinator object [this] replaced. *)
Definition with_coordinator (this : CoordId) (c : RealmCoordinator) (p : Process)
  : Process :=
  set_coordinators (<[this := c]> (coordinators p)) p.

(** The process once lines 113-116 of [get_realm] have run for coordinator
    object [c]: a new handle exists and [c] holds a weak reference to it. *)
Definition with_new_realm (this : CoordId) (config : Config) (c : RealmCoordinator)
    (p : Process) : Process :=
  let realm := next_object p in
  mkProcess (s_coordinators_per_path p)
    (<[this := set_m_weak_realm_notifiers
                 (m_weak_realm_notifiers c
                    ++ [mkWeakRealmNotifier realm (current_thread p) (cache (m_config c))])
                 c]> (coordinators p))
    (<[realm := mkRealm config this (current_thread p)]> (realms p))
    (created_for p) (S realm) (current_thread p)
    (commit_helper_error p) (realm_init_error p) (calls p).

(** Whether the first open of [config] on coordinator object [c] creates the
    commit notifier (line 68). *)
Definition creates_commit_helper (c : RealmCoordinator) (config : Config) : bool :=
  negb (read_only config) && negb (bool_decide (is_Some (m_notifier c)))
  && automatic_change_notifications config.

(** Whether [swap_remove] empties a container by removing from it: some
    notifier is dead and none is alive. *)
Definition all_reaped (l : list BackgroundCollection) : bool :=
  negb (forallb is_alive l) && forallb (λ n, negb (is_alive n)) l.

Section Cycle_parts.
Context {C : Type}.
Variable merge : C → C → C.

(** Lines 383-431 of [run_async_notifiers]: the staged notifiers are
    attached to the notifier transaction, list changes are shared between
    duplicates, every notifier is run and prepared for handover, the new
    list of active notifiers is stored and dead notifiers are reaped. *)
Definition cycle_end (notifiers new_notifiers : list BackgroundCollection)
    (change_info : list (TransactionChangeInfo C)) (w : World C) : World C :=
  let w := emit ((λ n, EvAttachTo (notifier_id n) NotifierSG) <$> new_notifiers) w in
  let notifiers := notifiers ++ new_notifiers in
  let w := set_builders (dedup_pass merge change_info (builders w)) w in
  let w := emit (EvRun <$> (notifier_id <$> notifiers)) w in
  let w := emit (EvPrepareHandover <$> (notifier_id <$> notifiers)) w in
  clean_up_dead_notifiers (update_coordinator (set_m_notifiers notifiers) w).
End Cycle_parts.

(** Whether an asynchronous error is latched. *)
Definition latched {C} (w : World C) : bool :=
  bool_decide (is_Some (m_async_error (coordinator w))).

(** ** The discipline of the background transactions

    The coordinator drives two transactions of its own, the advancer
    transaction and the notifier transaction.  What follows records, from
    the calls in a trace, whether each of them exists and holds a read, and
    refuses a trace in which a transaction is opened twice, a read is begun
    on a transaction that holds one ("then we don't already have a read
    transaction", line 238), or a transaction that holds no read is
    advanced or one that does not exist has its read ended. *)

(** [None]: the transaction does not exist; [Some false]: it holds no
    read; [Some true]: it holds one. *)
Definition sg_status (sg : option SharedGroup) : option bool :=
  (λ s, bool_decide (is_Some (current_transaction s))) <$> sg.

Record Statuses := mkStatuses {
  advancer_status : option bool;
  notifier_status : option bool;
}.

Definition statuses_of (c : RealmCoordinator) : Statuses :=
  mkStatuses (sg_status (m_advancer_sg c)) (sg_status (m_notifier_sg c)).

Definition event_sg (e : Event) : option SgName :=
  match e with
  | EvOpenWithConfig sg | EvBeginRead sg _ | EvEndRead sg | EvAdvance sg _ => Some sg
  | _ => None
  end.

Definition status_step (st : option bool) (e : Event) : option (option bool) :=
  match e with
  | EvOpenWithConfig _ => match st with None => Some None | Some _ => None end
  | EvBeginRead _ _ => match st with Some true => None | _ => Some (Some true) end
  | EvEndRead _ => match st with Some _ => Some (Some false) | None => None end
  | EvAdvance _ _ => match st with Some true => Some (Some true) | _ => None end
  | _ => Some st
  end.

Definition replay_event (st : Statuses) (e : Event) : option Statuses :=
  match event_sg e with
  | Some AdvancerSG =>
      (λ a, mkStatuses a (notifier_status st)) <$> status_step (advancer_status st) e
  | Some NotifierSG =>
      (λ n, mkStatuses (advancer_status st) n) <$> status_step (notifier_status st) e
  | Some HandleSG | None => Some st
  end.

Fixpoint replay (st : Statuses) (es : list Event) : option Statuses :=
  match es with
  | [] => Some st
  | e :: es =>
      match replay_event st e with
      | Some st' => replay st' es
      | None => None
      end
  end.

(** An event that concerns neither background transaction. *)
Definition neutral (e : Event) : bool :=
  match event_sg e with
  | Some AdvancerSG | Some NotifierSG => false
  | Some HandleSG | None => true
  end.

(** The events of the loop of lines 352-361. *)
Definition fan_in_event (e : Event) : bool :=
  match e with
  | EvAdvance AdvancerSG _ | EvAttachTo _ _ | EvAddRequiredChangeInfo _ _ => true
  | _ => false
  end.

(** While no error is latched, a background transaction holds a read
    exactly when its list of notifiers is not empty. *)
Definition reads_held (c : RealmCoordinator) : Prop :=
  m_async_error c = None →
  (if is_empty (m_new_notifiers c) then sg_status (m_advancer_sg c) ≠ Some true
   else sg_status (m_advancer_sg c) = Some true)
  ∧ (if is_empty (m_notifiers c) then sg_status (m_notifier_sg c) ≠ Some true
     else sg_status (m_notifier_sg c) = Some true).

(** The trace of [w'] continues that of [w] with calls that keep to the
    discipline and lead from the transactions of [w] to those of [w']. *)
Definition follows {C} (w w' : World C) : Prop :=
  ∃ es, trace w' = trace w ++ es
        ∧ replay (statuses_of (coordinator w)) es = Some (statuses_of (coordinator w')).

(** What the handle side and the commit helper call: everything but
    [pin_version] on its own, which [register_notifier] alone calls (with
    the [push_back] that follows it); [advance_to_ready] is taken without
    interference from the background thread. *)
Definition entry_point (k : Call) : bool :=
  match k with
  | Call_pin_version _ _ => false
  | Call_advance_to_ready interleavings _ => is_empty interleavings
  | _ => true
  end.

(** The handle side of a coordinator: its configuration, its commit
    notifier and its weak references to handles. *)
Definition same_handles (c c' : RealmCoordinator) : Prop :=
  m_config c' = m_config c
  ∧ m_notifier c' = m_notifier c
  ∧ m_weak_realm_notifiers c' = m_weak_realm_notifiers c.

Section Coverage.
Context {C : Type}.
Variable merge : C → C → C.
Variable list_log : N → N → ListChangeInfo → C.

(** A change builder once the changes of list [l] between versions [a]
    and [v] have been reported into it, if any have. *)
Definition covered (o : option C) (a v : N) (l : ListChangeInfo) : option C :=
  if (a =? v)%N then o else (λ c, merge c (list_log a v l)) <$> o.
End Coverage.

(** The change builders that the list descriptors of notifiers point to. *)
Definition pointers (ns : list BackgroundCollection) : list nat :=
  changes <$> (ns ≫= required_lists).

(** A live notifier observing one link list of its own, the list in row
    [id], with change builder [id]. *)
Definition example_list_notifier (id : nat) (v : N) : BackgroundCollection :=
  mkBackgroundCollection id (V v) true [mkListChangeInfo 0 (N.of_nat id) 0 id].

(** Notifier 1 staged at version 3, notifier 2 staged at version 5,
    notifier 3 active with the notifier transaction at version 5; the
    latest version is 7. *)
Definition example_world_lists : World (list N) :=
  let w := example_world 7 OpenOk in
  let w := returned (register_notifier (example_list_notifier 1 3) w) w in
  let w := returned (register_notifier (example_list_notifier 2 5) w) w in
  update_coordinator
    (λ c, set_m_notifier_sg (Some (mkSharedGroup (Some (V 5))))
            (set_m_notifiers [example_list_notifier 3 5] c)) w.

(** * Properties *)

(** ** Handles and configuration *)

Lemma verify_config_ok (m_config config : Config) (p : Process) :
  ¬ config_mismatch m_config config →
  verify_config m_config config p = Returned tt p.
Proof.
  intros H. unfold verify_config, config_mismatch in *.
  repeat case_bool_decide; simpl; try (exfalso; tauto).
  destruct (N.eqb_spec (schema_version m_config) (schema_version config));
    destruct (N.eqb_spec (schema_version config) NotVersioned); simpl;
    try reflexivity; exfalso; tauto.
Qed.

Lemma verify_config_throws (m_config config : Config) (p : Process) :
  config_mismatch m_config config →
  ∃ m, verify_config m_config config p = Thrown (MismatchedConfigException m) p
    ∧ m =
      if bool_decide (read_only m_config ≠ read_only config) then
        "Realm at path already opened with different read permissions."
      else if bool_decide (in_memory m_config ≠ in_memory config) then
        "Realm at path already opened with different inMemory settings."
      else if bool_decide (encryption_key m_config ≠ encryption_key config) then
        "Realm at path already opened with a different encryption key."
      else "Realm at path already opened with different schema version.".
Proof.
  intros H. unfold verify_config, config_mismatch in *.
  repeat case_bool_decide; simpl; try (eexists; split; reflexivity);
    try (exfalso; tauto).
  destruct (N.eqb_spec (schema_version m_config) (schema_version config));
    destruct (N.eqb_spec (schema_version config) NotVersioned); simpl;
    try (eexists; split; reflexivity); exfalso; tauto.
Qed.

Lemma get_realm_not_first (this : CoordId) (config : Config) (p : Process)
    (c : RealmCoordinator) :
  coordinators p !! this = Some c →
  first_substantive_open c = false →
  get_realm this config p =
    match verify_config (m_config c) config p with
    | Returned _ _ =>
        match (if cache config then find_cached_realm p (m_weak_realm_notifiers c)
               else None) with
        | Some realm => Returned realm p
        | None => open_new_realm this config p
        end
    | Thrown e s => Thrown e s
    | Aborted => Aborted
    end.
Proof.
  intros Hc Hf. unfold get_realm, mbind, M_bind, this_coordinator, get_state.
  rewrite Hc, Hf.
  destruct (decide (config_mismatch (m_config c) config)) as [Hm|Hm].
  - destruct (verify_config_throws _ _ p Hm) as (m & -> & _). reflexivity.
  - rewrite (verify_config_ok _ _ p Hm). rewrite Hc.
    destruct (if cache config then _ else _); reflexivity.
Qed.

Lemma open_new_realm_no_mismatch (this : CoordId) (config : Config) (p : Process) m s :
  open_new_realm this config p ≠ Thrown (MismatchedConfigException m) s.
Proof.
  unfold open_new_realm. destruct (realm_init_error p); [congruence|].
  destruct (coordinators p !! this); congruence.
Qed.

(** C3: a call of [get_realm] that is not the first substantive open throws
    [MismatchedConfigException] exactly when [read_only], [in_memory] or
    [encryption_key] differ from the stored configuration, or
    [schema_version] differs and is not [NotVersioned]; the message names
    the first field that differs, the state is left as it was, and a
    [read_only] mismatch gives a message containing "read permissions". *)
Theorem get_realm_mismatched_config (this : CoordId) (config : Config) (p : Process)
    (c : RealmCoordinator) :
  coordinators p !! this = Some c →
  first_substantive_open c = false →
  ((∃ m s, get_realm this config p = Thrown (MismatchedConfigException m) s)
   ↔ config_mismatch (m_config c) config)
  ∧ (∀ m s, get_realm this config p = Thrown (MismatchedConfigException m) s →
       s = p
       ∧ m =
         if bool_decide (read_only (m_config c) ≠ read_only config) then
           "Realm at path already opened with different read permissions."
         else if bool_decide (in_memory (m_config c) ≠ in_memory config) then
           "Realm at path already opened with different inMemory settings."
         else if bool_decide (encryption_key (m_config c) ≠ encryption_key config) then
           "Realm at path already opened with a different encryption key."
         else "Realm at path already opened with different schema version.")
  ∧ (read_only (m_config c) ≠ read_only config →
       ∃ m, get_realm this config p = Thrown (MismatchedConfigException m) p
            ∧ contains "read permissions" m = true).
Proof.
  intros Hc Hf. rewrite (get_realm_not_first _ _ _ _ Hc Hf).
  destruct (decide (config_mismatch (m_config c) config)) as [Hm|Hm].
  - destruct (verify_config_throws _ _ p Hm) as (m & Hv & Hmsg). rewrite Hv.
    split; [|split].
    + split; [tauto|]. intros _. eauto.
    + intros m' s [= <- <-]. auto.
    + intros Hr. exists m. split; [done|].
      rewrite Hmsg. rewrite bool_decide_eq_true_2 by done. reflexivity.
  - rewrite (verify_config_ok _ _ p Hm).
    split; [|split].
    + split; [|tauto]. intros (m & s & H).
      destruct (if cache config then _ else _); [discriminate|].
      by apply open_new_realm_no_mismatch in H.
    + intros m s H.
      destruct (if cache config then _ else _); [discriminate|].
      by apply open_new_realm_no_mismatch in H.
    + intros Hr. exfalso. apply Hm. by left.
Qed.

Lemma get_realm_mismatched_config_witness :
  ∃ m, get_realm 0 (example_config false) example_process_read_only
         = Thrown (MismatchedConfigException m) example_process_read_only
       ∧ contains "read permissions" m = true.
Proof.
  refine (proj2 (proj2 (get_realm_mismatched_config 0 (example_config false)
            example_process_read_only
            (coordinator_of example_process_read_only 0) _ _)) _).
  - vm_compute. reflexivity.
  - vm_compute. reflexivity.
  - vm_compute. discriminate.
Defined.

(** C10: on a coordinator that is not read-only [send_commit_notifications]
    returns normally whether or not a commit notifier exists; it changes
    nothing but the trace, to which [notify_others] is added exactly when
    [m_notifier] is present. *)
Theorem send_commit_notifications_returns {C} (w : World C) :
  read_only (m_config (coordinator w)) = false →
  ∃ w', send_commit_notifications w = Returned tt w'
    ∧ coordinator w' = coordinator w
    ∧ builders w' = builders w
    ∧ trace w' = trace w ++ match m_notifier (coordinator w) with
                            | Some _ => [EvNotifyOthers]
                            | None => []
                            end
    ∧ (EvNotifyOthers ∈ drop (length (trace w)) (trace w')
       ↔ is_Some (m_notifier (coordinator w))).
Proof.
  intros Hro. unfold send_commit_notifications, mbind, M_bind, get_state, REALM_ASSERT.
  rewrite Hro. simpl.
  destruct (m_notifier (coordinator w)) eqn:Hn.
  - eexists. split; [reflexivity|]. simpl. split_and!; auto.
    split; [eauto|]. intros _. rewrite drop_app_length. set_solver.
  - eexists. split; [reflexivity|]. rewrite app_nil_r. split_and!; auto.
    split; [|intros [? ?]; discriminate].
    rewrite drop_all. set_solver.
Qed.

Lemma send_commit_notifications_returns_witness :
  ∃ w', send_commit_notifications
          (mkWorld RealmCoordinator_new (∅ : gmap nat (list N)) (V 1) OpenOk [])
        = Returned tt w'
    ∧ trace w' = [].
Proof.
  destruct (send_commit_notifications_returns
              (mkWorld RealmCoordinator_new (∅ : gmap nat (list N)) (V 1) OpenOk [])
              eq_refl) as (w' & H1 & _ & _ & H2 & _).
  exists w'. split; [exact H1 | exact H2].
Defined.

(** A read-only coordinator fails the assertion. *)
Lemma send_commit_notifications_read_only {C} (w : World C) :
  read_only (m_config (coordinator w)) = true →
  send_commit_notifications w = Aborted.
Proof.
  intros Hro. unfold send_commit_notifications, mbind, M_bind, get_state, REALM_ASSERT.
  by rewrite Hro.
Qed.

(** ** The latched asynchronous error *)


Lemma pin_version_latched {C} (w : World C) v i :
  is_Some (m_async_error (coordinator w)) →
  pin_version v i w = Returned tt w.
Proof.
  intros H. unfold pin_version. by rewrite bool_decide_eq_true_2.
Qed.

Lemma swap_remove_loop_all_alive fuel i l released did_remove :
  Forall (λ n, is_alive n = true) l →
  swap_remove_loop fuel i l released did_remove = (l, released, did_remove).
Proof.
  intros Hl. revert i. induction fuel as [|fuel IH]; intros i; simpl; [done|].
  destruct (l !! i) as [n|] eqn:Hn; [|done].
  rewrite Forall_lookup in Hl. rewrite (Hl _ _ Hn). apply IH.
Qed.

Lemma swap_remove_all_alive l :
  Forall (λ n, is_alive n = true) l → swap_remove l = (l, [], false).
Proof. apply swap_remove_loop_all_alive. Qed.

Lemma world_eta {C} (w : World C) :
  mkWorld (coordinator w) (builders w) (latest w) (open_with_config w) (trace w) = w.
Proof. by destruct w. Qed.

Lemma clean_up_all_alive {C} (w : World C) :
  Forall (λ n, is_alive n = true) (m_notifiers (coordinator w)) →
  Forall (λ n, is_alive n = true) (m_new_notifiers (coordinator w)) →
  clean_up_dead_notifiers w = w.
Proof.
  intros H1 H2. unfold clean_up_dead_notifiers.
  rewrite (swap_remove_all_alive _ H1), (swap_remove_all_alive _ H2). simpl.
  destruct w as [[] ? ? ? ?]. unfold emit, update_coordinator, set_coordinator. simpl.
  by rewrite !app_nil_r.
Qed.

Lemma clean_up_async_error {C} (w : World C) :
  m_async_error (coordinator (clean_up_dead_notifiers w)) = m_async_error (coordinator w).
Proof.
  unfold clean_up_dead_notifiers.
  destruct (swap_remove (m_notifiers _)) as [[l1 r1] d1].
  destruct (swap_remove (m_new_notifiers _)) as [[l2 r2] d2].
  destruct (d1 && is_empty l1), (d2 && is_empty l2),
    (m_notifier_sg (coordinator w)), (m_advancer_sg (coordinator w)); reflexivity.
Qed.

Lemma clean_up_trace {C} (w : World C) :
  ∃ es, trace (clean_up_dead_notifiers w) = trace w ++ es
        ∧ Forall (λ e, opens_or_advances e = false) es.
Proof.
  unfold clean_up_dead_notifiers.
  destruct (swap_remove (m_notifiers _)) as [[l1 r1] d1].
  destruct (swap_remove (m_new_notifiers _)) as [[l2 r2] d2].
  assert (Hrel : ∀ r, Forall (λ e, opens_or_advances e = false) (EvReleaseData <$> r)).
  { intros r. apply Forall_fmap, Forall_true. done. }
  destruct (d1 && is_empty l1), (d2 && is_empty l2),
    (m_notifier_sg (coordinator w)), (m_advancer_sg (coordinator w)); simpl;
    rewrite <- ?app_assoc; eexists; (split; [reflexivity|]);
    repeat (apply Forall_app; split); auto; by repeat constructor.
Qed.

Section Latched.
Context {C : Type}.
Variable merge : C → C → C.
Variable table_log : N → N → list C.
Variable list_log : N → N → ListChangeInfo → C.
Variable deliver : BackgroundCollection → SharedGroup → option Exception → bool.

Lemma run_async_notifiers_latched (w : World C) :
  is_Some (m_async_error (coordinator w)) →
  run_async_notifiers merge table_log list_log w =
    let w1 := clean_up_dead_notifiers w in
    if is_empty (m_notifiers (coordinator w1))
       && is_empty (m_new_notifiers (coordinator w1))
    then Returned None w1
    else Returned None (update_coordinator drain_new_notifiers w1).
Proof.
  intros He. unfold run_async_notifiers. unfold_M. simpl.
  destruct (_ && _); [done|].
  rewrite clean_up_async_error, (bool_decide_eq_true_2 _ He). simpl.
  by rewrite clean_up_async_error, (bool_decide_eq_true_2 _ He).
Qed.

Lemma advance_to_ready_loop_async_error interleavings target sg (w : World C) sg' ns w' :
  advance_to_ready_loop deliver interleavings target sg w = Some (sg', ns, w') →
  m_async_error (coordinator w') = m_async_error (coordinator w).
Proof.
  revert target sg w.
  induction interleavings as [|found later IH]; intros target sg w; simpl.
  - destruct (_ =? _)%N; [by intros [= <- <- <-]|].
    destruct (negb _); [done|]. by intros [= <- <- <-].
  - destruct (_ =? _)%N; [by intros [= <- <- <-]|].
    destruct (negb _); [|by intros [= <- <- <-]].
    intros H. by rewrite (IH _ _ _ H).
Qed.

Lemma call_async_error (k : Call) (w w' : World C) (e : Exception) :
  m_async_error (coordinator w) = Some e →
  call merge table_log list_log deliver k w = Some w' →
  m_async_error (coordinator w') = Some e.
Proof.
  intros He. assert (Hs : is_Some (m_async_error (coordinator w))) by eauto.
  destruct k; simpl.
  - rewrite (pin_version_latched _ _ _ Hs). by intros [= <-].
  - unfold register_notifier. unfold_M.
    rewrite (pin_version_latched _ _ _ Hs). by intros [= <-].
  - intros [= <-]. by rewrite clean_up_async_error.
  - rewrite (run_async_notifiers_latched _ Hs). simpl.
    destruct (_ && _); intros [= <-]; simpl; by rewrite ?clean_up_async_error.
  - unfold on_change. unfold_M.
    rewrite (run_async_notifiers_latched _ Hs). simpl.
    destruct (_ && _); intros [= <-]; simpl; by rewrite ?clean_up_async_error.
  - unfold advance_to_ready.
    destruct (_ =? _)%N; [by intros [= <-]|].
    destruct (VersionID_ltb _ _); [by intros [= <-]|].
    destruct (advance_to_ready_loop _ _ _ _ _) as [[[sg' ns] w1]|] eqn:Hl; [|done].
    intros [= <-]. simpl. by rewrite (advance_to_ready_loop_async_error _ _ _ _ _ _ _ Hl).
  - intros [= <-]. done.
  - unfold send_commit_notifications. unfold_M.
    destruct (negb _); [|done].
    destruct (m_notifier _); by intros [= <-].
  - by intros [= <-].
Qed.

Lemma run_calls_async_error (ks : list Call) (w w' : World C) (e : Exception) :
  m_async_error (coordinator w) = Some e →
  run_calls merge table_log list_log deliver ks w = Some w' →
  m_async_error (coordinator w') = Some e.
Proof.
  revert w. induction ks as [|k ks IH]; intros w He; simpl.
  - by intros [= <-].
  - destruct (call _ _ _ _ k w) as [w1|] eqn:Hk; [|done]. simpl.
    apply IH. by eapply call_async_error.
Qed.
End Latched.

(** ** Version pinning *)

Lemma minimum_version_snoc l n :
  minimum_version (l ++ [n]) =
    Some match minimum_version l with
         | None => version (notifier_version n)
         | Some m => N.min m (version (notifier_version n))
         end.
Proof.
  induction l as [|a l IH]; simpl; [done|].
  rewrite IH. f_equal. destruct (minimum_version l); lia.
Qed.

Lemma minimum_version_nil_inv l : minimum_version l = None → l = [].
Proof. by destruct l. Qed.

(** [pin_version] followed by the [push_back] keeps the advancer
    transaction on the oldest staged version. *)
Lemma register_notifier_pins {C} (w w' : World C) (n : BackgroundCollection) :
  version (notifier_version n) ≠ uint64_max →
  pinned_at_minimum (coordinator w) →
  register_notifier n w = Returned tt w' →
  pinned_at_minimum (coordinator w').
Proof.
  intros Hn Hinv. unfold register_notifier, pin_version. unfold_M.
  assert (Hres : ∀ l, resolve l (mkVersionID (version (notifier_version n))
                                   (index (notifier_version n)))
                      = notifier_version n).
  { intros l. unfold resolve, VersionID_eqb. simpl.
    destruct (N.eqb_spec (version (notifier_version n)) uint64_max); [done|].
    by destruct (notifier_version n). }
  case_bool_decide as He.
  { intros [= <-] _ Hnone. simpl in *. destruct He as [e He]. congruence. }
  destruct (m_advancer_sg (coordinator w)) as [sg|] eqn:Hsg.
  - destruct (is_empty (m_new_notifiers (coordinator w))) eqn:Hempty.
    + intros [= <-] _ _. simpl.
      destruct (m_new_notifiers (coordinator w)); [|done]. simpl.
      eexists _, _. split_and!; [done..|]. by rewrite Hres.
    + assert (Hne : m_new_notifiers (coordinator w) ≠ []).
      { by destruct (m_new_notifiers (coordinator w)). }
      assert (Hnone : m_async_error (coordinator w) = None).
      { destruct (m_async_error (coordinator w)); [|done]. destruct He. eauto. }
      destruct (Hinv Hne Hnone) as (sg0 & v & Hsg0 & Hv & Hmin).
      rewrite Hsg in Hsg0. injection Hsg0 as <-.
      unfold get_version_of_current_transaction, VersionID_ltb. rewrite Hv. simpl.
      destruct (N.ltb_spec (version (notifier_version n)) (version v)).
      * intros [= <-] _ _. simpl.
        eexists _, _. split_and!; [done..|].
        rewrite Hres, minimum_version_snoc, <- Hmin. f_equal. lia.
      * intros [= <-] _ _. simpl.
        eexists _, _. split_and!; [done..|].
        rewrite minimum_version_snoc, <- Hmin. f_equal. lia.
  - destruct (open_with_config w) eqn:Ho.
    + intros [= <-] _ _. simpl.
      eexists _, _. split_and!; [done..|]. simpl. rewrite Hres.
      rewrite minimum_version_snoc.
      destruct (minimum_version _) eqn:Hm; [|done].
      destruct (m_new_notifiers (coordinator w)) eqn:Hl; [done|].
      assert (Hnone : m_async_error (coordinator w) = None).
      { destruct (m_async_error (coordinator w)); [|done]. destruct He. eauto. }
      destruct Hinv as (? & ? & ? & _); [by rewrite Hl|done|congruence].
    + intros [= <-] _ Hnone. simpl in *. discriminate.
    + discriminate.
Qed.

(** C1: the invariant holds after two registrations, at versions 3 and 5; it
    no longer holds once the notifier staged at version 3 has lost its
    handle and has been reaped (the advancer transaction stays at version 3,
    the only staged notifier is at version 5); the next
    [run_async_notifiers] then fails its assertion
    [version == new_notifiers.front()->version()]. *)
Theorem reaping_breaks_pinned_minimum :
  pinned_at_minimum (coordinator example_world_two_staged)
  ∧ ¬ pinned_at_minimum
        (coordinator (clean_up_dead_notifiers (kill_staged 1 example_world_two_staged)))
  ∧ run_async_notifiers app example_table_log example_list_log
      (kill_staged 1 example_world_two_staged) = Aborted.
Proof.
  split_and!.
  - intros _ _. eexists _, _. vm_compute. done.
  - intros H. destruct H as (sg & v & Hsg & Hv & Hmin); [done..|].
    vm_compute in Hsg. injection Hsg as <-.
    vm_compute in Hv. injection Hv as <-. vm_compute in Hmin. discriminate.
  - vm_compute. reflexivity.
Qed.

(** ** Delivery on the handle's thread *)



Lemma resolve_defined latest v : version v ≠ uint64_max → resolve latest v = v.
Proof.
  intros H. unfold resolve, VersionID_eqb. simpl.
  by destruct (N.eqb_spec (version v) uint64_max).
Qed.

Section Delivery_properties.
Context {C : Type}.
Variable deliver : BackgroundCollection → SharedGroup → option Exception → bool.



End Delivery_properties.


(** ** The list-change deduplication pass *)

Section Dedup.
Context {C : Type}.
Variable merge : C → C → C.

Lemma merge_builder_lookup (dst src : nat) (b : gmap nat C) (s : C) (p : nat) :
  b !! src = Some s →
  merge_builder merge dst src b !! p =
    if decide (dst = p) then (λ d, merge d s) <$> b !! p else b !! p.
Proof.
  intros Hs. unfold merge_builder. rewrite Hs.
  destruct (decide (dst = p)) as [->|Hne].
  - by rewrite lookup_alter_eq.
  - by rewrite lookup_alter_ne.
Qed.

Lemma NoDup_changes_index (ls : list ListChangeInfo) i j li lj :
  NoDup (changes <$> ls) → ls !! i = Some li → ls !! j = Some lj →
  changes li = changes lj → i = j.
Proof.
  intros Hnd Hi Hj Heq.
  eapply NoDup_lookup; [exact Hnd| |].
  - rewrite list_lookup_fmap, Hi. reflexivity.
  - rewrite list_lookup_fmap, Hj. simpl. by rewrite Heq.
Qed.

(** The inner loop: [src]'s changes are merged into every earlier
    descriptor of the same list, and nothing else is touched. *)
Lemma dedup_inner_lookup (ls : list ListChangeInfo) (i : nat) (li : ListChangeInfo)
    (bi : C) :
  NoDup (changes <$> ls) → ls !! i = Some li →
  ∀ (j : nat) (b : gmap nat C) (p : nat), j ≤ i → b !! changes li = Some bi →
    dedup_inner merge ls li j b !! p =
      if decide (Exists (λ l, changes l = p ∧ list_id li = list_id l) (take j ls))
      then (λ d, merge d bi) <$> b !! p
      else b !! p.
Proof.
  intros Hnd Hi. induction j as [|j IH]; intros b p Hj Hb; simpl.
  - done.
  - assert (Hlt : j < length ls).
    { apply lookup_lt_Some in Hi. lia. }
    destruct (lookup_lt_is_Some_2 ls j Hlt) as [lj Hlj]. rewrite Hlj.
    rewrite (take_S_r _ _ _ Hlj).
    assert (Hne : changes lj ≠ changes li).
    { intros Heq. assert (j = i) by eauto using NoDup_changes_index. lia. }
    case_bool_decide as Hid.
    + rewrite IH; [|lia|].
      2:{ rewrite (merge_builder_lookup _ _ _ bi) by done. by rewrite decide_False. }
      rewrite (merge_builder_lookup _ _ _ bi) by done.
      destruct (decide (changes lj = p)) as [Hp|Hp].
      * rewrite decide_False.
        2:{ rewrite Exists_exists. intros (l & Hin & Hpl & _).
            apply list_elem_of_lookup in Hin as [k Hk].
            assert (Hkj : k < j).
            { apply lookup_lt_Some in Hk. rewrite length_take in Hk. lia. }
            rewrite lookup_take_lt in Hk by done.
            assert (k = j) by (eapply NoDup_changes_index; eauto; congruence). lia. }
        rewrite decide_True; [done|].
        apply Exists_app. right. apply Exists_cons_hd. done.
      * destruct (decide (Exists _ (take j ls))) as [He|He].
        -- rewrite decide_True; [done|]. apply Exists_app. by left.
        -- rewrite decide_False; [done|]. rewrite Exists_app. intros [?|H]; [done|].
           apply Exists_cons in H as [[? _]|H]; [done|]. by apply Exists_nil in H.
    + rewrite IH by (done || lia).
      destruct (decide (Exists _ (take j ls))) as [He|He].
      * rewrite decide_True; [done|]. apply Exists_app. by left.
      * rewrite decide_False; [done|]. rewrite Exists_app. intros [?|H]; [done|].
        apply Exists_cons in H as [[_ ?]|H]; [done|]. by apply Exists_nil in H.
Qed.

Lemma dedup_inner_frame (ls : list ListChangeInfo) (li : ListChangeInfo) (j : nat)
    (b : gmap nat C) (p : nat) :
  p ∉ changes <$> ls → dedup_inner merge ls li j b !! p = b !! p.
Proof.
  intros Hp. revert b. induction j as [|j IH]; intros b; simpl; [done|].
  rewrite IH. destruct (ls !! j) as [lj|] eqn:Hlj; [|done].
  case_bool_decide; [|done]. unfold merge_builder.
  destruct (b !! changes li); [|done].
  rewrite lookup_alter_ne; [done|]. intros <-. apply Hp.
  apply list_elem_of_fmap. exists lj. split; [done|]. by eapply list_elem_of_lookup_2.
Qed.

Lemma dedup_lists_frame (ls : list ListChangeInfo) (b : gmap nat C) (p : nat) :
  p ∉ changes <$> ls → dedup_lists merge ls b !! p = b !! p.
Proof.
  intros Hp. unfold dedup_lists. generalize (seq 1 (length ls - 1)). intros idx.
  revert b. induction idx as [|i idx IH]; intros b; simpl; [done|].
  rewrite IH. destruct (ls !! i); [|done]. by apply dedup_inner_frame.
Qed.

Lemma dedup_pass_frame (change_info : list (TransactionChangeInfo C)) (b : gmap nat C)
    (p : nat) :
  p ∉ changes <$> mjoin (lists <$> change_info) →
  dedup_pass merge change_info b !! p = b !! p.
Proof.
  revert b. induction change_info as [|info rest IH]; intros b Hp; simpl; [done|].
  simpl in Hp. rewrite fmap_app in Hp. apply not_elem_of_app in Hp as [Hp1 Hp2].
  unfold dedup_pass in *. simpl. rewrite IH by done. by apply dedup_lists_frame.
Qed.

Lemma merged_changes_ext (b b' : gmap nat C) (x : C) (dups : list ListChangeInfo) :
  (∀ l, l ∈ dups → b' !! changes l = b !! changes l) →
  merged_changes merge b' x dups = merged_changes merge b x dups.
Proof.
  revert x. induction dups as [|d dups IH]; intros x H; simpl; [done|].
  rewrite (H d) by left. apply IH. intros l Hl. apply H. by right.
Qed.

(** The outer loop, after the iterations [i = 1 .. m]. *)
Lemma dedup_prefix_lookup (ls : list ListChangeInfo) (b : gmap nat C) :
  NoDup (changes <$> ls) →
  Forall (λ l, is_Some (b !! changes l)) ls →
  ∀ (m : nat), m ≤ length ls - 1 →
    ∀ (k : nat) lk bk, ls !! k = Some lk → b !! changes lk = Some bk →
      foldl (λ b i, match ls !! i with
                    | Some li => dedup_inner merge ls li i b
                    | None => b
                    end) b (seq 1 m) !! changes lk
      = Some (merged_changes merge b bk
                (filter (λ l, list_id l = list_id lk) (take (m - k) (drop (S k) ls)))).
Proof.
  intros Hnd Hvalid. induction m as [|m IH]; intros Hm k lk bk Hk Hbk.
  { by simpl. }
  rewrite seq_S, foldl_app. simpl.
  assert (Hlt : S m < length ls) by lia.
  destruct (lookup_lt_is_Some_2 ls (S m) Hlt) as [li Hli]. rewrite Hli.
  assert (Hbi : is_Some (b !! changes li)).
  { rewrite Forall_forall in Hvalid. apply Hvalid. by eapply list_elem_of_lookup_2. }
  destruct Hbi as [bi Hbi].
  pose proof (IH ltac:(lia) (S m) li bi Hli Hbi) as Hsrc.
  replace (m - S m) with 0 in Hsrc by lia. rewrite take_0 in Hsrc. simpl in Hsrc.
  rewrite (dedup_inner_lookup ls (S m) li bi Hnd Hli (S m) _ _ (le_n _) Hsrc).
  rewrite (IH ltac:(lia) k lk bk Hk Hbk).
  destruct (decide (k < S m ∧ list_id li = list_id lk)) as [[Hkm Hid]|Hno].
  - rewrite decide_True.
    2:{ apply Exists_exists. exists lk. split; [|done].
        apply list_elem_of_lookup. exists k. by rewrite lookup_take_lt. }
    simpl. f_equal.
    replace (S m - k) with (S (m - k)) by lia.
    erewrite take_S_r.
    2:{ rewrite lookup_drop. replace (S k + (m - k)) with (S m) by lia. exact Hli. }
    rewrite filter_app. unfold merged_changes at 2. rewrite foldl_app.
    rewrite filter_cons_True by done. rewrite filter_nil. simpl. by rewrite Hbi.
  - rewrite decide_False.
    2:{ rewrite Exists_exists. intros (l & Hin & Hp & Hid).
        apply list_elem_of_lookup in Hin as [k' Hk'].
        assert (Hk'm : k' < S m).
        { apply lookup_lt_Some in Hk'. rewrite length_take in Hk'. lia. }
        rewrite lookup_take_lt in Hk' by done.
        assert (k' = k) by eauto using NoDup_changes_index. subst k'.
        apply Hno. split; [done|]. congruence. }
    f_equal. destruct (decide (k < S m)) as [Hkm|Hkm].
    + replace (S m - k) with (S (m - k)) by lia.
      erewrite take_S_r.
      2:{ rewrite lookup_drop. replace (S k + (m - k)) with (S m) by lia. exact Hli. }
      rewrite filter_app, filter_cons_False, filter_nil, app_nil_r; [done|].
      intros Hid. apply Hno. split; [done|]. congruence.
    + by replace (S m - k) with (m - k) by lia.
Qed.

Lemma dedup_lists_lookup (ls : list ListChangeInfo) (b : gmap nat C) (k : nat) lk bk :
  NoDup (changes <$> ls) →
  Forall (λ l, is_Some (b !! changes l)) ls →
  ls !! k = Some lk → b !! changes lk = Some bk →
  dedup_lists merge ls b !! changes lk
  = Some (merged_changes merge b bk (duplicates_after ls k lk)).
Proof.
  intros Hnd Hvalid Hk Hbk. unfold dedup_lists, duplicates_after.
  rewrite (dedup_prefix_lookup ls b Hnd Hvalid _ (le_n _) k lk bk Hk Hbk).
  rewrite take_ge; [done|]. rewrite length_drop. lia.
Qed.

(** C9: in the deduplication pass over a [change_info] vector whose list
    descriptors point to distinct, existing change builders, the builder of
    every descriptor ends up holding its own changes followed by the changes
    of each later descriptor of the same entry with the same
    (table, column, row) identity, merged in order; a descriptor that is the
    earliest of its identity therefore carries the changes of all its
    duplicates in that entry. *)
Theorem dedup_pass_merges_duplicates (change_info : list (TransactionChangeInfo C))
    (b : gmap nat C) (e : nat) (info : TransactionChangeInfo C) (k : nat)
    (lk : ListChangeInfo) (bk : C) :
  NoDup (changes <$> mjoin (lists <$> change_info)) →
  Forall (λ l, is_Some (b !! changes l)) (mjoin (lists <$> change_info)) →
  change_info !! e = Some info →
  lists info !! k = Some lk →
  b !! changes lk = Some bk →
  dedup_pass merge change_info b !! changes lk
  = Some (merged_changes merge b bk (duplicates_after (lists info) k lk))
  ∧ ((∀ (j : nat) lj, j < k → lists info !! j = Some lj → list_id lj ≠ list_id lk) →
     filter (λ l, list_id l = list_id lk) (lists info)
     = lk :: duplicates_after (lists info) k lk).
Proof.
  intros Hnd Hvalid He Hk Hbk. split.
  - revert b e Hnd Hvalid He Hbk.
    induction change_info as [|info0 rest IH]; intros b e Hnd Hvalid He Hbk; [done|].
    simpl in Hnd, Hvalid. rewrite fmap_app in Hnd.
    apply NoDup_app in Hnd as (Hnd0 & Hdisj & Hndr).
    apply Forall_app in Hvalid as [Hv0 Hvr].
    change (dedup_pass merge (info0 :: rest) b)
      with (dedup_pass merge rest (dedup_lists merge (lists info0) b)).
    destruct e as [|e]; simpl in He.
    + injection He as ->.
      rewrite dedup_pass_frame.
      * by apply dedup_lists_lookup.
      * apply Hdisj. apply list_elem_of_fmap. exists lk. split; [done|].
        by eapply list_elem_of_lookup_2.
    + assert (Hin : ∀ l, l ∈ mjoin (lists <$> rest) → changes l ∉ changes <$> lists info0).
      { intros l Hl Hl0. apply (Hdisj _ Hl0). by apply list_elem_of_fmap_2. }
      assert (Hinfo : ∀ l, l ∈ lists info → l ∈ mjoin (lists <$> rest)).
      { intros l Hl. apply list_elem_of_join. exists (lists info). split; [done|].
        apply list_elem_of_fmap_2. by eapply list_elem_of_lookup_2. }
      assert (Hlk : lk ∈ lists info) by (by eapply list_elem_of_lookup_2).
      rewrite (IH (dedup_lists merge (lists info0) b) e); try done.
      * f_equal. apply merged_changes_ext. intros l Hl.
        apply dedup_lists_frame, Hin, Hinfo.
        unfold duplicates_after in Hl. apply list_elem_of_filter in Hl as [_ Hl].
        by eapply subseteq_drop.
      * apply Forall_forall. intros l Hl. rewrite dedup_lists_frame by auto.
        rewrite Forall_forall in Hvr. auto.
      * rewrite dedup_lists_frame by auto. done.
  - intros Hearliest. unfold duplicates_after.
    rewrite <- (take_drop k (lists info)) at 1. rewrite filter_app.
    rewrite (drop_S _ _ _ Hk), filter_cons_True by done.
    replace (filter _ (take k (lists info))) with (@nil ListChangeInfo); [done|].
    symmetry. apply elem_of_nil_inv. intros l Hl.
    apply list_elem_of_filter in Hl as [Hid Hl].
    apply list_elem_of_lookup in Hl as [j Hj].
    assert (Hjk : j < k).
    { apply lookup_lt_Some in Hj. rewrite length_take in Hj. lia. }
    rewrite lookup_take_lt in Hj by done. by eapply Hearliest.
Qed.
End Dedup.

Lemma dedup_pass_merges_duplicates_witness :
  dedup_pass app example_change_info example_builders !! 1 = Some [1%N; 2%N; 4%N]
  ∧ filter (λ l, list_id l = (0%N, 0%N, 0%N)) example_lists
    = [mkListChangeInfo 0 0 0 1; mkListChangeInfo 0 0 0 2; mkListChangeInfo 0 0 0 4].
Proof.
  destruct (dedup_pass_merges_duplicates app example_change_info example_builders 0
              (mkTransactionChangeInfo [] example_lists) 0
              (mkListChangeInfo 0 0 0 1) [1%N]) as [H1 H2].
  - apply (bool_decide_unpack _). vm_compute. exact I.
  - apply (bool_decide_unpack _). vm_compute. exact I.
  - reflexivity.
  - reflexivity.
  - reflexivity.
  - split.
    + etrans; [exact H1|]. vm_compute. reflexivity.
    + apply H2. intros j lj Hj. lia.
Defined.

(** ** Sorting the staged notifiers *)

Lemma insert_by_version_perm n l : insert_by_version n l ≡ₚ n :: l.
Proof.
  induction l as [|m l IH]; simpl; [done|].
  destruct (VersionID_ltb _ _); [done|]. rewrite IH. apply Permutation_swap.
Qed.

Lemma sort_by_version_perm l : sort_by_version l ≡ₚ l.
Proof.
  unfold sort_by_version.
  assert (H : ∀ acc, foldl (λ sorted n, insert_by_version n sorted) acc l ≡ₚ acc ++ l).
  { induction l as [|n l IH]; intros acc; simpl; [by rewrite app_nil_r|].
    rewrite IH, insert_by_version_perm. simpl. apply Permutation_middle. }
  apply (H []).
Qed.

Lemma ascending_insert v n l :
  ascending_from v l → (v ≤ origin n)%N → ascending_from v (insert_by_version n l).
Proof.
  revert v. induction l as [|m l IH]; intros v Hl Hv; simpl in *; [done|].
  destruct Hl as [Hvm Hl]. unfold VersionID_ltb. fold (origin n). fold (origin m).
  destruct (N.ltb_spec (origin n) (origin m)); simpl.
  - split_and!; [done|lia|done].
  - split; [done|]. by apply IH.
Qed.

Lemma sort_by_version_ascending l : ascending_from 0 (sort_by_version l).
Proof.
  unfold sort_by_version.
  assert (H : ∀ acc, ascending_from 0 acc →
                ascending_from 0 (foldl (λ sorted n, insert_by_version n sorted) acc l)).
  { induction l as [|n l IH]; intros acc Hacc; simpl; [done|].
    apply IH, ascending_insert; [done|lia]. }
  by apply H.
Qed.

Lemma ascending_from_le v l x : ascending_from v l → x ∈ l → (v ≤ origin x)%N.
Proof.
  revert v. induction l as [|n l IH]; intros v Hl Hx; [by apply elem_of_nil in Hx|].
  destruct Hl as [Hv Hl]. apply elem_of_cons in Hx as [->|Hx]; [done|].
  etrans; [exact Hv|]. by apply IH.
Qed.

Lemma minimum_version_le l m x :
  minimum_version l = Some m → x ∈ l → (m ≤ origin x)%N.
Proof.
  revert m. induction l as [|n l IH]; intros m Hm Hx; [by apply elem_of_nil in Hx|].
  simpl in Hm. injection Hm as <-. unfold origin in *.
  apply elem_of_cons in Hx as [->|Hx].
  - destruct (minimum_version l); lia.
  - destruct (minimum_version l) as [m'|] eqn:Hm'.
    + specialize (IH m' eq_refl Hx). lia.
    + apply minimum_version_nil_inv in Hm'. subst. by apply elem_of_nil in Hx.
Qed.

Lemma minimum_version_elem l m :
  minimum_version l = Some m → ∃ x, x ∈ l ∧ origin x = m.
Proof.
  revert m. induction l as [|n l IH]; intros m Hm; [done|].
  simpl in Hm. injection Hm as <-.
  destruct (minimum_version l) as [m'|] eqn:Hm'.
  - destruct (N.min_spec (version (notifier_version n)) m') as [[_ ->]|[_ ->]].
    + exists n. split; [left|done].
    + destruct (IH m' eq_refl) as (x & Hx & Ho). exists x. split; [by right|done].
  - exists n. split; [left|done].
Qed.

(** The front of the sorted list is at the oldest staged version. *)
Lemma sort_by_version_front l m :
  minimum_version l = Some m →
  ∃ front rest, sort_by_version l = front :: rest ∧ origin front = m
                ∧ ascending_from (origin front) rest.
Proof.
  intros Hm. pose proof (sort_by_version_perm l) as Hperm.
  pose proof (sort_by_version_ascending l) as Hasc.
  destruct (sort_by_version l) as [|front rest] eqn:Hs.
  { apply Permutation_nil_l in Hperm. subst. done. }
  exists front, rest. destruct Hasc as [_ Hasc]. split_and!; [done| |done].
  apply N.le_antisymm.
  - destruct (minimum_version_elem _ _ Hm) as (x & Hx & <-).
    rewrite <- Hperm in Hx. apply elem_of_cons in Hx as [->|Hx]; [done|].
    by eapply ascending_from_le.
  - eapply minimum_version_le; [done|]. rewrite <- Hperm. left.
Qed.

(** ** Counting slots *)

Lemma distinct_origins_perm l k : l ≡ₚ k → distinct_origins l = distinct_origins k.
Proof.
  intros Hperm. unfold distinct_origins. apply Permutation_length.
  apply NoDup_Permutation; [apply NoDup_remove_dups..|].
  intros x. rewrite !elem_of_remove_dups. by rewrite Hperm.
Qed.

Lemma remove_dups_cons_eq {A} `{EqDecision A} (x : A) (l : list A) :
  remove_dups (x :: l) = if decide (x ∈ l) then remove_dups l else x :: remove_dups l.
Proof. reflexivity. Qed.

Lemma distinct_origins_ascending n rest :
  ascending_from (origin n) rest →
  distinct_origins (n :: rest) = 1 + length (slot_versions (origin n) rest).
Proof.
  unfold distinct_origins. rewrite fmap_cons. generalize (origin n). clear n.
  induction rest as [|n rest IH]; intros v Hasc; [done|].
  destruct Hasc as [Hv Hasc]. cbn [slot_versions]. rewrite fmap_cons.
  rewrite (remove_dups_cons_eq v).
  destruct (N.eqb_spec v (origin n)) as [->|Hne].
  - rewrite decide_True by left. by apply IH.
  - rewrite decide_False.
    2:{ rewrite elem_of_cons. intros [?|Hin]; [done|].
        apply list_elem_of_fmap in Hin as (x & -> & Hx).
        pose proof (ascending_from_le _ _ _ Hasc Hx). lia. }
    cbn [length]. rewrite (IH _ Hasc). done.
Qed.

(** ** The fan-in loop *)


Lemma back_snoc {A} (l : list A) (x : A) : back (l ++ [x]) = Some x.
Proof.
  unfold back. rewrite length_app. simpl.
  replace (length l + 1 - 1) with (length l + 0) by lia.
  by rewrite lookup_app_r, Nat.add_0_r, Nat.sub_diag by lia.
Qed.

Lemma update_back_snoc {A} (f : A → A) (l : list A) (x : A) :
  update_back f (l ++ [x]) = l ++ [f x].
Proof.
  unfold update_back. rewrite length_app. simpl.
  replace (length l + 1 - 1) with (length l + 0) by lia.
  by rewrite alter_app_r.
Qed.

Section Fan_in.
Context {C : Type}.
Variable merge : C → C → C.
Variable table_log : N → N → list C.
Variable list_log : N → N → ListChangeInfo → C.

Lemma accumulate_nil_r (sink : list C) : accumulate merge sink [] = sink.
Proof. by destruct sink. Qed.

Lemma merge_loop_accumulate (prev cur : list C) :
  imap (λ j p, match cur !! j with Some c => merge p c | None => p end) prev
  ++ drop (length prev) cur
  = accumulate merge prev cur.
Proof.
  revert cur. induction prev as [|p prev IH]; intros cur; [done|].
  destruct cur as [|c cur].
  - simpl. rewrite app_nil_r. f_equal.
    specialize (IH []). rewrite drop_nil, accumulate_nil_r, app_nil_r in IH.
    rewrite <- IH at 2. by apply imap_ext.
  - simpl. f_equal. apply (IH cur).
Qed.

Lemma merge_tables_accumulate (prev cur : list C) :
  merge_tables merge prev cur = accumulate merge prev cur.
Proof.
  unfold merge_tables. destruct cur as [|c cur]; [by rewrite accumulate_nil_r|].
  destruct prev as [|p prev]; [done|]. apply merge_loop_accumulate.
Qed.

Lemma length_closed_tables v ns :
  length (closed_tables table_log v ns) = length (slot_versions v ns).
Proof.
  revert v. induction ns as [|n ns IH]; intros v; simpl; [done|].
  destruct (v =? origin n)%N; simpl; by rewrite IH.
Qed.

Lemma fan_in_step_same latest pre cur v sg b tr n :
  VersionID_eqb v (notifier_version n) = true →
  fan_in_step merge table_log list_log latest (mkFanIn (pre ++ [cur]) v sg b tr) n
  = mkFanIn (pre ++ [add_required_change_info n cur]) v sg b
      (tr ++ [EvAttachTo (notifier_id n) AdvancerSG;
              EvAddRequiredChangeInfo (notifier_id n)
                (mkInfoRef (S (length pre)) (length pre))]).
Proof.
  intros Heq. unfold fan_in_step. simpl. rewrite Heq. simpl.
  rewrite update_back_snoc, length_app. simpl.
  replace (length pre + 1 - 1) with (length pre) by lia.
  by replace (length pre + 1) with (S (length pre)) by lia.
Qed.

Lemma fan_in_step_new latest pre cur v sg b tr n :
  VersionID_eqb v (notifier_version n) = false →
  fan_in_step merge table_log list_log latest (mkFanIn (pre ++ [cur]) v sg b tr) n
  = mkFanIn
      ((pre ++ [mkTransactionChangeInfo
                  (accumulate merge (tables cur)
                     (table_log (version (get_version_of_current_transaction sg))
                        (version (resolve latest (notifier_version n))))) []])
         ++ [add_required_change_info n (mkTransactionChangeInfo [] (lists cur))])
      (notifier_version n)
      (mkSharedGroup (Some (resolve latest (notifier_version n))))
      (report_lists merge list_log (version (get_version_of_current_transaction sg))
         (version (resolve latest (notifier_version n))) (lists cur) b)
      ((tr ++ [EvAdvance AdvancerSG (notifier_version n)])
         ++ [EvAttachTo (notifier_id n) AdvancerSG;
             EvAddRequiredChangeInfo (notifier_id n)
               (mkInfoRef (S (length pre + 1)) (length pre + 1))]).
Proof.
  intros Hne. unfold fan_in_step. simpl. rewrite Hne. simpl.
  rewrite back_snoc. simpl. rewrite !update_back_snoc. simpl.
  rewrite !length_app. simpl.
  replace (length pre + 1 + 1 - 1) with (length pre + 1) by lia.
  by replace (length pre + 1 + 1) with (S (length pre + 1)) by lia.
Qed.

(** The loop of lines 352-361, started on [pre ++ [cur]] with an empty
    current slot: it closes one slot per version met, leaves an empty
    current slot, and every notifier is given a reference to the slot that
    is current, and last in the vector, when it is reached. *)
Lemma fan_in_loop latest ns :
  ∀ pre cur v sg b tr,
    tables cur = [] →
    Forall (λ n, origin n ≠ uint64_max) ns →
    version (get_version_of_current_transaction sg) = version v →
    let st := foldl (fan_in_step merge table_log list_log latest)
                (mkFanIn (pre ++ [cur]) v sg b tr) ns in
    (∃ closed cur', fi_change_info st = pre ++ closed ++ [cur']
                    ∧ tables cur' = []
                    ∧ tables <$> closed = closed_tables table_log (version v) ns)
    ∧ version (get_version_of_current_transaction (fi_sg st))
      = last_version (version v) ns
    ∧ (∀ (p : nat) n, ns !! p = Some n →
         let i := length pre + length (slot_versions (version v) (take (S p) ns)) in
         EvAddRequiredChangeInfo (notifier_id n) (mkInfoRef (S i) i) ∈ fi_trace st)
    ∧ (∀ e, e ∈ tr → e ∈ fi_trace st).
Proof.
  induction ns as [|n ns IH]; intros pre cur v sg b tr Hcur Hdef Hsg.
  { simpl. split_and!; [|done|done|done]. exists [], cur. by rewrite app_nil_l. }
  apply Forall_cons in Hdef as [Hn Hdef].
  assert (Heq' : (version v =? origin n)%N = VersionID_eqb v (notifier_version n))
    by reflexivity.
  cbn [foldl closed_tables last_version]. rewrite Heq'.
  destruct (VersionID_eqb v (notifier_version n)) eqn:Heq.
  - rewrite fan_in_step_same by done.
    destruct (IH pre (add_required_change_info n cur) v sg b
                (tr ++ [EvAttachTo (notifier_id n) AdvancerSG;
                        EvAddRequiredChangeInfo (notifier_id n)
                          (mkInfoRef (S (length pre)) (length pre))])
                Hcur Hdef Hsg) as (H1 & H2 & H3 & H4).
    split_and!; [done|done| |].
    + intros [|p] m Hm.
      * injection Hm as <-. cbn [take slot_versions]. rewrite Heq'. simpl.
        rewrite Nat.add_0_r. apply H4. elem_solver.
      * simpl in Hm. specialize (H3 p m Hm).
        cbn [take slot_versions]. by rewrite Heq'.
    + intros e He. apply H4. elem_solver.
  - rewrite fan_in_step_new by done.
    rewrite Hcur, Hsg. cbn [accumulate].
    rewrite resolve_defined by done.
    match goal with
    | |- context [foldl _ (mkFanIn ((pre ++ [?c]) ++ [?cur']) ?v' ?sg' ?b' ?tr') ns] =>
        destruct (IH (pre ++ [c]) cur' v' sg' b' tr' eq_refl Hdef eq_refl)
          as ((closed & cur'' & Hci & Hcur'' & Hclosed) & H2 & H3 & H4);
        set (c0 := c) in *
    end.
    split_and!.
    + exists (c0 :: closed), cur''. split_and!; [|done|].
      * rewrite Hci. by rewrite <- app_assoc.
      * simpl. f_equal. exact Hclosed.
    + exact H2.
    + intros [|p] m Hm.
      * injection Hm as <-. cbn [take slot_versions]. rewrite Heq'. simpl.
        apply H4. elem_solver.
      * simpl in Hm. specialize (H3 p m Hm).
        cbn [take slot_versions]. rewrite Heq'. simpl.
        rewrite length_app in H3. simpl in H3.
        by replace (length pre + S (length (slot_versions (origin n) (take (S p) ns))))
          with (length pre + 1 + length (slot_versions (origin n) (take (S p) ns)))
          by lia.
    + intros e He. apply H4. elem_solver.
Qed.
End Fan_in.

(** ** The backwards merge pass *)

Section Merge_pass.
Context {C : Type}.
Variable merge : C → C → C.

Lemma merge_step_cons (a : TransactionChangeInfo C) l (i : nat) :
  1 ≤ i → merge_step merge (a :: l) (S i) = a :: merge_step merge l i.
Proof.
  intros Hi. unfold merge_step. destruct i as [|i]; [lia|]. simpl.
  rewrite Nat.sub_0_r.
  destruct (l !! S i); [|done]. destruct (l !! i); done.
Qed.

Lemma foldl_merge_step_cons (a : TransactionChangeInfo C) l (idx : list nat) :
  Forall (λ i, 1 ≤ i) idx →
  foldl (merge_step merge) (a :: l) (S <$> idx) = a :: foldl (merge_step merge) l idx.
Proof.
  revert l. induction idx as [|i idx IH]; intros l Hidx; [done|].
  apply Forall_cons in Hidx as [Hi Hidx]. simpl.
  rewrite merge_step_cons by done. by apply IH.
Qed.

Lemma merge_from_cons (a : TransactionChangeInfo C) l (lo : nat) :
  1 ≤ lo → merge_from merge (S lo) (a :: l) = a :: merge_from merge lo l.
Proof.
  intros Hlo. unfold merge_from. simpl length.
  replace (S (length l) - S lo) with (length l - lo) by lia.
  rewrite <- fmap_S_seq, <- fmap_reverse. apply foldl_merge_step_cons.
  apply Forall_forall. intros i Hi. apply elem_of_reverse, elem_of_seq in Hi. lia.
Qed.

Lemma length_merge_step (l : list (TransactionChangeInfo C)) (i : nat) :
  length (merge_step merge l i) = length l.
Proof.
  unfold merge_step. destruct (l !! i); [|done]. destruct (l !! (i - 1)); [|done].
  by rewrite length_insert.
Qed.

Lemma length_merge_from (lo : nat) (l : list (TransactionChangeInfo C)) :
  length (merge_from merge lo l) = length l.
Proof.
  unfold merge_from. generalize (reverse (seq lo (length l - lo))). intros idx.
  revert l. induction idx as [|i idx IH]; intros l; simpl; [done|].
  by rewrite IH, length_merge_step.
Qed.

Lemma merge_from_1_cons (x : TransactionChangeInfo C) r :
  merge_from merge 1 (x :: r) =
    match merge_from merge 1 r with
    | [] => [x]
    | y :: r' => set_tables (merge_tables merge (tables x) (tables y)) x :: y :: r'
    end.
Proof.
  destruct r as [|y0 r0]; [done|].
  unfold merge_from at 1. cbn [length]. rewrite Nat.sub_succ, Nat.sub_0_r.
  cbn [seq]. rewrite reverse_cons, foldl_app.
  replace (length r0) with (length (x :: y0 :: r0) - 2) at 1 by (simpl; lia).
  fold (merge_from merge 2 (x :: y0 :: r0)). rewrite merge_from_cons by done.
  pose proof (length_merge_from 1 (y0 :: r0)) as Hlen.
  destruct (merge_from merge 1 (y0 :: r0)) as [|y r']; [done|]. reflexivity.
Qed.

Lemma merge_from_1_tables (slots : list (TransactionChangeInfo C)) :
  tables <$> merge_from merge 1 slots
  = merge_suffixes (merge_tables merge) (tables <$> slots).
Proof.
  induction slots as [|x r IH]; [done|].
  rewrite merge_from_1_cons. cbn [fmap list_fmap merge_suffixes].
  change (list_fmap _ _ tables r) with (tables <$> r). rewrite <- IH.
  destruct (merge_from merge 1 r); done.
Qed.

Lemma merge_from_1_lists (slots : list (TransactionChangeInfo C)) :
  lists <$> merge_from merge 1 slots = lists <$> slots.
Proof.
  induction slots as [|x r IH]; [done|].
  rewrite merge_from_1_cons. cbn [fmap list_fmap].
  change (list_fmap _ _ lists r) with (lists <$> r). rewrite <- IH.
  destruct (merge_from merge 1 r); done.
Qed.

(** The pass leaves [change_info[0]] alone; each later entry ends up with
    its own table changes followed by those of all entries after it. *)
Lemma merge_pass_tables (info0 : TransactionChangeInfo C) slots :
  tables <$> merge_pass merge (info0 :: slots)
  = tables info0 :: merge_suffixes (merge_tables merge) (tables <$> slots).
Proof.
  change (merge_pass merge (info0 :: slots)) with (merge_from merge 2 (info0 :: slots)).
  rewrite merge_from_cons by done. simpl. f_equal. apply merge_from_1_tables.
Qed.

Lemma merge_pass_head (info0 : TransactionChangeInfo C) slots :
  merge_pass merge (info0 :: slots) !! 0 = Some info0.
Proof.
  change (merge_pass merge (info0 :: slots)) with (merge_from merge 2 (info0 :: slots)).
  by rewrite merge_from_cons.
Qed.
End Merge_pass.

(** ** One error-free cycle of [run_async_notifiers] *)

Lemma resolve_latest latest : resolve latest latest = latest.
Proof. unfold resolve. by destruct (VersionID_eqb _ _). Qed.

Lemma resolve_default latest : resolve latest VersionID_default = latest.
Proof. reflexivity. Qed.

Lemma slot_versions_index (v : N) ns (p : nat) n :
  ns !! p = Some n →
  (v :: slot_versions v ns) !! length (slot_versions v (take (S p) ns)) = Some (origin n).
Proof.
  revert v p. induction ns as [|n0 ns IH]; intros v p Hp; [done|].
  cbn [take slot_versions].
  destruct p as [|p]; simpl in Hp.
  - injection Hp as ->. rewrite take_0. cbn [slot_versions].
    destruct (N.eqb_spec v (origin n)) as [->|Hne]; done.
  - destruct (N.eqb_spec v (origin n0)) as [->|Hne].
    + by apply IH.
    + cbn [length]. rewrite lookup_cons_ne_0 by done. by apply IH.
Qed.

Lemma ascending_last_version v ns :
  ascending_from v ns → (v ≤ last_version v ns)%N.
Proof.
  revert v. induction ns as [|n ns IH]; intros v Hasc; simpl; [done|].
  destruct Hasc as [Hv Hasc].
  destruct (N.eqb_spec v (origin n)) as [->|Hne]; [by apply IH|].
  etrans; [exact Hv|]. by apply IH.
Qed.

Lemma last_version_elem v ns :
  last_version v ns = v ∨ ∃ n, n ∈ ns ∧ last_version v ns = origin n.
Proof.
  revert v. induction ns as [|n ns IH]; intros v; simpl; [by left|].
  destruct (N.eqb_spec v (origin n)) as [->|Hne].
  - destruct (IH (origin n)) as [->|(m & Hm & ->)].
    + right. exists n. split; [left|done].
    + right. exists m. split; [by right|done].
  - destruct (IH (origin n)) as [->|(m & Hm & ->)].
    + right. exists n. split; [left|done].
    + right. exists m. split; [by right|done].
Qed.

Section Cycle.
Context {C : Type}.
Variable merge : C → C → C.
Variable table_log : N → N → list C.
Variable list_log : N → N → ListChangeInfo → C.

Lemma tables_add_required (info : TransactionChangeInfo C) ns :
  tables (foldl (λ info n, add_required_change_info n info) info ns) = tables info.
Proof. revert info. induction ns as [|n ns IH]; intros info; simpl; [done|]. by rewrite IH. Qed.

(** Lines 329-370 when the advancer transaction is on the oldest staged
    version. *)
Lemma advance_new_notifiers_pinned (w : World C) staged sg v0 :
  staged ≠ [] →
  m_advancer_sg (coordinator w) = Some sg →
  current_transaction sg = Some v0 →
  Some (version v0) = minimum_version staged →
  Forall (λ n, origin n ≠ uint64_max) staged →
  ∃ slots b' tr',
    advance_new_notifiers merge table_log list_log staged w
    = Returned (empty_info :: slots, latest w, sort_by_version staged)
        (mkWorld (set_m_advancer_sg (Some (mkSharedGroup None)) (coordinator w))
           b' (latest w) (open_with_config w) tr')
    ∧ tables <$> slots
      = closed_tables table_log (version v0) (sort_by_version staged)
        ++ [table_log (last_version (version v0) (sort_by_version staged))
              (version (latest w))]
    ∧ (∀ (p : nat) n, sort_by_version staged !! p = Some n →
         let i := 1 + length (slot_versions (version v0)
                                (take (S p) (sort_by_version staged))) in
         EvAddRequiredChangeInfo (notifier_id n) (mkInfoRef (S i) i) ∈ tr')
    ∧ (∀ e, e ∈ trace w → e ∈ tr').
Proof.
  intros Hne Hsg Hv0 Hmin Hdef.
  destruct (sort_by_version_front staged (version v0) (eq_sym Hmin))
    as (front & rest & Hsort & Hfront & Hasc).
  assert (Hdef' : Forall (λ n, origin n ≠ uint64_max) (sort_by_version staged)).
  { by rewrite sort_by_version_perm. }
  unfold advance_new_notifiers.
  destruct staged as [|s0 staged0]; [done|]. cbn [is_empty].
  rewrite Hsg. set (sorted := sort_by_version (s0 :: staged0)) in *.
  rewrite Hsort. cbn [head].
  assert (Hgv : get_version_of_current_transaction sg = v0).
  { unfold get_version_of_current_transaction. by rewrite Hv0. }
  rewrite !Hgv.
  assert (Heq : VersionID_eqb v0 (notifier_version front) = true).
  { unfold VersionID_eqb. fold (origin front). rewrite Hfront. apply N.eqb_refl. }
  rewrite Heq. cbn [negb].
  rewrite <- Hsort.
  pose proof (fan_in_loop merge table_log list_log (latest w) sorted
                [empty_info] empty_info v0 sg (builders w) (trace w) eq_refl Hdef')
    as Hloop.
  cbn [app] in Hloop.
  destruct Hloop as ((closed & cur' & Hci & Hcur' & Hclosed) & Hlast & Hreq & Htr).
  { by rewrite Hgv. }
  set (st := foldl _ _ sorted) in *.
  rewrite Hci. rewrite app_comm_cons, back_snoc.
  unfold advance. cbv beta iota zeta. rewrite update_back_snoc.
  rewrite Hcur', Hlast. cbn [accumulate].
  rewrite resolve_default. cbn [end_read].
  eexists (closed ++ [_]), _, _. split_and!.
  - reflexivity.
  - rewrite fmap_app, Hclosed. reflexivity.
  - intros p n Hp. specialize (Hreq p n Hp). simpl in Hreq. elem_solver.
  - intros e He. specialize (Htr e He). elem_solver.
Qed.

Lemma open_helper_shared_group_ok (w : World C) :
  is_Some (m_notifier_sg (coordinator w)) ∨ open_with_config w = OpenOk →
  ∃ sgn es,
    open_helper_shared_group w
    = Returned tt (emit es (update_coordinator (set_m_notifier_sg (Some sgn)) w))
    ∧ get_version_of_current_transaction sgn = notifier_sg_origin w.
Proof.
  intros Hopen. unfold open_helper_shared_group, notifier_sg_origin.
  destruct (m_notifier_sg (coordinator w)) as [sg0|] eqn:Hsg.
  - destruct (is_empty (m_notifiers (coordinator w))).
    + eexists _, _. split; [reflexivity|]. done.
    + exists sg0, []. split; [|done].
      destruct w as [[] ? ? ? ?]. simpl in *. subst.
      unfold emit, update_coordinator, set_coordinator. simpl. by rewrite app_nil_r.
  - destruct Hopen as [[? ?]|Hok]; [done|]. rewrite Hok.
    eexists _, _. split; [reflexivity|]. done.
Qed.

Lemma clean_up_no_staged (w : World C) :
  m_new_notifiers (coordinator w) = [] →
  m_advancer_sg (coordinator (clean_up_dead_notifiers w)) = m_advancer_sg (coordinator w)
  ∧ m_new_notifiers (coordinator (clean_up_dead_notifiers w)) = [].
Proof.
  intros Hnil. unfold clean_up_dead_notifiers. rewrite Hnil.
  destruct (swap_remove (m_notifiers _)) as [[l1 r1] d1]. simpl.
  destruct (d1 && is_empty l1), (m_notifier_sg (coordinator w)); done.
Qed.

Lemma clean_up_latest (w : World C) :
  latest (clean_up_dead_notifiers w) = latest w
  ∧ open_with_config (clean_up_dead_notifiers w) = open_with_config w.
Proof.
  unfold clean_up_dead_notifiers.
  destruct (swap_remove (m_notifiers _)) as [[l1 r1] d1].
  destruct (swap_remove (m_new_notifiers _)) as [[l2 r2] d2].
  destruct (d1 && is_empty l1), (d2 && is_empty l2),
    (m_notifier_sg (coordinator w)), (m_advancer_sg (coordinator w)); done.
Qed.

(** An error-free cycle with staged notifiers, the advancer transaction
    being on the oldest staged version. *)
Lemma run_async_notifiers_staged (w : World C) sg v0 :
  let w1 := clean_up_dead_notifiers w in
  let staged := m_new_notifiers (coordinator w1) in
  m_async_error (coordinator w) = None →
  is_Some (m_notifier_sg (coordinator w1)) ∨ open_with_config w = OpenOk →
  staged ≠ [] →
  m_advancer_sg (coordinator w1) = Some sg →
  current_transaction sg = Some v0 →
  Some (version v0) = minimum_version staged →
  Forall (λ n, origin n ≠ uint64_max) staged →
  ∃ info0 slots wf,
    run_async_notifiers merge table_log list_log w
    = Returned (Some (merge_pass merge (info0 :: slots))) wf
    ∧ tables info0 = table_log (version (notifier_sg_origin w1)) (version (latest w))
    ∧ tables <$> slots
      = closed_tables table_log (version v0) (sort_by_version staged)
        ++ [table_log (last_version (version v0) (sort_by_version staged))
              (version (latest w))]
    ∧ (∀ (p : nat) n, sort_by_version staged !! p = Some n →
         let i := 1 + length (slot_versions (version v0)
                                (take (S p) (sort_by_version staged))) in
         EvAddRequiredChangeInfo (notifier_id n) (mkInfoRef (S i) i) ∈ trace wf)
    ∧ m_advancer_sg (coordinator wf) = Some (mkSharedGroup None)
    ∧ m_new_notifiers (coordinator wf) = [].
Proof.
  intros w1 staged Herr Hopen Hne Hsg Hv0 Hmin Hdef.
  assert (Herr1 : m_async_error (coordinator w1) = None).
  { unfold w1. by rewrite clean_up_async_error. }
  destruct (clean_up_latest w) as [Hlatest Hoc]. fold w1 in Hlatest, Hoc.
  rewrite <- Hoc in Hopen.
  destruct (open_helper_shared_group_ok w1 Hopen) as (sgn & es & Hhelper & Hsgn).
  set (w2 := emit es (update_coordinator (set_m_notifier_sg (Some sgn)) w1)) in *.
  destruct (advance_new_notifiers_pinned
              (update_coordinator (set_m_new_notifiers []) w2) staged sg v0
              Hne Hsg Hv0 Hmin Hdef)
    as (slots & b3 & tr3 & Hnew & Hslots & Hreq & Htr3).
  change (latest (update_coordinator (set_m_new_notifiers []) w2))
    with (latest w1) in Hnew, Hslots.
  rewrite Hlatest in Hnew, Hslots.
  unfold run_async_notifiers. unfold_M. fold w1. 
  replace (is_empty (m_new_notifiers (coordinator w1))) with false
    by (fold staged; by destruct staged).
  rewrite andb_false_r. rewrite Herr1.
  rewrite bool_decide_eq_false_2 by (by intros [? ?]). cbn [negb].
  rewrite Hhelper.
  replace (m_async_error (coordinator w2)) with (@None Exception) by (by rewrite <- Herr1).
  rewrite bool_decide_eq_false_2 by (by intros [? ?]).
  change (m_new_notifiers (coordinator w2)) with staged.
  rewrite Hnew. cbv beta iota zeta.
  unfold advance_notifiers. cbn [coordinator m_notifier_sg set_m_advancer_sg
    update_coordinator set_coordinator set_m_new_notifiers emit w2 set_m_notifier_sg
    lookup list_lookup].
  unfold advance. cbv beta iota zeta.
  rewrite tables_add_required. cbn [tables empty_info accumulate].
  rewrite Hsgn, resolve_latest.
  cbn [builders latest open_with_config trace insert list_insert].
  eexists _, slots, _. split; [reflexivity|].
  split_and!; [done|done| | |].
  - intros p n Hp. specialize (Hreq p n Hp).
    match goal with |- _ ∈ trace (clean_up_dead_notifiers ?x) =>
      destruct (clean_up_trace x) as (es' & -> & _) end.
    simpl. elem_solver.
  - match goal with |- m_advancer_sg (coordinator (clean_up_dead_notifiers ?x)) = _ =>
      destruct (clean_up_no_staged x) as [-> _]; [done|] end.
    done.
  - match goal with |- m_new_notifiers (coordinator (clean_up_dead_notifiers ?x)) = _ =>
      destruct (clean_up_no_staged x) as [_ ->]; done end.
Qed.

(** An error-free cycle without staged notifiers. *)
Lemma run_async_notifiers_no_staged (w : World C) :
  let w1 := clean_up_dead_notifiers w in
  m_async_error (coordinator w) = None →
  is_Some (m_notifier_sg (coordinator w1)) ∨ open_with_config w = OpenOk →
  m_new_notifiers (coordinator w1) = [] →
  m_notifiers (coordinator w1) ≠ [] →
  ∃ info0 wf,
    run_async_notifiers merge table_log list_log w = Returned (Some [info0]) wf
    ∧ tables info0 = table_log (version (notifier_sg_origin w1)) (version (latest w)).
Proof.
  intros w1 Herr Hopen Hnil Hne.
  assert (Herr1 : m_async_error (coordinator w1) = None).
  { unfold w1. by rewrite clean_up_async_error. }
  destruct (clean_up_latest w) as [Hlatest Hoc]. fold w1 in Hlatest, Hoc.
  rewrite <- Hoc in Hopen.
  destruct (open_helper_shared_group_ok w1 Hopen) as (sgn & es & Hhelper & Hsgn).
  unfold run_async_notifiers. unfold_M. fold w1.
  replace (is_empty (m_notifiers (coordinator w1))) with false
    by (by destruct (m_notifiers (coordinator w1))).
  cbn [andb]. rewrite Herr1.
  rewrite bool_decide_eq_false_2 by (by intros [? ?]). cbn [negb].
  rewrite Hhelper.
  cbn [coordinator emit update_coordinator set_coordinator m_async_error
         set_m_notifier_sg m_new_notifiers].
  rewrite Herr1, Hnil.
  rewrite bool_decide_eq_false_2 by (by intros [? ?]).
  unfold advance_new_notifiers. cbn [is_empty]. cbv beta iota zeta.
  unfold advance_notifiers. cbn [coordinator m_notifier_sg set_m_advancer_sg
    update_coordinator set_coordinator set_m_new_notifiers emit set_m_notifier_sg
    lookup list_lookup].
  unfold advance. cbv beta iota zeta.
  rewrite tables_add_required. cbn [tables empty_info accumulate].
  rewrite Hsgn, resolve_default.
  cbn [builders latest open_with_config trace insert list_insert].
  eexists _, _. split; [reflexivity|]. simpl. by rewrite Hlatest.
Qed.

(** C4: in an error-free cycle [change_info] has one entry when no notifier
    is staged; otherwise, the advancer transaction being on the oldest
    staged version, it has one entry more than there are distinct origin
    versions among the staged notifiers (two to start with and one more for
    every further version met), and the advancer transaction holds no read
    when the cycle ends. *)
Theorem change_info_size (w : World C) :
  let w1 := clean_up_dead_notifiers w in
  let staged := m_new_notifiers (coordinator w1) in
  m_async_error (coordinator w) = None →
  is_Some (m_notifier_sg (coordinator w1)) ∨ open_with_config w = OpenOk →
  pinned_at_minimum (coordinator w1) →
  Forall (λ n, origin n ≠ uint64_max) staged →
  (staged = [] → m_notifiers (coordinator w1) ≠ [] →
   ∃ ci wf, run_async_notifiers merge table_log list_log w = Returned (Some ci) wf
            ∧ length ci = 1)
  ∧ (staged ≠ [] →
     ∃ ci wf, run_async_notifiers merge table_log list_log w = Returned (Some ci) wf
              ∧ length ci = 1 + distinct_origins staged
              ∧ length ci = 2 + (distinct_origins staged - 1)
              ∧ m_advancer_sg (coordinator wf) = Some (mkSharedGroup None)).
Proof.
  intros w1 staged Herr Hopen Hpin Hdef. split.
  - intros Hnil Hne.
    destruct (run_async_notifiers_no_staged w Herr Hopen Hnil Hne)
      as (info0 & wf & Hrun & _).
    by exists [info0], wf.
  - intros Hne.
    assert (Herr1 : m_async_error (coordinator w1) = None).
    { unfold w1. by rewrite clean_up_async_error. }
    destruct (Hpin Hne Herr1) as (sg & v0 & Hsg & Hv0 & Hmin).
    destruct (run_async_notifiers_staged w sg v0 Herr Hopen Hne Hsg Hv0 Hmin Hdef)
      as (info0 & slots & wf & Hrun & _ & Hslots & _ & Hadv & _).
    exists (merge_pass merge (info0 :: slots)), wf.
    destruct (sort_by_version_front staged (version v0) (eq_sym Hmin))
      as (front & rest & Hsort & Hfront & Hasc).
    assert (Hd : distinct_origins staged = 1 + length (slot_versions (origin front) rest)).
    { rewrite <- (distinct_origins_perm _ _ (sort_by_version_perm staged)).
      by rewrite Hsort, (distinct_origins_ascending _ _ Hasc). }
    assert (Hlen : length (merge_pass merge (info0 :: slots))
                   = 1 + distinct_origins staged).
    { change (merge_pass merge (info0 :: slots))
        with (merge_from merge 2 (info0 :: slots)).
      rewrite length_merge_from. cbn [length].
      rewrite <- (length_fmap tables slots), Hslots, length_app, length_closed_tables.
      fold w1. fold staged. rewrite Hd, Hsort.
      cbn [slot_versions]. rewrite Hfront, N.eqb_refl. simpl. lia. }
    split_and!; [done|done|lia|done].
Qed.
End Cycle.

Lemma change_info_size_witness :
  ∃ ci wf,
    run_async_notifiers app example_table_log example_list_log example_world_S4
    = Returned (Some ci) wf
    ∧ length ci = 3
    ∧ m_advancer_sg (coordinator wf) = Some (mkSharedGroup None).
Proof.
  destruct (change_info_size app example_table_log example_list_log example_world_S4)
    as [_ H].
  - reflexivity.
  - left. vm_compute. eauto.
  - intros _ _. eexists _, _. vm_compute. done.
  - apply (bool_decide_unpack _). vm_compute. exact I.
  - destruct H as (ci & wf & Hrun & Hlen & _ & Hadv).
    + vm_compute. discriminate.
    + exists ci, wf. split_and!; [exact Hrun| |exact Hadv].
      rewrite Hlen. vm_compute. reflexivity.
Defined.

(** ** What each slot covers after the backwards merge *)

Lemma commits_app (a b c : N) :
  (a ≤ b)%N → (b ≤ c)%N → commits a c = commits a b ++ commits b c.
Proof.
  intros Hab Hbc. unfold commits. rewrite <- fmap_app. f_equal.
  replace (N.to_nat c - N.to_nat a)
    with ((N.to_nat b - N.to_nat a) + (N.to_nat c - N.to_nat b)) by lia.
  rewrite seq_app. do 2 f_equal. lia.
Qed.

Lemma example_table_log_compose (a b c : N) :
  (a ≤ b)%N → (b ≤ c)%N →
  example_table_log a c
  = accumulate app (example_table_log a b) (example_table_log b c).
Proof.
  intros Hab Hbc. unfold example_table_log. simpl.
  by rewrite (commits_app a b c).
Qed.

(** ** References into the vector across [push_back] *)

Section Vector_storage_facts.
Variable c0 : nat.
Variable grow : nat → nat.

Lemma storage_after_room (pushes : nat) :
  pushes + 2 ≤ c0 → storage_after c0 grow pushes = (c0, 0).
Proof.
  induction pushes as [|p IH]; intros Hroom; [done|].
  simpl. rewrite IH by lia.
  by replace (S (S p) <? c0) with true by (symmetry; apply Nat.ltb_lt; lia).
Qed.

Lemma storage_after_full :
  2 ≤ c0 → storage_after c0 grow (S (c0 - 2)) = (grow c0, 1).
Proof.
  intros Hc0. simpl. rewrite storage_after_room by lia.
  by replace (S (S (c0 - 2)) <? c0) with false by (symmetry; apply Nat.ltb_ge; lia).
Qed.

Lemma allocation_mono (p q : nat) :
  p ≤ q → (storage_after c0 grow p).2 ≤ (storage_after c0 grow q).2.
Proof.
  induction 1 as [|q _ IH]; [done|].
  etrans; [exact IH|]. simpl.
  destruct (storage_after c0 grow q) as [capacity allocation].
  destruct (_ <? _); simpl; lia.
Qed.

(** A reference taken right after [resize(2)] does not survive the growth
    of the vector beyond the capacity [resize(2)] gave it. *)
Lemma reference_outgrown (index size : nat) :
  2 ≤ c0 → c0 < size → reference_valid c0 grow (mkInfoRef 2 index) size = false.
Proof.
  intros Hc0 Hsize. unfold reference_valid, allocation_at. simpl.
  apply bool_decide_eq_false. intros Heq.
  pose proof (allocation_mono (S (c0 - 2)) (size - 2)) as Hmono.
  rewrite storage_after_full in Hmono by done. simpl in Hmono. lia.
Qed.
End Vector_storage_facts.

Lemma slot_versions_minimum (v : N) ns (p : nat) n :
  ascending_from v ns → ns !! p = Some n → origin n = v →
  slot_versions v (take (S p) ns) = [].
Proof.
  revert p. induction ns as [|m ns IH]; intros p Hasc Hp Hn; [done|].
  destruct Hasc as [Hv Hasc]. cbn [take slot_versions].
  destruct p as [|p]; simpl in Hp.
  - injection Hp as ->. rewrite take_0. cbn [slot_versions].
    by rewrite Hn, N.eqb_refl.
  - assert (Hm : origin m = v).
    { pose proof (ascending_from_le _ _ n Hasc) as Hle.
      apply N.le_antisymm; [|done]. rewrite <- Hn. apply Hle.
      by eapply list_elem_of_lookup_2. }
    rewrite Hm, N.eqb_refl. apply IH; [by rewrite <- Hm|done|done].
Qed.

Section Covering.
Context {C : Type}.
Variable merge : C → C → C.
Variable table_log : N → N → list C.
Variable list_log : N → N → ListChangeInfo → C.

(** The storage engine and [CollectionChangeBuilder::merge] agree: the
    changes from [a] to [c] are the changes from [a] to [b] with the changes
    from [b] to [c] merged in. *)
Hypothesis table_log_compose :
  ∀ a b c : N, (a ≤ b)%N → (b ≤ c)%N →
    table_log a c = accumulate merge (table_log a b) (table_log b c).

Lemma merge_suffixes_log (v : N) ns (L : N) :
  ascending_from v ns →
  (last_version v ns ≤ L)%N →
  merge_suffixes (merge_tables merge)
    (closed_tables table_log v ns ++ [table_log (last_version v ns) L])
  = (λ a, table_log a L) <$> (v :: slot_versions v ns).
Proof.
  revert v. induction ns as [|n ns IH]; intros v Hasc HL; [done|].
  destruct Hasc as [Hv Hasc]. cbn [closed_tables last_version slot_versions] in *.
  destruct (N.eqb_spec v (origin n)) as [->|Hne]; [by apply IH|].
  specialize (IH (origin n) Hasc HL).
  cbn [app merge_suffixes]. rewrite IH. cbn [fmap list_fmap].
  rewrite merge_tables_accumulate, <- table_log_compose; [done|done|].
  etrans; [|exact HL]. by apply ascending_last_version.
Qed.

(** C5: [merge_pass] leaves [change_info[0]] alone and gives every later
    entry its own table changes followed by those of all entries after it.
    In an error-free cycle with staged notifiers [change_info[0]] then
    holds the changes between the version the notifier transaction was at
    and the latest version, and for every staged notifier the entry that
    was last in the vector when the notifier was given its reference holds
    the changes between the notifier's own origin version and the latest
    version.  But the reference itself was taken before the later
    [push_back]s: a notifier staged at the oldest version holds a
    reference to position 1 of the vector of two elements, and once the
    vector has outgrown the capacity that [resize(2)] gave it, which two
    distinct origin versions are enough for when that capacity is 2, the
    reference points into an allocation the vector has left. *)
Theorem staged_reference_outlives_vector (c0 : nat) (grow : nat → nat) (w : World C) :
  let w1 := clean_up_dead_notifiers w in
  let staged := m_new_notifiers (coordinator w1) in
  m_async_error (coordinator w) = None →
  is_Some (m_notifier_sg (coordinator w1)) ∨ open_with_config w = OpenOk →
  staged ≠ [] →
  pinned_at_minimum (coordinator w1) →
  Forall (λ n, (origin n ≤ version (latest w))%N) staged →
  (version (latest w) < uint64_max)%N →
  (∀ info0 slots,
     tables <$> merge_pass merge (info0 :: slots)
     = tables info0 :: merge_suffixes (merge_tables merge) (tables <$> slots))
  ∧ ∃ ci wf,
      run_async_notifiers merge table_log list_log w = Returned (Some ci) wf
      ∧ length ci = 1 + distinct_origins staged
      ∧ tables <$> ci !! 0
        = Some (table_log (version (notifier_sg_origin w1)) (version (latest w)))
      ∧ (∀ n, n ∈ staged →
          ∃ (i : nat) info,
            1 ≤ i
            ∧ EvAddRequiredChangeInfo (notifier_id n) (mkInfoRef (S i) i) ∈ trace wf
            ∧ ci !! i = Some info
            ∧ tables info = table_log (origin n) (version (latest w)))
      ∧ (∀ n, n ∈ staged → Some (origin n) = minimum_version staged →
          EvAddRequiredChangeInfo (notifier_id n) (mkInfoRef 2 1) ∈ trace wf
          ∧ (2 ≤ c0 → c0 ≤ distinct_origins staged →
             reference_valid c0 grow (mkInfoRef 2 1) (length ci) = false)).
Proof.
  intros w1 staged Herr Hopen Hne Hpin Hle Hlatest.
  split; [apply merge_pass_tables|].
  assert (Herr1 : m_async_error (coordinator w1) = None).
  { unfold w1. by rewrite clean_up_async_error. }
  destruct (Hpin Hne Herr1) as (sg & v0 & Hsg & Hv0 & Hmin).
  assert (Hdef : Forall (λ n, origin n ≠ uint64_max) staged).
  { eapply Forall_impl; [exact Hle|]. simpl. intros n Hn. lia. }
  destruct (run_async_notifiers_staged merge table_log list_log w sg v0
              Herr Hopen Hne Hsg Hv0 Hmin Hdef)
    as (info0 & slots & wf & Hrun & Hinfo0 & Hslots & Hreq & _).
  fold w1 in Hinfo0, Hslots, Hreq. fold staged in Hslots, Hreq.
  destruct (sort_by_version_front staged (version v0) (eq_sym Hmin))
    as (front & rest & Hsort & Hfront & Hasc).
  assert (Hasc' : ascending_from (version v0) (sort_by_version staged)).
  { rewrite Hsort. split; [lia|done]. }
  assert (Hsorted_le : ∀ n, n ∈ sort_by_version staged → (origin n ≤ version (latest w))%N).
  { intros n Hn. rewrite sort_by_version_perm in Hn.
    rewrite Forall_forall in Hle. by apply Hle. }
  assert (HL : (last_version (version v0) (sort_by_version staged) ≤ version (latest w))%N).
  { destruct (last_version_elem (version v0) (sort_by_version staged))
      as [->|(n & Hn & ->)]; [|by apply Hsorted_le].
    rewrite <- Hfront. apply Hsorted_le. rewrite Hsort. left. }
  pose proof (merge_pass_tables merge info0 slots) as Htables.
  rewrite Hslots, (merge_suffixes_log _ _ _ Hasc' HL) in Htables.
  assert (Hlen : length (merge_pass merge (info0 :: slots)) = 1 + distinct_origins staged).
  { rewrite <- (length_fmap tables), Htables. cbn [length]. rewrite length_fmap.
    rewrite <- (distinct_origins_perm _ _ (sort_by_version_perm staged)).
    rewrite Hsort, (distinct_origins_ascending _ _ Hasc).
    cbn [slot_versions length]. rewrite Hfront, N.eqb_refl. simpl. lia. }
  exists (merge_pass merge (info0 :: slots)), wf. split_and!; [done|done| | |].
  - rewrite merge_pass_head. simpl. by rewrite Hinfo0.
  - intros n Hn. rewrite <- (sort_by_version_perm staged) in Hn.
    apply list_elem_of_lookup in Hn as [p Hp].
    set (k := length (slot_versions (version v0) (take (S p) (sort_by_version staged)))).
    assert (Hk : (tables <$> merge_pass merge (info0 :: slots)) !! (1 + k)
                 = Some (table_log (origin n) (version (latest w)))).
    { rewrite Htables, lookup_cons_ne_0 by lia. cbn [Nat.add Nat.pred].
      rewrite list_lookup_fmap. unfold k.
      by rewrite (slot_versions_index _ _ _ _ Hp). }
    rewrite list_lookup_fmap in Hk.
    destruct (merge_pass merge (info0 :: slots) !! (1 + k)) as [info|] eqn:Hinfo;
      [|done].
    injection Hk as Hk. exists (1 + k), info. split_and!; [lia| |done|done].
    by apply Hreq.
  - intros n Hn Hnmin. split.
    + rewrite <- (sort_by_version_perm staged) in Hn.
      apply list_elem_of_lookup in Hn as [p Hp].
      assert (Hnv : origin n = version v0).
      { assert (Hsome : Some (origin n) = Some (version v0))
          by (etrans; [exact Hnmin|symmetry; exact Hmin]).
        by injection Hsome. }
      pose proof (Hreq p n Hp) as Hev. cbv zeta in Hev.
      by rewrite (slot_versions_minimum _ _ _ _ Hasc' Hp Hnv) in Hev.
    + intros Hc0 Hmany. apply reference_outgrown; [done|]. rewrite Hlen. lia.
Qed.
End Covering.

(** Scenario S4 with the vector of libstdc++ and libc++: the first notifier
    was told to find its changes at position 1 of the two-element vector,
    the third element made the vector move, and the changes from version 3
    to version 7 are at position 1 of the new allocation.  The references
    of the second staged notifier and of the active one were taken from
    the vector of three elements and are valid. *)
Lemma staged_reference_outlives_vector_witness :
  ∃ ci wf info,
    run_async_notifiers app example_table_log example_list_log example_world_S4
    = Returned (Some ci) wf
    ∧ length ci = 3
    ∧ ci !! 1 = Some info ∧ tables info = example_table_log 3 7
    ∧ filter (is_add_required 1) (trace wf)
      = [EvAddRequiredChangeInfo 1 (mkInfoRef 2 1)]
    ∧ reference_valid 2 (λ c, 2 * c) (mkInfoRef 2 1) (length ci) = false
    ∧ filter (is_add_required 2) (trace wf)
      = [EvAddRequiredChangeInfo 2 (mkInfoRef 3 2)]
    ∧ reference_valid 2 (λ c, 2 * c) (mkInfoRef 3 2) (length ci) = true
    ∧ filter (is_add_required 3) (trace wf)
      = [EvAddRequiredChangeInfo 3 (mkInfoRef 3 0)]
    ∧ reference_valid 2 (λ c, 2 * c) (mkInfoRef 3 0) (length ci) = true.
Proof.
  destruct (staged_reference_outlives_vector app example_table_log example_list_log
              example_table_log_compose 2 (λ c, 2 * c) example_world_S4)
    as [_ (ci & wf & Hrun & Hlen & H0 & Hn & Hmin)].
  - reflexivity.
  - left. vm_compute. eauto.
  - vm_compute. discriminate.
  - intros _ _. eexists _, _. vm_compute. done.
  - apply (bool_decide_unpack _). vm_compute. exact I.
  - vm_compute. reflexivity.
  - destruct (Hmin (example_notifier 1 3 true)) as [Hev Hinvalid].
    { vm_compute. left. }
    { reflexivity. }
    exists ci, wf.
    vm_compute in Hrun. injection Hrun as <- <-.
    eexists. split_and!; [reflexivity|reflexivity|reflexivity|reflexivity| | |..].
    + reflexivity.
    + apply Hinvalid; [lia|]. vm_compute. lia.
    + reflexivity.
    + reflexivity.
    + reflexivity.
    + reflexivity.
Defined.

(** ** The registry of coordinators *)

Lemma coordinator_alive_true (p : Process) (c : CoordId) :
  coordinator_alive p c = true ↔ is_Some (coordinators p !! c).
Proof. unfold coordinator_alive. by rewrite bool_decide_eq_true. Qed.

Lemma registered_at_most_one_live (p : Process) : registered p → at_most_one_live p.
Proof.
  intros Hreg c1 c2 path H1 H2 Hp1 Hp2.
  apply coordinator_alive_true in H1, H2.
  destruct (Hreg c1 H1) as (_ & path1 & Hc1 & Hr1).
  destruct (Hreg c2 H2) as (_ & path2 & Hc2 & Hr2).
  congruence.
Qed.

Lemma make_coordinator_registered (path : string) (p : Process) :
  registered p →
  (∀ c, s_coordinators_per_path p !! path = Some c → coordinators p !! c = None) →
  registered (make_coordinator path p).2.
Proof.
  intros Hreg Hdead c. unfold make_coordinator. simpl.
  destruct (decide (c = next_object p)) as [->|Hne].
  - intros _. split; [lia|]. exists path. by rewrite !lookup_insert_eq.
  - rewrite lookup_insert_ne by done. intros Hc.
    destruct (Hreg c Hc) as (Hlt & path' & Hcf & Hr).
    split; [lia|]. exists path'. rewrite lookup_insert_ne by done.
    split; [done|].
    destruct (decide (path = path')) as [->|Hp]; [|by rewrite lookup_insert_ne].
    specialize (Hdead c Hr). destruct Hc as [? Hc]. congruence.
Qed.

Lemma get_coordinator_registered (path : string) (p : Process) :
  registered p → registered (get_coordinator path p).2.
Proof.
  intros Hreg. unfold get_coordinator.
  destruct (s_coordinators_per_path p !! path) as [w|] eqn:Hw.
  - destruct (coordinator_alive p w) eqn:Halive; [done|].
    apply make_coordinator_registered; [done|].
    intros c Hc. rewrite Hw in Hc. injection Hc as <-.
    unfold coordinator_alive in Halive.
    apply bool_decide_eq_false in Halive.
    destruct (coordinators p !! w); [|done]. destruct Halive. eauto.
  - apply make_coordinator_registered; [done|]. intros c Hc. congruence.
Qed.

Lemma release_coordinator_registered (c : CoordId) (p : Process) :
  registered p → registered (release_coordinator c p).
Proof.
  intros Hreg c'. unfold release_coordinator, RealmCoordinator_destructor. simpl.
  intros Hc'. destruct (decide (c' = c)) as [->|Hne].
  { rewrite lookup_delete_eq in Hc'. by destruct Hc'. }
  pose proof Hc' as Hc''. rewrite lookup_delete_ne in Hc'' by done.
  destruct (Hreg c' Hc'') as (Hlt & path & Hcf & Hr).
  split; [done|]. exists path. split; [done|].
  apply map_lookup_filter_Some. split; [done|]. simpl.
  unfold coordinator_alive. simpl. by apply bool_decide_spec.
Qed.

Lemma unregister_realm_registered this realm (p : Process) :
  registered p → registered (unregister_realm this realm p).
Proof.
  intros Hreg c. unfold unregister_realm. simpl. intros Hc.
  apply Hreg. destruct (decide (this = c)) as [->|Hne].
  - rewrite lookup_alter_eq in Hc. by apply fmap_is_Some in Hc.
  - by rewrite lookup_alter_ne in Hc.
Qed.

Lemma Realm_close_registered realm (p : Process) :
  registered p → registered (Realm_close realm p).
Proof.
  intros Hreg. unfold Realm_close. simpl.
  destruct (realms p !! realm); [|done].
  by apply (unregister_realm_registered _ _ (set_calls _ p)).
Qed.

Lemma handle_frame_refl (p : Process) : handle_frame p p.
Proof.
  split_and!; [done..|]. intros c. by destruct (coordinators p !! c).
Qed.

Lemma handle_frame_trans (p1 p2 p3 : Process) :
  handle_frame p1 p2 → handle_frame p2 p3 → handle_frame p1 p3.
Proof.
  intros (Hr1 & Hc1 & Hn1 & Hh1) (Hr2 & Hc2 & Hn2 & Hh2).
  split_and!; [congruence|congruence|lia|].
  intros c. specialize (Hh1 c). specialize (Hh2 c).
  destruct (coordinators p1 !! c), (coordinators p2 !! c), (coordinators p3 !! c);
    try done. congruence.
Qed.

Lemma handle_frame_registered (p p' : Process) :
  handle_frame p p' → registered p → registered p'.
Proof.
  intros (Hr & Hc & Hn & Hh) Hreg c Hc'. specialize (Hh c).
  destruct (coordinators p !! c) as [co|] eqn:Hco.
  - destruct (Hreg c) as (Hlt & path & Hcf & Hrp); [by rewrite Hco|].
    split; [lia|]. exists path. by rewrite Hr, Hc.
  - destruct Hc' as [co' Hco']. by rewrite Hco' in Hh.
Qed.

Lemma handle_frames_bind {A B} (m : M Process A) (f : A → M Process B) :
  handle_frames m → (∀ a, handle_frames (f a)) → handle_frames (m ≫= f).
Proof.
  intros Hm Hf p. unfold mbind, M_bind. specialize (Hm p).
  destruct (m p) as [a p1|e p1|]; [|done|done].
  specialize (Hf a p1). destruct (f a p1); [|  |done];
    by eapply handle_frame_trans.
Qed.

Lemma handle_frames_ret {A} (a : A) : handle_frames (mret a).
Proof. intros p. apply handle_frame_refl. Qed.

Lemma handle_frames_throw {A} (e : Exception) : handle_frames (throw (A := A) e).
Proof. intros p. apply handle_frame_refl. Qed.

Lemma handle_frames_get_state : handle_frames get_state.
Proof. intros p. apply handle_frame_refl. Qed.

Lemma handle_frames_this_coordinator this : handle_frames (this_coordinator this).
Proof.
  intros p. unfold this_coordinator.
  destruct (coordinators p !! this); [|done]. apply handle_frame_refl.
Qed.

Lemma handle_frames_update_this this (f : RealmCoordinator → RealmCoordinator) :
  (∀ c, m_async_error (f c) = m_async_error c) →
  handle_frames (update_this this f).
Proof.
  intros Hf p. unfold update_this, modify_state. simpl.
  split_and!; [done..|]. intros c. cbn [coordinators set_coordinators].
  destruct (decide (this = c)) as [->|Hne].
  - rewrite lookup_alter_eq. destruct (coordinators p !! c); simpl; [apply Hf|done].
  - rewrite lookup_alter_ne by done. by destruct (coordinators p !! c).
Qed.

Lemma handle_frames_verify_config m_config config :
  handle_frames (verify_config m_config config).
Proof.
  intros p. unfold verify_config.
  repeat (destruct (negb _); [apply handle_frame_refl|]).
  destruct (_ && _); [apply handle_frame_refl|].
  simpl. apply handle_frame_refl.
Qed.

Lemma handle_frames_open_new_realm this config :
  handle_frames (open_new_realm this config).
Proof.
  intros p. unfold open_new_realm.
  destruct (realm_init_error p); [apply handle_frame_refl|].
  destruct (coordinators p !! this) as [co|] eqn:Hco; [|done].
  split_and!; [done|done|simpl; lia|]. intros c. simpl.
  destruct (decide (this = c)) as [->|Hne].
  - by rewrite lookup_insert_eq, Hco.
  - rewrite lookup_insert_ne by done. by destruct (coordinators p !! c).
Qed.

Lemma handle_frames_get_realm this config : handle_frames (get_realm this config).
Proof.
  unfold get_realm.
  apply handle_frames_bind; [apply handle_frames_this_coordinator|]. intros c.
  apply handle_frames_bind.
  - destruct (first_substantive_open c); [|apply handle_frames_verify_config].
    apply handle_frames_bind; [by apply handle_frames_update_this|]. intros _.
    destruct (_ && _); [|apply handle_frames_ret].
    apply handle_frames_bind; [apply handle_frames_get_state|]. intros p.
    destruct (commit_helper_error p); [apply handle_frames_throw|].
    by apply handle_frames_update_this.
  - intros _.
    apply handle_frames_bind; [apply handle_frames_this_coordinator|]. intros c'.
    apply handle_frames_bind; [apply handle_frames_get_state|]. intros p.
    destruct (if cache config then _ else _);
      [apply handle_frames_ret|apply handle_frames_open_new_realm].
Qed.

Lemma get_realm_registered this config (p : Process) :
  registered p → registered (returned (get_realm this config p) p).
Proof.
  intros Hreg. pose proof (handle_frames_get_realm this config p) as Hf.
  destruct (get_realm this config p); simpl; [| |done];
    by eapply handle_frame_registered.
Qed.

Lemma process_step_registered (op : ProcessOp) (p : Process) :
  clears_registry op = false → registered p → registered (process_step p op).
Proof.
  intros Hop Hreg. destruct op; simpl; try done.
  - by apply get_coordinator_registered.
  - destruct (coordinator_alive p c); [|done]. by apply release_coordinator_registered.
  - by apply get_realm_registered.
  - by apply unregister_realm_registered.
  - destruct (realm_alive p realm); [|done]. by apply Realm_close_registered.
Qed.

Lemma run_process_registered (ops : list ProcessOp) (p : Process) :
  Forall (λ op, clears_registry op = false) ops →
  registered p → registered (run_process ops p).
Proof.
  unfold run_process. revert p. induction ops as [|op ops IH]; intros p Hops Hreg; [done|].
  apply Forall_cons in Hops as [Hop Hops]. simpl.
  apply IH; [done|]. by apply process_step_registered.
Qed.

Lemma registered_initial : registered Process_initial.
Proof. intros c [? Hc]. simpl in Hc. by rewrite lookup_empty in Hc. Qed.

(** C6, as the code has it: in a history without [clear_cache] at most one
    live coordinator exists for a path; [get_coordinator] returns the
    registered coordinator while its weak reference resolves and otherwise
    creates a fresh coordinator and registers a weak reference to it; the
    destructor erases exactly the expired entries of the registry. *)
Theorem at_most_one_live_coordinator (ops : list ProcessOp) :
  Forall (λ op, clears_registry op = false) ops →
  let p := run_process ops Process_initial in
  at_most_one_live p
  ∧ (∀ path c, s_coordinators_per_path p !! path = Some c →
       coordinator_alive p c = true → get_coordinator path p = (c, p))
  ∧ (∀ path, (∀ c, s_coordinators_per_path p !! path = Some c →
                   coordinator_alive p c = false) →
       let '(c', p') := get_coordinator path p in
       coordinator_alive p c' = false
       ∧ coordinators p' !! c' = Some RealmCoordinator_new
       ∧ s_coordinators_per_path p' !! path = Some c'
       ∧ at_most_one_live p')
  ∧ (∀ path c, s_coordinators_per_path (RealmCoordinator_destructor p) !! path = Some c
       ↔ s_coordinators_per_path p !! path = Some c ∧ coordinator_alive p c = true).
Proof.
  intros Hops p.
  assert (Hreg : registered p).
  { apply run_process_registered; [done|apply registered_initial]. }
  split_and!.
  - by apply registered_at_most_one_live.
  - intros path c Hc Halive. unfold get_coordinator. by rewrite Hc, Halive.
  - intros path Hdead.
    assert (Hget : get_coordinator path p = make_coordinator path p).
    { unfold get_coordinator. destruct (s_coordinators_per_path p !! path) as [w|]; [|done].
      by rewrite (Hdead w eq_refl). }
    pose proof (get_coordinator_registered path p Hreg) as Hreg'.
    rewrite Hget in *. unfold make_coordinator in *. simpl in *.
    split_and!.
    + unfold coordinator_alive. apply bool_decide_eq_false. intros Hsome.
      destruct (Hreg _ Hsome) as [Hlt _]. lia.
    + by rewrite lookup_insert_eq.
    + by rewrite lookup_insert_eq.
    + by apply registered_at_most_one_live.
  - intros path c. unfold RealmCoordinator_destructor. simpl.
    rewrite map_lookup_filter_Some. simpl. unfold coordinator_alive.
    by rewrite bool_decide_eq_true, Is_true_true, bool_decide_eq_true.
Qed.

Lemma at_most_one_live_coordinator_witness :
  at_most_one_live
    (run_process [Op_get_coordinator "P"; Op_get_coordinator "P";
                  Op_release_coordinator 0; Op_get_coordinator "P"]
       Process_initial).
Proof.
  refine (proj1 (at_most_one_live_coordinator
                   [Op_get_coordinator "P"; Op_get_coordinator "P";
                    Op_release_coordinator 0; Op_get_coordinator "P"] _)).
  repeat constructor.
Defined.

(** [clear_cache] wipes the registry while the coordinator it was called on
    is still alive: the next [get_coordinator] for the same path creates a
    second coordinator next to it. *)
Lemma clear_cache_allows_two_live_coordinators :
  ¬ at_most_one_live
      (run_process [Op_get_coordinator "P"; Op_clear_cache; Op_get_coordinator "P"]
         Process_initial).
Proof.
  intros H. specialize (H 0 1 "P"). vm_compute in H.
  discriminate (H eq_refl eq_refl eq_refl eq_refl).
Qed.

(** ** [clear_cache] *)

Lemma collect_realms_insert p heap c co c' :
  heap !! c = Some co →
  collect_realms p (<[c := set_m_notifier None co]> heap) c' = collect_realms p heap c'.
Proof.
  intros Hco. unfold collect_realms. destruct (decide (c = c')) as [->|Hne].
  - by rewrite lookup_insert_eq, Hco.
  - by rewrite lookup_insert_ne.
Qed.

(** The first loop: every coordinator of the registry loses its commit
    notifier and has its live handles collected. *)
Lemma clear_cache_visit_fold (p : Process) (L : list (string * CoordId)) :
  ∀ acc,
    let res := foldl (clear_cache_visit p) acc L in
    res.2 = acc.2 ++ (L.*2 ≫= collect_realms p acc.1)
    ∧ ∀ c, res.1 !! c = if decide (c ∈ L.*2) then set_m_notifier None <$> acc.1 !! c
                        else acc.1 !! c.
Proof.
  induction L as [|[path c0] L IH]; intros [heap to_close].
  { simpl. split; [by rewrite app_nil_r|done]. }
  rewrite fmap_cons, bind_cons. cbn [foldl snd fst].
  assert (Hc0 : ∀ c, c ∈ c0 :: L.*2 ↔ c = c0 ∨ c ∈ L.*2) by (intros; apply elem_of_cons).
  unfold clear_cache_visit at 2 4. cbn [snd fst].
  destruct (heap !! c0) as [co|] eqn:Hco.
  - assert (Hcol : collect_realms p heap c0
                   = wrn_realm <$> filter (λ n, realm_alive p (wrn_realm n))
                                     (m_weak_realm_notifiers co)).
    { unfold collect_realms. by rewrite Hco. }
    rewrite Hcol.
    destruct (IH (<[c0 := set_m_notifier None co]> heap,
                  to_close ++ (wrn_realm <$>
                     filter (λ n, realm_alive p (wrn_realm n))
                       (m_weak_realm_notifiers co)))) as [IH1 IH2].
    cbn [fst snd] in IH1, IH2. split.
    + rewrite IH1, <- app_assoc. do 2 f_equal.
      apply list_bind_ext; [|done]. intros c'. by apply collect_realms_insert.
    + intros c. rewrite IH2. destruct (decide (c = c0)) as [->|Hne].
      * rewrite lookup_insert_eq, Hco, (decide_True _ _ (list_elem_of_here _ _)).
        by destruct (decide (c0 ∈ L.*2)).
      * rewrite lookup_insert_ne by done.
        destruct (decide (c ∈ L.*2)) as [Hin|Hnin].
        -- by rewrite decide_True by (by right).
        -- rewrite decide_False; [done|]. rewrite Hc0. tauto.
  - assert (Hcol : collect_realms p heap c0 = []).
    { unfold collect_realms. by rewrite Hco. }
    rewrite Hcol.
    destruct (IH (heap, to_close)) as [IH1 IH2]. cbn [fst snd] in IH1, IH2. split.
    + by rewrite IH1.
    + intros c. rewrite IH2. destruct (decide (c = c0)) as [->|Hne].
      * rewrite Hco, (decide_True _ _ (list_elem_of_here _ _)).
        by destruct (decide (c0 ∈ L.*2)).
      * destruct (decide (c ∈ L.*2)) as [Hin|Hnin].
        -- by rewrite decide_True by (by right).
        -- rewrite decide_False; [done|]. rewrite Hc0. tauto.
Qed.

Lemma filter_ext_in {A} (P Q : A → Prop) `{!∀ x, Decision (P x), !∀ x, Decision (Q x)}
    (l : list A) :
  (∀ x, x ∈ l → P x ↔ Q x) → filter P l = filter Q l.
Proof.
  induction l as [|a l IH]; intros Hext; [done|].
  rewrite !filter_cons. rewrite IH by (intros x Hx; apply Hext; by right).
  destruct (decide (P a)) as [HP|HP], (decide (Q a)) as [HQ|HQ]; try done.
  - destruct HQ. apply Hext; [left|done].
  - destruct HP. apply Hext; [left|done].
Qed.




Lemma Realm_close_frame (realm : RealmId) (p : Process) :
  realms (Realm_close realm p) = realms p
  ∧ s_coordinators_per_path (Realm_close realm p) = s_coordinators_per_path p
  ∧ calls (Realm_close realm p) = calls p ++ [EvClose realm].
Proof.
  unfold Realm_close. simpl. by destruct (realms p !! realm).
Qed.



Lemma close_all_cons (r : RealmId) (R : list RealmId) (p : Process) :
  close_all (r :: R) p
  = close_all R (if realm_alive p r then Realm_close r p else p).
Proof. reflexivity. Qed.


Lemma clear_cache_unfold (p : Process) :
  clear_cache p =
    let res := foldl (clear_cache_visit p) (coordinators p, [])
                 (map_to_list (s_coordinators_per_path p)) in
    close_all res.2 (set_registry ∅ (set_coordinators res.1 p)).
Proof. unfold clear_cache. by destruct (foldl _ _ _). Qed.

Lemma clear_cache_empty_registry (p : Process) :
  s_coordinators_per_path p = ∅ → clear_cache p = p.
Proof.
  intros Hempty. rewrite clear_cache_unfold, Hempty, map_to_list_empty. simpl.
  destruct p. simpl in *. by subst.
Qed.

Lemma elem_of_registry_values (p : Process) (c : CoordId) :
  c ∈ (map_to_list (s_coordinators_per_path p)).*2
  ↔ ∃ path, s_coordinators_per_path p !! path = Some c.
Proof.
  rewrite list_elem_of_fmap. split.
  - intros ([path c'] & -> & Hin). exists path. by apply elem_of_map_to_list.
  - intros (path & Hpath). exists (path, c). split; [done|]. by apply elem_of_map_to_list.
Qed.


Lemma filter_none {A} (P : A → Prop) `{!∀ x, Decision (P x)} (l : list A) :
  (∀ x, x ∈ l → ¬ P x) → filter P l = [].
Proof.
  intros Hnone. apply elem_of_nil_inv. intros x Hx.
  apply list_elem_of_filter in Hx as [HP Hx]. by apply (Hnone x).
Qed.

Lemma filter_all {A} (P : A → Prop) `{!∀ x, Decision (P x)} (l : list A) :
  (∀ x, x ∈ l → P x) → filter P l = l.
Proof.
  induction l as [|a l IH]; intros Hall; [done|].
  rewrite filter_cons_True by (apply Hall; left).
  f_equal. apply IH. intros x Hx. apply Hall. by right.
Qed.




(** ** The latched error across calls on handles and on the registry *)

Lemma keeps_async_errors_of (p p' : Process) :
  next_object p ≤ next_object p' →
  (∀ c, async_error_of p' c = async_error_of p c) →
  keeps_async_errors p p'.
Proof.
  intros Hnext Herr. split; [done|]. intros c co' _ Hco'.
  specialize (Herr c). unfold async_error_of in Herr. rewrite Hco' in Herr.
  destruct (coordinators p !! c) as [co|]; [|done].
  exists co. split; [done|]. simpl in Herr. congruence.
Qed.

Lemma unregister_realm_async_error this realm (p : Process) (c : CoordId) :
  async_error_of (unregister_realm this realm p) c = async_error_of p c.
Proof.
  unfold async_error_of, unregister_realm. cbn [coordinators set_coordinators].
  destruct (decide (this = c)) as [->|Hne]; [|by rewrite lookup_alter_ne].
  rewrite lookup_alter_eq. by destruct (coordinators p !! c).
Qed.

Lemma Realm_close_async_error realm (p : Process) (c : CoordId) :
  async_error_of (Realm_close realm p) c = async_error_of p c
  ∧ next_object (Realm_close realm p) = next_object p.
Proof.
  unfold Realm_close. simpl. destruct (realms p !! realm); [|done].
  split; [|done]. by rewrite unregister_realm_async_error.
Qed.

Lemma close_all_async_error (to_close : list RealmId) (p : Process) (c : CoordId) :
  async_error_of (close_all to_close p) c = async_error_of p c
  ∧ next_object (close_all to_close p) = next_object p.
Proof.
  revert p. induction to_close as [|r R IH]; intros p; [done|].
  rewrite close_all_cons. destruct (realm_alive p r); [|apply IH].
  destruct (IH (Realm_close r p)) as [-> ->]. apply Realm_close_async_error.
Qed.

Lemma clear_cache_async_error (p : Process) (c : CoordId) :
  async_error_of (clear_cache p) c = async_error_of p c
  ∧ next_object (clear_cache p) = next_object p.
Proof.
  rewrite clear_cache_unfold.
  destruct (clear_cache_visit_fold p (map_to_list (s_coordinators_per_path p))
              (coordinators p, [])) as [_ Hheap].
  cbv zeta. set (res := foldl _ _ _) in *.
  destruct (close_all_async_error res.2 (set_registry ∅ (set_coordinators res.1 p)) c)
    as [-> ->].
  split; [|done]. unfold async_error_of. cbn [coordinators set_registry set_coordinators].
  rewrite Hheap. cbn [fst]. destruct (decide _); [|done].
  by destruct (coordinators p !! c).
Qed.

Lemma clear_all_caches_async_error (p : Process) (c : CoordId) :
  async_error_of (clear_all_caches p) c = async_error_of p c
  ∧ next_object (clear_all_caches p) = next_object p.
Proof.
  unfold clear_all_caches. generalize ((map_to_list (s_coordinators_per_path p)).*2).
  intros to_clear. revert p. induction to_clear as [|w to_clear IH]; intros p; [done|].
  simpl. destruct (coordinator_alive p w); [|apply IH].
  destruct (IH (clear_cache p)) as [-> ->]. apply clear_cache_async_error.
Qed.

Lemma process_step_keeps_async_errors (op : ProcessOp) (p : Process) :
  fresh_ids p →
  keeps_async_errors p (process_step p op) ∧ fresh_ids (process_step p op).
Proof.
  intros Hfresh.
  assert (Hsame : ∀ p', next_object p' = next_object p →
            (∀ c, async_error_of p' c = async_error_of p c) →
            keeps_async_errors p p' ∧ fresh_ids p').
  { intros p' Hnext Herr. split; [apply keeps_async_errors_of; [lia|done]|].
    intros c Hc. rewrite Hnext. apply Hfresh.
    specialize (Herr c). unfold async_error_of in Herr.
    destruct Hc as [co' Hco']. rewrite Hco' in Herr.
    by destruct (coordinators p !! c). }
  destruct op as [path|path|c|this config|this realm|realm| |]; simpl.
  - unfold get_coordinator.
    assert (Hmake : keeps_async_errors p (make_coordinator path p).2
                    ∧ fresh_ids (make_coordinator path p).2).
    { unfold make_coordinator. simpl. split.
      - split; [simpl; lia|]. simpl. intros c co' Hc.
        rewrite lookup_insert_ne by lia. eauto.
      - intros c. simpl. destruct (decide (c = next_object p)) as [->|Hne]; [lia|].
        rewrite lookup_insert_ne by done. intros Hc. specialize (Hfresh c Hc). lia. }
    destruct (s_coordinators_per_path p !! path) as [w|]; [|done].
    destruct (coordinator_alive p w); [|done]. by apply Hsame.
  - by apply Hsame.
  - destruct (coordinator_alive p c); [|by apply Hsame].
    unfold release_coordinator, RealmCoordinator_destructor. simpl. split.
    + split; [done|]. simpl. intros c' co' _ Hco'.
      apply lookup_delete_Some in Hco' as [_ Hco']. eauto.
    + intros c'. simpl. intros [co' Hco'].
      apply lookup_delete_Some in Hco' as [_ Hco']. apply Hfresh. eauto.
  - pose proof (handle_frames_get_realm this config p) as Hf. unfold returned.
    destruct (get_realm this config p) as [r p'|e p'|]; simpl; [| |by apply Hsame].
    + destruct Hf as (_ & _ & Hnext & Hh). split.
      * split; [done|]. intros c co' _ Hco'. specialize (Hh c). rewrite Hco' in Hh.
        destruct (coordinators p !! c) as [co|]; [|done]. eauto.
      * intros c [co' Hco']. specialize (Hh c). rewrite Hco' in Hh.
        destruct (coordinators p !! c) as [co|] eqn:Hc; [|done].
        assert (c < next_object p) by (apply Hfresh; eauto). lia.
    + destruct Hf as (_ & _ & Hnext & Hh). split.
      * split; [done|]. intros c co' _ Hco'. specialize (Hh c). rewrite Hco' in Hh.
        destruct (coordinators p !! c) as [co|]; [|done]. eauto.
      * intros c [co' Hco']. specialize (Hh c). rewrite Hco' in Hh.
        destruct (coordinators p !! c) as [co|] eqn:Hc; [|done].
        assert (c < next_object p) by (apply Hfresh; eauto). lia.
  - apply Hsame; [done|]. intros c. apply unregister_realm_async_error.
  - destruct (realm_alive p realm); [|by apply Hsame].
    apply Hsame; [|intros c]; apply Realm_close_async_error. exact 0.
  - apply Hsame; [|intros c]; apply clear_cache_async_error. exact 0.
  - apply Hsame; [|intros c]; apply clear_all_caches_async_error. exact 0.
Qed.

Lemma run_process_keeps_async_errors (ops : list ProcessOp) (p : Process) :
  fresh_ids p →
  keeps_async_errors p (run_process ops p) ∧ fresh_ids (run_process ops p).
Proof.
  unfold run_process. revert p. induction ops as [|op ops IH]; intros p Hfresh.
  { split; [|done]. split; [done|]. eauto. }
  simpl. destruct (process_step_keeps_async_errors op p Hfresh) as [[Hn1 Hk1] Hf1].
  destruct (IH _ Hf1) as [[Hn2 Hk2] Hf2]. split; [|done].
  split; [lia|]. intros c co' Hc Hco'.
  destruct (Hk2 c co' ltac:(lia) Hco') as (co1 & Hco1 & He1).
  destruct (Hk1 c co1 Hc Hco1) as (co & Hco & He). exists co. split; [done|]. congruence.
Qed.

(** * The weak references of the processes that the operations build *)

Lemma wf_process_weaken (p p' : Process) :
  wf_process p →
  s_coordinators_per_path p' ⊆ s_coordinators_per_path p →
  realms p' = realms p →
  next_object p' = next_object p →
  (∀ (c : CoordId) co', coordinators p' !! c = Some co' →
     ∃ co, coordinators p !! c = Some co
           ∧ m_weak_realm_notifiers co' `sublist_of` m_weak_realm_notifiers co) →
  wf_process p'.
Proof.
  intros ([Hinj Hweak] & Hreg & Hrealms) Hsub Hr Hn Hheap. split_and!.
  - split.
    + intros path1 path2 c H1 H2. apply (Hinj path1 path2 c); by eapply lookup_weaken.
    + intros c co' Hco'. destruct (Hheap c co' Hco') as (co & Hco & Hsl).
      destruct (Hweak c co Hco) as [Hnd Hb]. split.
      * eapply sublist_NoDup; [exact Hnd|]. by apply fmap_sublist.
      * intros n Hn'. rewrite Hr. apply Hb. by eapply elem_of_sublist.
  - intros path c Hc. rewrite Hn. eapply Hreg. by eapply lookup_weaken.
  - intros r. rewrite Hr, Hn. apply Hrealms.
Qed.

Lemma wf_process_initial : wf_process Process_initial.
Proof.
  split_and!; [split|..]; simpl.
  - intros path1 path2 c H. by rewrite lookup_empty in H.
  - intros c co H. by rewrite lookup_empty in H.
  - intros path c H. by rewrite lookup_empty in H.
  - intros r [x H]. by rewrite lookup_empty in H.
Qed.

Lemma make_coordinator_wf path (p : Process) :
  wf_process p → wf_process (make_coordinator path p).2.
Proof.
  intros ([Hinj Hweak] & Hreg & Hrealms). unfold make_coordinator. simpl.
  split_and!; [split|..]; simpl.
  - intros path1 path2 c H1 H2.
    apply lookup_insert_Some in H1 as [[<- <-]|[Hne1 H1]];
      apply lookup_insert_Some in H2 as [[<- H2]|[Hne2 H2]]; try done.
    + apply Hreg in H2. lia.
    + subst c. apply Hreg in H1. lia.
    + by apply (Hinj path1 path2 c).
  - intros c co Hco. apply lookup_insert_Some in Hco as [[<- <-]|[Hne Hco]].
    + split; [constructor|]. intros n Hn. by apply elem_of_nil in Hn.
    + by apply Hweak.
  - intros path' c Hc. apply lookup_insert_Some in Hc as [[_ <-]|[_ Hc]]; [lia|].
    apply Hreg in Hc. lia.
  - intros r Hr. apply Hrealms in Hr. lia.
Qed.

Lemma get_coordinator_wf path (p : Process) :
  wf_process p → wf_process (get_coordinator path p).2.
Proof.
  intros Hwf. unfold get_coordinator.
  destruct (s_coordinators_per_path p !! path) as [w|]; [|by apply make_coordinator_wf].
  destruct (coordinator_alive p w); [done|by apply make_coordinator_wf].
Qed.

Lemma release_coordinator_wf c (p : Process) :
  wf_process p → wf_process (release_coordinator c p).
Proof.
  intros Hwf. apply (wf_process_weaken p); [done| |done|done|].
  - unfold release_coordinator, RealmCoordinator_destructor. simpl.
    apply map_filter_subseteq.
  - intros c' co'. simpl. intros [_ Hco']%lookup_delete_Some. by exists co'.
Qed.

Lemma unregister_realm_wf this realm (p : Process) :
  wf_process p → wf_process (unregister_realm this realm p).
Proof.
  intros Hwf. apply (wf_process_weaken p); [done|done|done|done|].
  intros c co'. unfold unregister_realm. cbn [coordinators set_coordinators].
  intros Hco'. apply lookup_alter_Some in Hco' as [(-> & co & Hco & ->)|[_ Hco']].
  - exists co. split; [done|]. simpl. apply sublist_filter.
  - by exists co'.
Qed.

Lemma Realm_close_wf realm (p : Process) :
  wf_process p → wf_process (Realm_close realm p).
Proof.
  intros Hwf. unfold Realm_close.
  assert (Hwf' : wf_process (set_calls (calls p ++ [EvClose realm]) p)).
  { apply (wf_process_weaken p); [done..|]. intros c co' Hco'. by exists co'. }
  cbv zeta. destruct (realms _ !! realm); [|done]. by apply unregister_realm_wf.
Qed.

Lemma close_all_wf (to_close : list RealmId) (p : Process) :
  wf_process p → wf_process (close_all to_close p).
Proof.
  revert p. induction to_close as [|r R IH]; intros p Hwf; [done|].
  rewrite close_all_cons. destruct (realm_alive p r); [|by apply IH].
  by apply IH, Realm_close_wf.
Qed.

Lemma clear_cache_wf (p : Process) : wf_process p → wf_process (clear_cache p).
Proof.
  intros Hwf. rewrite clear_cache_unfold.
  destruct (clear_cache_visit_fold p (map_to_list (s_coordinators_per_path p))
              (coordinators p, [])) as [_ Hheap].
  cbv zeta. set (res := foldl _ _ _) in *.
  apply close_all_wf, (wf_process_weaken p); [done| |done|done|].
  - apply map_empty_subseteq.
  - intros c co'. cbn [coordinators set_registry set_coordinators].
    rewrite Hheap. cbn [fst].
    destruct (decide _), (coordinators p !! c) as [co|]; simpl; intros [= <-];
      by exists co.
Qed.

Lemma clear_all_caches_wf (p : Process) :
  wf_process p → wf_process (clear_all_caches p).
Proof.
  unfold clear_all_caches. generalize ((map_to_list (s_coordinators_per_path p)).*2).
  intros to_clear. revert p. induction to_clear as [|w to_clear IH]; intros p Hwf; [done|].
  simpl. destruct (coordinator_alive p w); [|by apply IH].
  by apply IH, clear_cache_wf.
Qed.

Lemma keeps_wf_bind {A B} (m : M Process A) (f : A → M Process B) :
  keeps_wf m → (∀ a, keeps_wf (f a)) → keeps_wf (m ≫= f).
Proof.
  intros Hm Hf p Hwf. unfold mbind, M_bind. specialize (Hm p Hwf).
  destruct (m p) as [a p1|e p1|]; [|done|done]. by apply Hf.
Qed.

Lemma keeps_wf_ret {A} (a : A) : keeps_wf (mret a).
Proof. by intros p Hwf. Qed.

Lemma keeps_wf_throw {A} (e : Exception) : keeps_wf (throw (A := A) e).
Proof. by intros p Hwf. Qed.

Lemma keeps_wf_get_state : keeps_wf get_state.
Proof. by intros p Hwf. Qed.

Lemma keeps_wf_this_coordinator this : keeps_wf (this_coordinator this).
Proof. intros p Hwf. unfold this_coordinator. by destruct (coordinators p !! this). Qed.

Lemma keeps_wf_update_this this (f : RealmCoordinator → RealmCoordinator) :
  (∀ c, m_weak_realm_notifiers (f c) = m_weak_realm_notifiers c) →
  keeps_wf (update_this this f).
Proof.
  intros Hf p Hwf. unfold update_this, modify_state.
  apply (wf_process_weaken p); [done..|].
  intros c co'. cbn [coordinators set_coordinators].
  intros Hco'. apply lookup_alter_Some in Hco' as [(-> & co & Hco & ->)|[_ Hco']].
  - exists co. by rewrite Hf.
  - by exists co'.
Qed.

Lemma keeps_wf_verify_config m_config config :
  keeps_wf (verify_config m_config config).
Proof.
  intros p Hwf. unfold verify_config.
  repeat (destruct (negb _); [done|]).
  by destruct (_ && _).
Qed.

Lemma keeps_wf_open_new_realm this config :
  keeps_wf (open_new_realm this config).
Proof.
  intros p ([Hinj Hweak] & Hreg & Hrealms). unfold open_new_realm.
  destruct (realm_init_error p); [done|].
  destruct (coordinators p !! this) as [co|] eqn:Hco; [|done].
  assert (Hold : ∀ c co0 n, coordinators p !! c = Some co0 →
            n ∈ m_weak_realm_notifiers co0 → wrn_realm n < next_object p).
  { intros c co0 n Hco0 Hn. destruct (Hweak c co0 Hco0) as [_ Hb].
    destruct (Hb n Hn) as (r & Hr & _). apply Hrealms. by rewrite Hr. }
  split_and!; [split|..]; simpl.
  - done.
  - intros c co' Hco'. apply lookup_insert_Some in Hco' as [[<- <-]|[Hne Hco']].
    + destruct (Hweak this co Hco) as [Hnd Hb]. split.
      * simpl. rewrite fmap_app. apply NoDup_app. split_and!; [done| |].
        -- intros r Hr Hr'. apply list_elem_of_singleton in Hr'. simpl in Hr'.
           apply list_elem_of_fmap in Hr as (n & -> & Hn).
           specialize (Hold this co n Hco Hn). lia.
        -- apply NoDup_singleton.
      * simpl. intros n Hn. apply elem_of_app in Hn as [Hn|Hn].
        -- rewrite lookup_insert_ne; [by apply Hb|].
           specialize (Hold this co n Hco Hn). lia.
        -- apply list_elem_of_singleton in Hn as ->. simpl.
           rewrite lookup_insert_eq. by eexists.
    + destruct (Hweak c co' Hco') as [Hnd Hb]. split; [done|].
      intros n Hn. rewrite lookup_insert_ne; [by apply Hb|].
      specialize (Hold c co' n Hco' Hn). lia.
  - intros path c Hc. apply Hreg in Hc. lia.
  - intros r [x Hr]. apply lookup_insert_Some in Hr as [[<- _]|[_ Hr]]; [lia|].
    assert (r < next_object p) by (apply Hrealms; eauto). lia.
Qed.

Lemma keeps_wf_get_realm this config : keeps_wf (get_realm this config).
Proof.
  unfold get_realm.
  apply keeps_wf_bind; [apply keeps_wf_this_coordinator|]. intros c.
  apply keeps_wf_bind.
  - destruct (first_substantive_open c); [|apply keeps_wf_verify_config].
    apply keeps_wf_bind; [by apply keeps_wf_update_this|]. intros _.
    destruct (_ && _); [|apply keeps_wf_ret].
    apply keeps_wf_bind; [apply keeps_wf_get_state|]. intros p.
    destruct (commit_helper_error p); [apply keeps_wf_throw|].
    by apply keeps_wf_update_this.
  - intros _.
    apply keeps_wf_bind; [apply keeps_wf_this_coordinator|]. intros c'.
    apply keeps_wf_bind; [apply keeps_wf_get_state|]. intros p.
    destruct (if cache config then _ else _);
      [apply keeps_wf_ret|apply keeps_wf_open_new_realm].
Qed.

Lemma process_step_wf (op : ProcessOp) (p : Process) :
  wf_process p → wf_process (process_step p op).
Proof.
  intros Hwf. destruct op as [path|path|c|this config|this realm|realm| |]; simpl.
  - by apply get_coordinator_wf.
  - done.
  - destruct (coordinator_alive p c); [|done]. by apply release_coordinator_wf.
  - pose proof (keeps_wf_get_realm this config p Hwf) as H. unfold returned.
    by destruct (get_realm this config p).
  - by apply unregister_realm_wf.
  - destruct (realm_alive p realm); [|done]. by apply Realm_close_wf.
  - by apply clear_cache_wf.
  - by apply clear_all_caches_wf.
Qed.

(** Every process that the operations build from the initial one has its
    weak references in order. *)
Lemma run_process_wf_handles (ops : list ProcessOp) :
  wf_handles (run_process ops Process_initial).
Proof.
  assert (H : ∀ p, wf_process p → wf_process (run_process ops p)).
  { unfold run_process. induction ops as [|op ops IH]; intros p Hwf; [done|].
    simpl. by apply IH, process_step_wf. }
  apply (H _ wf_process_initial).
Qed.

Lemma run_process_wf_process (ops : list ProcessOp) (p : Process) :
  wf_process p → wf_process (run_process ops p).
Proof.
  unfold run_process. revert p. induction ops as [|op ops IH]; intros p Hwf; [done|].
  simpl. by apply IH, process_step_wf.
Qed.

(** X18: in every process that the operations on the registry and on
    handles build from the empty one, a coordinator is registered under one
    path only, it holds at most one weak reference to a handle, every weak
    reference is to a live handle that was opened through that very
    coordinator, and the identities in use are below the next one to be
    handed out. *)
Theorem reachable_weak_references (ops : list ProcessOp) :
  wf_process (run_process ops Process_initial).
Proof. apply run_process_wf_process, wf_process_initial. Qed.

(** * The latched error *)

Section Latched_error.
Context {C : Type}.
Variable merge : C → C → C.
Variable table_log : N → N → list C.
Variable list_log : N → N → ListChangeInfo → C.
Variable deliver : BackgroundCollection → SharedGroup → option Exception → bool.

(** C2: once [m_async_error] is set, no sequence of calls on the
    coordinator clears or replaces it; [pin_version] returns at once and
    changes nothing; [run_async_notifiers], when a notifier is left after
    the reaping of dead ones, moves every staged notifier behind the
    active ones and returns, and no event of the call opens a transaction,
    begins a read or advances one; when every notifier is alive the
    reaping changes nothing; [register_notifier] returns normally with the
    notifier appended to [m_new_notifiers]; and no call on a handle or on
    the registry changes the error latched in a coordinator that is still
    alive afterwards. *)
Theorem async_error_latched (w : World C) (e : Exception) :
  m_async_error (coordinator w) = Some e →
  (∀ ks w', run_calls merge table_log list_log deliver ks w = Some w' →
            m_async_error (coordinator w') = Some e)
  ∧ (∀ v i, pin_version v i w = Returned tt w)
  ∧ (let w1 := clean_up_dead_notifiers w in
     is_empty (m_notifiers (coordinator w1))
       && is_empty (m_new_notifiers (coordinator w1)) = false →
     run_async_notifiers merge table_log list_log w
       = Returned None (update_coordinator drain_new_notifiers w1)
     ∧ ∃ es, trace (update_coordinator drain_new_notifiers w1) = trace w ++ es
             ∧ Forall (λ ev, opens_or_advances ev = false) es)
  ∧ (Forall (λ n, is_alive n = true) (m_notifiers (coordinator w)) →
     Forall (λ n, is_alive n = true) (m_new_notifiers (coordinator w)) →
     clean_up_dead_notifiers w = w)
  ∧ (∀ n, register_notifier n w
          = Returned tt
              (update_coordinator
                 (λ c, set_m_new_notifiers (m_new_notifiers c ++ [n]) c) w))
  ∧ (∀ (p : Process) (this : CoordId) co ops co',
       fresh_ids p → coordinators p !! this = Some co →
       m_async_error co = Some e →
       coordinators (run_process ops p) !! this = Some co' →
       m_async_error co' = Some e).
Proof.
  intros He. assert (Hs : is_Some (m_async_error (coordinator w))) by eauto.
  split_and!.
  - intros ks w'. by eapply run_calls_async_error.
  - intros v i. by apply pin_version_latched.
  - intros w1 Hne. rewrite (run_async_notifiers_latched merge table_log list_log w Hs). simpl.
    fold w1. rewrite Hne. split; [done|]. apply clean_up_trace.
  - apply clean_up_all_alive.
  - intros n. unfold register_notifier. unfold_M.
    by rewrite (pin_version_latched _ _ _ Hs).
  - intros p this co ops co' Hfresh Hco Herr Hco'.
    destruct (run_process_keeps_async_errors ops p Hfresh) as [[_ Hk] _].
    destruct (Hk this co' (Hfresh this (mk_is_Some _ _ Hco)) Hco') as (co0 & Hco0 & ->).
    congruence.
Qed.
End Latched_error.


Lemma async_error_latched_witness :
  pin_version 5 0 example_world_latched = Returned tt example_world_latched
  ∧ register_notifier (example_notifier 2 5 true) example_world_latched
    = Returned tt
        (update_coordinator
           (λ c, set_m_new_notifiers (m_new_notifiers c ++ [example_notifier 2 5 true]) c)
           example_world_latched).
Proof.
  destruct (async_error_latched app example_table_log example_list_log example_deliver
              example_world_latched (other_exception "I/O error") eq_refl)
    as (_ & Hpin & _ & _ & Hreg & _).
  split; [apply Hpin | apply Hreg].
Defined.

(** * Further properties of the registry and of the handle cache *)

(** ** Looking a coordinator up *)

Lemma coordinator_alive_release (c w : CoordId) (p : Process) :
  coordinator_alive (set_coordinators (delete c (coordinators p)) p) w
  = coordinator_alive p w && negb (bool_decide (w = c)).
Proof.
  unfold coordinator_alive. cbn [coordinators set_coordinators].
  destruct (decide (w = c)) as [->|Hne].
  - rewrite lookup_delete_eq, (bool_decide_eq_true_2 (c = c)) by done.
    rewrite andb_false_r. apply bool_decide_eq_false. by intros [? ?].
  - rewrite lookup_delete_ne by done.
    rewrite (bool_decide_eq_false_2 (w = c)) by done. by rewrite andb_true_r.
Qed.

Lemma lookup_filter_alive (q : Process) (m : gmap string CoordId) (path : string) :
  filter (λ kv : string * CoordId, coordinator_alive q kv.2) m !! path
  = match m !! path with
    | Some w => if coordinator_alive q w then Some w else None
    | None => None
    end.
Proof.
  destruct (m !! path) as [w|] eqn:Hw.
  - destruct (coordinator_alive q w) eqn:Hq.
    + apply map_lookup_filter_Some. split; [done|]. simpl. by rewrite Hq.
    + apply map_lookup_filter_None. right. intros w' Hw'. simpl.
      rewrite Hw in Hw'. injection Hw' as <-. rewrite Hq. intros [].
  - apply map_lookup_filter_None. by left.
Qed.

(** X1: [get_existing_coordinator] finds the coordinator that
    [get_coordinator] has just returned for the same path, finds nothing for
    a path that is not in the registry, and after the last reference to a
    coordinator is dropped it finds what it found before, except that
    coordinator. *)
Theorem get_existing_coordinator_finds (path : string) (c : CoordId) (p : Process) :
  get_existing_coordinator path (get_coordinator path p).2
    = Some (get_coordinator path p).1
  ∧ (s_coordinators_per_path p !! path = None → get_existing_coordinator path p = None)
  ∧ get_existing_coordinator path (release_coordinator c p)
    = match get_existing_coordinator path p with
      | Some c' => if bool_decide (c' = c) then None else Some c'
      | None => None
      end.
Proof.
  split_and!.
  - unfold get_coordinator, get_existing_coordinator.
    assert (Hmake : ∀ q,
      match s_coordinators_per_path (make_coordinator path q).2 !! path with
      | Some w => if coordinator_alive (make_coordinator path q).2 w then Some w else None
      | None => None
      end = Some (make_coordinator path q).1).
    { intros q. unfold make_coordinator, coordinator_alive. simpl.
      rewrite !lookup_insert_eq. by rewrite bool_decide_eq_true_2 by eauto. }
    destruct (s_coordinators_per_path p !! path) as [w|] eqn:Hw; [|apply Hmake].
    destruct (coordinator_alive p w) eqn:Ha; [|apply Hmake].
    simpl. by rewrite Hw, Ha.
  - unfold get_existing_coordinator. by intros ->.
  - unfold get_existing_coordinator, release_coordinator, RealmCoordinator_destructor.
    cbn [s_coordinators_per_path set_registry].
    set (q := set_coordinators (delete c (coordinators p)) p).
    rewrite lookup_filter_alive.
    change (s_coordinators_per_path q) with (s_coordinators_per_path p).
    destruct (s_coordinators_per_path p !! path) as [w|]; [|done].
    pose proof (coordinator_alive_release c w p) as Hq. fold q in Hq.
    destruct (coordinator_alive q w) eqn:Hqw.
    + change (coordinator_alive (set_registry _ q) w) with (coordinator_alive q w).
      rewrite Hqw. symmetry in Hq. apply andb_true_iff in Hq as [-> Hwc].
      by destruct (bool_decide (w = c)).
    + destruct (coordinator_alive p w); [|done].
      by destruct (bool_decide (w = c)).
Qed.

(** ** Opening handles *)

Lemma alter_present {A} (f : A → A) (m : gmap nat A) (i : nat) (x : A) :
  m !! i = Some x → alter f i m = <[i := f x]> m.
Proof.
  intros Hx. apply map_eq. intros j. destruct (decide (i = j)) as [->|Hne].
  - by rewrite lookup_alter_eq, lookup_insert_eq, Hx.
  - by rewrite lookup_alter_ne, lookup_insert_ne.
Qed.

Lemma with_coordinator_same (this : CoordId) (c : RealmCoordinator) (p : Process) :
  coordinators p !! this = Some c → with_coordinator this c p = p.
Proof.
  intros Hc. unfold with_coordinator, set_coordinators.
  rewrite insert_id by done. by destruct p.
Qed.

Lemma with_coordinator_twice this c1 c2 (p : Process) :
  with_coordinator this c2 (with_coordinator this c1 p) = with_coordinator this c2 p.
Proof.
  unfold with_coordinator, set_coordinators. simpl. by rewrite insert_insert_eq.
Qed.

Lemma update_with_coordinator this (g : RealmCoordinator → RealmCoordinator) c1
    (p : Process) :
  set_coordinators (alter g this (coordinators (with_coordinator this c1 p)))
    (with_coordinator this c1 p)
  = with_coordinator this (g c1) p.
Proof.
  unfold with_coordinator, set_coordinators. simpl.
  rewrite (alter_present _ _ _ c1) by apply lookup_insert_eq.
  by rewrite insert_insert_eq.
Qed.

Lemma config_mismatch_refl (config : Config) : ¬ config_mismatch config config.
Proof. unfold config_mismatch. tauto. Qed.

Lemma get_realm_lookup_eq this config (p : Process) c :
  coordinators p !! this = Some c →
  get_realm_lookup this config p
  = match (if cache config then find_cached_realm p (m_weak_realm_notifiers c)
           else None) with
    | Some realm => Returned realm p
    | None => open_new_realm this config p
    end.
Proof.
  intros Hc. unfold get_realm_lookup, mbind, M_bind, this_coordinator, get_state.
  rewrite Hc. by destruct (if cache config then _ else _).
Qed.

(** [get_realm] on a coordinator that has adopted no configuration yet. *)
Lemma get_realm_first (this : CoordId) (config : Config) (p : Process)
    (c : RealmCoordinator) :
  coordinators p !! this = Some c →
  first_substantive_open c = true →
  get_realm this config p =
    if negb (read_only config) && negb (bool_decide (is_Some (m_notifier c)))
       && automatic_change_notifications config
    then
      match commit_helper_error p with
      | Some message =>
          Thrown (RealmFileException_AccessError (path config) message)
            (with_coordinator this (set_m_config config c) p)
      | None =>
          get_realm_lookup this config
            (with_coordinator this
               (set_m_notifier (Some mkExternalCommitHelper) (set_m_config config c)) p)
      end
    else get_realm_lookup this config (with_coordinator this (set_m_config config c) p).
Proof.
  intros Hc Hf.
  unfold get_realm, get_realm_lookup, mbind, M_bind, this_coordinator, get_state,
    update_this, modify_state, throw, mret, M_ret.
  rewrite Hc, Hf. cbn [coordinators set_coordinators].
  rewrite (alter_present _ _ _ _ Hc).
  change (set_coordinators (<[this:=set_m_config config c]> (coordinators p)) p)
    with (with_coordinator this (set_m_config config c) p).
  destruct (negb (read_only config) && _ && _); [|reflexivity].
  change (commit_helper_error (with_coordinator this (set_m_config config c) p))
    with (commit_helper_error p).
  destruct (commit_helper_error p) as [message|]; [done|].
  cbv beta. by rewrite update_with_coordinator.
Qed.

(** [get_realm] is its configuration phase, which replaces the coordinator
    object and leaves its weak references alone, followed by the lookup. *)
Lemma get_realm_phases (this : CoordId) (config : Config) (p : Process)
    (c : RealmCoordinator) :
  coordinators p !! this = Some c →
  ∃ c0, m_weak_realm_notifiers c0 = m_weak_realm_notifiers c
    ∧ m_config c0 = (if first_substantive_open c then config else m_config c)
    ∧ ((get_realm this config p = get_realm_lookup this config (with_coordinator this c0 p)
        ∧ settled c0 config)
       ∨ ∃ e, get_realm this config p = Thrown e (with_coordinator this c0 p)).
Proof.
  intros Hc. destruct (first_substantive_open c) eqn:Hf.
  - rewrite (get_realm_first _ _ _ _ Hc Hf).
    destruct (negb (read_only config) && negb (bool_decide (is_Some (m_notifier c)))
              && automatic_change_notifications config) eqn:Hcreate.
    + destruct (commit_helper_error p) as [message|].
      * exists (set_m_config config c). split_and!; [done|done|]. right. eauto.
      * eexists. split_and!; [| |left; split; [reflexivity|]]; [done|done|].
        unfold settled. simpl.
        destruct (first_substantive_open (set_m_notifier _ _)).
        -- split; [done|]. simpl. by rewrite !andb_false_r.
        -- apply config_mismatch_refl.
    + exists (set_m_config config c). split_and!; [done|done|]. left. split; [done|].
      unfold settled.
      destruct (first_substantive_open (set_m_config config c)) eqn:Hf'.
      * split; [done|]. exact Hcreate.
      * apply config_mismatch_refl.
  - exists c. split_and!; [done|done|].
    rewrite (with_coordinator_same _ _ _ Hc).
    rewrite (get_realm_not_first _ _ _ _ Hc Hf).
    destruct (decide (config_mismatch (m_config c) config)) as [Hm|Hm].
    + destruct (verify_config_throws _ _ p Hm) as (m & -> & _). right. eauto.
    + rewrite (verify_config_ok _ _ p Hm). left. split.
      * by rewrite (get_realm_lookup_eq _ _ _ _ Hc).
      * unfold settled. by rewrite Hf.
Qed.

(** When the configuration phase has nothing to do, [get_realm] is the
    lookup. *)
Lemma get_realm_settled (this : CoordId) (config : Config) (p : Process)
    (c : RealmCoordinator) :
  coordinators p !! this = Some c → settled c config →
  get_realm this config p = get_realm_lookup this config p.
Proof.
  intros Hc Hs. unfold settled in Hs.
  destruct (first_substantive_open c) eqn:Hf.
  - destruct Hs as [Hcfg Hcreate].
    rewrite (get_realm_first _ _ _ _ Hc Hf), Hcreate.
    replace (set_m_config config c) with c by (subst config; by destruct c).
    by rewrite (with_coordinator_same _ _ _ Hc).
  - rewrite (get_realm_not_first _ _ _ _ Hc Hf), (verify_config_ok _ _ p Hs).
    by rewrite (get_realm_lookup_eq _ _ _ _ Hc).
Qed.

Lemma find_cached_realm_Some (p : Process) l r :
  find_cached_realm p l = Some r →
  ∃ n, n ∈ l ∧ wrn_realm n = r ∧ is_cached_for_current_thread p n = true
       ∧ realm_alive p r = true.
Proof.
  induction l as [|n l IH]; simpl; [done|].
  destruct (is_cached_for_current_thread p n) eqn:Hc; simpl.
  - destruct (realm_alive p (wrn_realm n)) eqn:Ha.
    + intros [= <-]. exists n. split_and!; [left|done..].
    + intros H. destruct (IH H) as (n' & ? & ? & ? & ?). exists n'.
      split_and!; [by right|done..].
  - intros H. destruct (IH H) as (n' & ? & ? & ? & ?). exists n'.
    split_and!; [by right|done..].
Qed.

(** What the lookup returns: a cached handle, the state being left as it
    is, or a new handle. *)
Lemma get_realm_lookup_returned this config (p : Process) c r p' :
  coordinators p !! this = Some c →
  get_realm_lookup this config p = Returned r p' →
  (cache config = true ∧ find_cached_realm p (m_weak_realm_notifiers c) = Some r
   ∧ p' = p)
  ∨ ((cache config = false ∨ find_cached_realm p (m_weak_realm_notifiers c) = None)
     ∧ r = next_object p ∧ p' = with_new_realm this config c p).
Proof.
  intros Hc. rewrite (get_realm_lookup_eq _ _ _ _ Hc).
  assert (Hopen : open_new_realm this config p = Returned r p' →
                  r = next_object p ∧ p' = with_new_realm this config c p).
  { unfold open_new_realm. rewrite Hc.
    destruct (realm_init_error p) eqn:Hi; [done|].
    intros [= <- <-]. split; [done|]. unfold with_new_realm. by rewrite Hi. }
  destruct (cache config) eqn:Hcache.
  - destruct (find_cached_realm p (m_weak_realm_notifiers c)) as [r0|] eqn:Hfind.
    + intros [= <- <-]. by left.
    + intros H. right. destruct (Hopen H). auto.
  - intros H. right. destruct (Hopen H). auto.
Qed.

Lemma get_realm_lookup_no_mismatch this config (q : Process) m s :
  get_realm_lookup this config q ≠ Thrown (MismatchedConfigException m) s.
Proof.
  unfold get_realm_lookup, mbind, M_bind, this_coordinator, get_state.
  destruct (coordinators q !! this); [|done].
  destruct (if cache config then _ else _); [done|].
  apply open_new_realm_no_mismatch.
Qed.

Lemma get_realm_first_no_mismatch this config (p : Process) c m s :
  coordinators p !! this = Some c →
  first_substantive_open c = true →
  get_realm this config p ≠ Thrown (MismatchedConfigException m) s.
Proof.
  intros Hc Hf. rewrite (get_realm_first _ _ _ _ Hc Hf).
  destruct (_ && _ && _); [|apply get_realm_lookup_no_mismatch].
  destruct (commit_helper_error p); [done|apply get_realm_lookup_no_mismatch].
Qed.

(** X2: on a coordinator that has adopted no configuration yet, [get_realm]
    accepts any configuration: it never throws [MismatchedConfigException],
    and when it returns the configuration is the stored one and a commit
    notifier has been created exactly when it had to be.  When the commit
    notifier cannot be created, the call throws an access error that names
    the path and the reason, the configuration has been stored all the
    same, no handle has been opened, and the coordinator is still without an
    adopted configuration. *)
Theorem get_realm_first_open (this : CoordId) (config : Config) (p : Process)
    (c : RealmCoordinator) :
  coordinators p !! this = Some c →
  first_substantive_open c = true →
  (∀ m s, get_realm this config p ≠ Thrown (MismatchedConfigException m) s)
  ∧ (∀ message, creates_commit_helper c config = true →
       commit_helper_error p = Some message →
       get_realm this config p
       = Thrown (RealmFileException_AccessError (path config) message)
           (with_coordinator this (set_m_config config c) p)
       ∧ first_substantive_open (set_m_config config c) = true)
  ∧ (∀ r p', get_realm this config p = Returned r p' →
       ∃ c', coordinators p' !! this = Some c'
             ∧ m_config c' = config
             ∧ m_notifier c' = if creates_commit_helper c config
                                then Some mkExternalCommitHelper else m_notifier c).
Proof.
  intros Hc Hf. rewrite (get_realm_first _ _ _ _ Hc Hf).
  fold (creates_commit_helper c config).
  assert (Hlookup : ∀ c0 r p',
            get_realm_lookup this config (with_coordinator this c0 p) = Returned r p' →
            ∃ c', coordinators p' !! this = Some c'
                  ∧ m_config c' = m_config c0 ∧ m_notifier c' = m_notifier c0).
  { intros c0 r p' H.
    apply (get_realm_lookup_returned _ _ _ c0) in H; [|apply lookup_insert_eq].
    destruct H as [(_ & _ & ->)|(_ & _ & ->)].
    - exists c0. split; [apply lookup_insert_eq|done].
    - eexists. split; [apply lookup_insert_eq|done]. }
  assert (Hno : ∀ q m s,
            get_realm_lookup this config q ≠ Thrown (MismatchedConfigException m) s).
  { intros q m s. apply get_realm_lookup_no_mismatch. }
  destruct (creates_commit_helper c config) eqn:Hcreate.
  - destruct (commit_helper_error p) as [message|] eqn:He.
    + split_and!; [done| |done].
      intros message' _ [= <-]. split; [done|].
      unfold creates_commit_helper in Hcreate.
      apply andb_true_iff in Hcreate as [Hcreate _].
      apply andb_true_iff in Hcreate as [Hro Hn].
      unfold first_substantive_open. simpl. by rewrite Hro, Hn.
    + split_and!; [apply Hno|done|].
      intros r p' H. destruct (Hlookup _ _ _ H) as (c' & ? & ? & ?). by exists c'.
  - split_and!; [apply Hno|done|].
    intros r p' H. destruct (Hlookup _ _ _ H) as (c' & ? & ? & ?). by exists c'.
Qed.

Lemma get_realm_first_open_witness :
  get_realm 0 (example_config false)
    (mkProcess {["P" := 0]} {[0 := RealmCoordinator_new]} ∅ {[0 := "P"]} 1 0
       (Some "Too many open files") None [])
  = Thrown (RealmFileException_AccessError "P" "Too many open files")
      (with_coordinator 0 (set_m_config (example_config false) RealmCoordinator_new)
         (mkProcess {["P" := 0]} {[0 := RealmCoordinator_new]} ∅ {[0 := "P"]} 1 0
            (Some "Too many open files") None [])).
Proof.
  apply (get_realm_first_open 0 (example_config false)
           (mkProcess {["P" := 0]} {[0 := RealmCoordinator_new]} ∅ {[0 := "P"]} 1 0
              (Some "Too many open files") None [])
           RealmCoordinator_new); reflexivity.
Defined.

Lemma find_cached_realm_ext (p p' : Process) l :
  current_thread p' = current_thread p →
  (∀ n, n ∈ l → realm_alive p' (wrn_realm n) = realm_alive p (wrn_realm n)) →
  find_cached_realm p' l = find_cached_realm p l.
Proof.
  intros Ht. induction l as [|n l IH]; intros Ha; simpl; [done|].
  unfold is_cached_for_current_thread. rewrite Ht, (Ha n) by left.
  rewrite IH; [done|]. intros n' Hn'. apply Ha. by right.
Qed.

(** X3: when [get_realm] returns, the registry, the calls made and the
    other coordinators are as before, and one of two things has happened.
    Either [config.cache] is set and the handle is the first one in the
    coordinator's list that is marked as cached, is for the calling thread
    and is alive: then no handle is opened and the list of weak references
    is left as it is.  Or no such handle is found, or [config.cache] is not
    set: then the handle is a new one, bound to this coordinator and the
    calling thread, the handles already open are untouched, and exactly one
    weak reference is appended to the list, for the calling thread and
    marked with the [cache] flag of the stored configuration, not with
    that of the caller.  So a handle opened on another thread is never
    handed out. *)
Theorem get_realm_hands_out_own_thread (this : CoordId) (config : Config)
    (p p' : Process) (r : RealmId) :
  get_realm this config p = Returned r p' →
  ∃ c c',
    coordinators p !! this = Some c
    ∧ coordinators p' !! this = Some c'
    ∧ m_config c' = (if first_substantive_open c then config else m_config c)
    ∧ s_coordinators_per_path p' = s_coordinators_per_path p
    ∧ calls p' = calls p
    ∧ current_thread p' = current_thread p
    ∧ (∀ c, c ≠ this → coordinators p' !! c = coordinators p !! c)
    ∧ realm_alive p' r = true
    ∧ (∃ n, n ∈ m_weak_realm_notifiers c' ∧ wrn_realm n = r
            ∧ wrn_thread n = current_thread p)
    ∧ ((cache config = true
        ∧ find_cached_realm p (m_weak_realm_notifiers c) = Some r
        ∧ (∃ n, n ∈ m_weak_realm_notifiers c ∧ wrn_realm n = r
                ∧ wrn_cache n = true ∧ wrn_thread n = current_thread p)
        ∧ realm_alive p r = true
        ∧ m_weak_realm_notifiers c' = m_weak_realm_notifiers c
        ∧ realms p' = realms p
        ∧ next_object p' = next_object p)
       ∨ ((cache config = false
           ∨ find_cached_realm p (m_weak_realm_notifiers c) = None)
          ∧ r = next_object p
          ∧ m_weak_realm_notifiers c'
            = m_weak_realm_notifiers c
              ++ [mkWeakRealmNotifier r (current_thread p) (cache (m_config c'))]
          ∧ realms p' = <[r := mkRealm config this (current_thread p)]> (realms p)
          ∧ next_object p' = S r)).
Proof.
  intros Hget.
  destruct (coordinators p !! this) as [c|] eqn:Hc.
  2:{ unfold get_realm, mbind, M_bind, this_coordinator in Hget. by rewrite Hc in Hget. }
  destruct (get_realm_phases this config p c Hc)
    as (c0 & Hweak & Hcfg & [[Heq _]|[e Heq]]);
    rewrite Heq in Hget; [|done].
  apply (get_realm_lookup_returned _ _ _ c0) in Hget; [|apply lookup_insert_eq].
  rewrite Hweak in Hget.
  assert (Hfind : find_cached_realm (with_coordinator this c0 p) (m_weak_realm_notifiers c)
                  = find_cached_realm p (m_weak_realm_notifiers c)).
  { by apply find_cached_realm_ext. }
  rewrite Hfind in Hget.
  destruct Hget as [(Hcache & Hfound & ->)|(Hnone & -> & ->)].
  - pose proof Hfound as Hn.
    apply find_cached_realm_Some in Hn as (n & Hn & Hr & Hthread & Halive).
    unfold is_cached_for_current_thread in Hthread.
    apply andb_true_iff in Hthread as [Hcached Hthread].
    apply bool_decide_eq_true in Hthread.
    exists c, c0. split_and!; try done.
    + apply lookup_insert_eq.
    + intros c' Hne. simpl. by rewrite lookup_insert_ne.
    + exists n. by rewrite Hweak.
    + left. split_and!; try done. by exists n.
  - exists c. eexists. split; [done|]. split; [apply lookup_insert_eq|].
    split_and!; try done.
    + intros c' Hne. simpl. by rewrite !lookup_insert_ne.
    + unfold realm_alive. simpl. rewrite lookup_insert_eq.
      by apply bool_decide_eq_true.
    + eexists. split; [simpl; apply elem_of_app; right; by apply list_elem_of_singleton|].
      done.
    + right. simpl. split_and!; try done. by rewrite Hweak.
Qed.

Lemma get_realm_hands_out_own_thread_witness :
  ∃ c', coordinators example_process_two_handles !! 0 = Some c'
        ∧ m_weak_realm_notifiers c'
          = [mkWeakRealmNotifier 1 0 true; mkWeakRealmNotifier 2 1 true]
        ∧ realm_alive example_process_two_handles 2 = true.
Proof.
  destruct (get_realm_hands_out_own_thread 0 (example_config false)
              (mkProcess (s_coordinators_per_path example_process)
                 (coordinators example_process) (realms example_process)
                 (created_for example_process) (next_object example_process) 1
                 (commit_helper_error example_process)
                 (realm_init_error example_process) (calls example_process))
              example_process_two_handles 2)
    as (c & c' & Hc & Hc' & Hcfg & _ & _ & _ & _ & Halive & _ & Hcases).
  { vm_compute. reflexivity. }
  exists c'. split; [exact Hc'|]. split; [|exact Halive].
  vm_compute in Hc. injection Hc as <-.
  destruct Hcases as [(_ & Hfound & _)|(_ & _ & Hweak & _)].
  - vm_compute in Hfound. discriminate Hfound.
  - rewrite Hweak. vm_compute in Hc'. injection Hc' as <-. reflexivity.
Defined.

Lemma find_cached_realm_app (p : Process) l1 l2 :
  find_cached_realm p (l1 ++ l2)
  = match find_cached_realm p l1 with
    | Some r => Some r
    | None => find_cached_realm p l2
    end.
Proof.
  induction l1 as [|n l1 IH]; simpl; [done|].
  by destruct (is_cached_for_current_thread p n && realm_alive p (wrn_realm n)).
Qed.

Lemma settled_snoc (c : RealmCoordinator) (config : Config) (n : WeakRealmNotifier) :
  settled c config →
  settled (set_m_weak_realm_notifiers (m_weak_realm_notifiers c ++ [n]) c) config.
Proof.
  unfold settled, first_substantive_open. simpl.
  destruct (read_only (m_config c)) eqn:Hro; simpl.
  - rewrite (bool_decide_eq_false_2 (_ ++ [n] = [])).
    2:{ intros H. by apply app_eq_nil in H as [_ ?]. }
    case_bool_decide; [|done]. intros [<- _]. apply config_mismatch_refl.
  - rewrite !orb_false_r. done.
Qed.

(** X4: a handle that [get_realm] has returned for a configuration with
    [cache] set, on a coordinator whose stored configuration has [cache]
    set, is returned again by the next call with that configuration on the
    same thread, and that call changes nothing. *)
Theorem get_realm_cached_again (this : CoordId) (config : Config) (p p1 : Process)
    (r : RealmId) (c1 : RealmCoordinator) :
  wf_process p →
  get_realm this config p = Returned r p1 →
  cache config = true →
  coordinators p1 !! this = Some c1 →
  cache (m_config c1) = true →
  get_realm this config p1 = Returned r p1.
Proof.
  intros ([_ Hwf] & _ & Hrealms) Hget Hcache Hc1 Hcache1.
  destruct (coordinators p !! this) as [c|] eqn:Hc.
  2:{ unfold get_realm, mbind, M_bind, this_coordinator in Hget. by rewrite Hc in Hget. }
  destruct (get_realm_phases this config p c Hc) as (c0 & Hweak & _ & [[Heq Hs]|[e Heq]]);
    rewrite Heq in Hget; [|done].
  apply (get_realm_lookup_returned _ _ _ c0) in Hget; [|apply lookup_insert_eq].
  destruct Hget as [(_ & Hfind & ->)|([Hno|Hfind] & -> & ->)]; [| congruence |].
  - assert (c1 = c0) as ->.
    { unfold with_coordinator in Hc1. simpl in Hc1. rewrite lookup_insert_eq in Hc1.
      congruence. }
    rewrite (get_realm_settled _ _ _ _ Hc1 Hs), (get_realm_lookup_eq _ _ _ _ Hc1).
    by rewrite Hcache, Hfind.
  - simpl in Hc1. rewrite lookup_insert_eq in Hc1. injection Hc1 as <-.
    set (p0 := with_coordinator this c0 p) in *.
    set (p1 := with_new_realm this config c0 p0).
    assert (Hc1 : coordinators p1 !! this
                  = Some (set_m_weak_realm_notifiers
                            (m_weak_realm_notifiers c0
                               ++ [mkWeakRealmNotifier (next_object p0) (current_thread p0)
                                     (cache (m_config c0))]) c0))
      by apply lookup_insert_eq.
    rewrite (get_realm_settled _ _ _ _ Hc1 (settled_snoc _ _ _ Hs)).
    rewrite (get_realm_lookup_eq _ _ _ _ Hc1), Hcache.
    cbn [m_weak_realm_notifiers set_m_weak_realm_notifiers].
    rewrite find_cached_realm_app.
    rewrite (find_cached_realm_ext p0 p1), Hfind; [|done|].
    + simpl. unfold is_cached_for_current_thread, realm_alive. simpl.
      simpl in Hcache1. rewrite Hcache1, lookup_insert_eq.
      rewrite !bool_decide_eq_true_2 by eauto. done.
    + intros n Hn. rewrite Hweak in Hn.
      destruct (Hwf this c Hc) as [_ Hb]. destruct (Hb n Hn) as (x & Hx & _).
      assert (wrn_realm n < next_object p) by (apply Hrealms; eauto).
      unfold realm_alive. simpl. rewrite lookup_insert_ne by lia. done.
Qed.

Lemma get_realm_cached_again_witness :
  get_realm 0 (example_config false) example_process = Returned 1 example_process.
Proof.
  apply (get_realm_cached_again 0 (example_config false)
           (get_coordinator "P" Process_initial).2 example_process 1
           (coordinator_of example_process 0)).
  - apply (get_coordinator_wf "P" Process_initial wf_process_initial).
  - vm_compute. reflexivity.
  - reflexivity.
  - vm_compute. reflexivity.
  - vm_compute. reflexivity.
Defined.

(** X5: [get_realm()] opens the stored configuration: it never throws
    [MismatchedConfigException], and when no commit notifier is to be
    created it is the lookup alone. *)
Theorem get_realm_again_never_mismatched (this : CoordId) (p : Process)
    (c : RealmCoordinator) :
  coordinators p !! this = Some c →
  (∀ m s, get_realm_again this p ≠ Thrown (MismatchedConfigException m) s)
  ∧ (creates_commit_helper c (m_config c) = false →
     get_realm_again this p = get_realm_lookup this (m_config c) p).
Proof.
  intros Hc.
  assert (Hagain : get_realm_again this p = get_realm this (m_config c) p).
  { unfold get_realm_again, mbind, M_bind, this_coordinator. by rewrite Hc. }
  rewrite Hagain. split.
  - intros m s. destruct (first_substantive_open c) eqn:Hf.
    + by apply (get_realm_first_no_mismatch _ _ _ c).
    + rewrite (get_realm_not_first _ _ _ _ Hc Hf).
      rewrite (verify_config_ok _ _ p (config_mismatch_refl _)).
      destruct (if cache (m_config c) then _ else _); [done|].
      apply open_new_realm_no_mismatch.
  - intros Hcreate. apply (get_realm_settled _ _ _ c Hc).
    unfold settled. destruct (first_substantive_open c); [done|].
    apply config_mismatch_refl.
Qed.

Lemma get_realm_again_never_mismatched_witness :
  get_realm_again 0 example_process = get_realm_lookup 0 (example_config false) example_process.
Proof.
  apply (get_realm_again_never_mismatched 0 example_process
           (coordinator_of example_process 0)); vm_compute; reflexivity.
Defined.

(** ** Unregistering a handle *)

Lemma unregister_keeps_iff (p : Process) (n : WeakRealmNotifier) (realm : RealmId) :
  realm_alive p (wrn_realm n) = true →
  negb (expired p n || is_for_realm n realm) ↔ wrn_realm n ≠ realm.
Proof.
  intros Ha. unfold expired, is_for_realm. rewrite Ha. simpl.
  destruct (bool_decide_reflect (wrn_realm n = realm)) as [Heq|Hne]; simpl.
  - split; [intros []|]. intros H. by destruct H.
  - done.
Qed.

(** X6: once a handle has unregistered, [get_realm] on its coordinator
    never returns it again; the weak references to the other handles stay,
    in their order; and unregistering a second time changes nothing. *)
Theorem unregister_realm_forgets (this : CoordId) (realm : RealmId) (p : Process)
    (c : RealmCoordinator) :
  wf_process p →
  coordinators p !! this = Some c →
  is_Some (realms p !! realm) →
  let p' := unregister_realm this realm p in
  coordinators p' !! this
    = Some (set_m_weak_realm_notifiers
              (filter (λ n, wrn_realm n ≠ realm) (m_weak_realm_notifiers c)) c)
  ∧ (∀ config r p'', get_realm this config p' = Returned r p'' → r ≠ realm)
  ∧ unregister_realm this realm p' = p'.
Proof.
  intros ([Hinj Hwf] & Hreg & Hrealms) Hc Hrealm p'.
  assert (Halive : ∀ n, n ∈ m_weak_realm_notifiers c →
                        realm_alive p (wrn_realm n) = true).
  { intros n Hn. destruct (Hwf this c Hc) as [_ Hb]. destruct (Hb n Hn) as (x & Hx & _).
    unfold realm_alive. rewrite Hx. by apply bool_decide_eq_true. }
  assert (Hlist : filter (λ n, negb (expired p n || is_for_realm n realm))
                    (m_weak_realm_notifiers c)
                  = filter (λ n, wrn_realm n ≠ realm) (m_weak_realm_notifiers c)).
  { apply filter_ext_in. intros n Hn. apply unregister_keeps_iff. by apply Halive. }
  assert (Hc' : coordinators p' !! this
                = Some (set_m_weak_realm_notifiers
                          (filter (λ n, wrn_realm n ≠ realm) (m_weak_realm_notifiers c)) c)).
  { unfold p', unregister_realm. cbn [coordinators set_coordinators].
    by rewrite lookup_alter_eq, Hc, <- Hlist. }
  split_and!; [done| |].
  - intros config r p'' Hget.
    destruct (get_realm_phases this config p' _ Hc') as (c0 & Hweak & _ & [[Heq _]|[e Heq]]);
      rewrite Heq in Hget; [|done].
    apply (get_realm_lookup_returned _ _ _ c0) in Hget; [|apply lookup_insert_eq].
    destruct Hget as [(_ & Hfind & _)|(_ & -> & _)].
    + apply find_cached_realm_Some in Hfind as (n & Hn & <- & _).
      rewrite Hweak in Hn. simpl in Hn. by apply list_elem_of_filter in Hn as [Hn _].
    + assert (realm < next_object p) by by apply Hrealms.
      change (next_object (with_coordinator this c0 p')) with (next_object p). lia.
  - unfold unregister_realm at 1.
    rewrite (alter_present _ _ _ _ Hc').
    cbn [m_weak_realm_notifiers set_m_weak_realm_notifiers].
    rewrite (filter_all (λ n, negb (expired p' n || is_for_realm n realm))).
    + change (set_m_weak_realm_notifiers ?l (set_m_weak_realm_notifiers ?l' c))
        with (set_m_weak_realm_notifiers l c).
      by apply with_coordinator_same.
    + intros n Hn. apply list_elem_of_filter in Hn as [Hne Hn].
      apply unregister_keeps_iff; [|done]. by apply Halive.
Qed.

Lemma unregister_realm_forgets_witness :
  coordinators (unregister_realm 0 1 example_process) !! 0
  = Some (set_m_weak_realm_notifiers [] (coordinator_of example_process 0)).
Proof.
  apply (unregister_realm_forgets 0 1 example_process (coordinator_of example_process 0)).
  - apply (run_process_wf_process
             [Op_get_coordinator "P"; Op_get_realm 0 (example_config false)]
             Process_initial wf_process_initial).
  - vm_compute. reflexivity.
  - vm_compute. eauto.
Defined.

(** ** The schema *)

(** X7: after [get_realm] has returned, [get_schema] answers the schema of
    the configuration the coordinator has adopted: that of the caller on a
    first open, the stored one otherwise, whatever schema the caller has
    passed; after [update_schema] it answers the new schema. *)
Theorem get_schema_after_get_realm (this : CoordId) (config : Config) (p p' : Process)
    (c c' : RealmCoordinator) (r : RealmId) :
  coordinators p !! this = Some c →
  get_realm this config p = Returned r p' →
  coordinators p' !! this = Some c' →
  get_schema c' = (if first_substantive_open c then schema config
                   else schema (m_config c))
  ∧ ∀ new_schema, get_schema (update_schema new_schema c') = Some new_schema.
Proof.
  intros Hc Hget Hc'.
  destruct (get_realm_phases this config p c Hc) as (c0 & Hweak & Hcfg & [[Heq _]|[e Heq]]);
    rewrite Heq in Hget; [|done].
  apply (get_realm_lookup_returned _ _ _ c0) in Hget; [|apply lookup_insert_eq].
  assert (Hfacts : m_config c' = m_config c0 ∧ m_weak_realm_notifiers c' ≠ []).
  { destruct Hget as [(_ & Hfind & ->)|(_ & _ & ->)].
    - simpl in Hc'. rewrite lookup_insert_eq in Hc'. injection Hc' as <-.
      split; [done|]. apply find_cached_realm_Some in Hfind as (n & Hn & _).
      intros Hnil. rewrite Hnil in Hn. by apply elem_of_nil in Hn.
    - simpl in Hc'. rewrite lookup_insert_eq in Hc'. injection Hc' as <-.
      split; [done|]. simpl. intros Hnil. by apply app_eq_nil in Hnil as [_ ?]. }
  destruct Hfacts as [Hm Hne]. unfold get_schema, update_schema. simpl.
  rewrite !bool_decide_eq_false_2 by done. split; [|done].
  rewrite Hm, Hcfg. by destruct (first_substantive_open c).
Qed.

Lemma get_schema_after_get_realm_witness :
  get_schema
    (coordinator_of
       (returned
          (get_realm 0 (mkConfig "P" false false true [] 1 true (Some ["Person"]))
             (get_coordinator "P" Process_initial).2)
          Process_initial) 0)
  = Some ["Person"].
Proof.
  apply (get_schema_after_get_realm 0
           (mkConfig "P" false false true [] 1 true (Some ["Person"]))
           (get_coordinator "P" Process_initial).2
           (returned
              (get_realm 0 (mkConfig "P" false false true [] 1 true (Some ["Person"]))
                 (get_coordinator "P" Process_initial).2)
              Process_initial)
           RealmCoordinator_new
           (coordinator_of
              (returned
                 (get_realm 0 (mkConfig "P" false false true [] 1 true (Some ["Person"]))
                    (get_coordinator "P" Process_initial).2)
                 Process_initial) 0) 1);
    vm_compute; reflexivity.
Defined.

(** ** Clearing every cache *)

Lemma close_all_registry (to_close : list RealmId) (p : Process) :
  s_coordinators_per_path (close_all to_close p) = s_coordinators_per_path p.
Proof.
  revert p. induction to_close as [|r R IH]; intros p; [done|].
  rewrite close_all_cons. destruct (realm_alive p r); [|apply IH].
  rewrite IH. apply Realm_close_frame.
Qed.

Lemma clear_cache_registry (p : Process) : s_coordinators_per_path (clear_cache p) = ∅.
Proof. rewrite clear_cache_unfold. cbv zeta. by rewrite close_all_registry. Qed.

Lemma clear_cache_twice (p : Process) : clear_cache (clear_cache p) = clear_cache p.
Proof. apply clear_cache_empty_registry, clear_cache_registry. Qed.

Lemma clear_cache_coordinator_alive (p : Process) (w : CoordId) :
  coordinator_alive (clear_cache p) w = coordinator_alive p w.
Proof.
  destruct (clear_cache_async_error p w) as [Herr _].
  unfold async_error_of, coordinator_alive in *.
  destruct (coordinators (clear_cache p) !! w), (coordinators p !! w); try done.
Qed.

Lemma clear_all_caches_fold (to_clear : list CoordId) (p : Process) :
  foldl (λ p weak_coordinator,
           if coordinator_alive p weak_coordinator then clear_cache p else p)
        p to_clear
  = if existsb (coordinator_alive p) to_clear then clear_cache p else p.
Proof.
  revert p. induction to_clear as [|w L IH]; intros p; [done|].
  simpl. destruct (coordinator_alive p w) eqn:Hw; simpl; [|apply IH].
  rewrite IH, clear_cache_twice. by destruct (existsb _ L).
Qed.

(** X8: [clear_all_caches] is one [clear_cache] when the registry names a
    coordinator that is alive, and does nothing otherwise: expired entries
    then stay in the registry. *)
Theorem clear_all_caches_once (p : Process) :
  ((∃ path c, s_coordinators_per_path p !! path = Some c ∧ coordinator_alive p c = true)
   → clear_all_caches p = clear_cache p)
  ∧ ((∀ path c, s_coordinators_per_path p !! path = Some c → coordinator_alive p c = false)
     → clear_all_caches p = p)
  ∧ clear_all_caches (clear_all_caches p) = clear_all_caches p.
Proof.
  assert (Hall : clear_all_caches p
                 = if existsb (coordinator_alive p)
                        (map_to_list (s_coordinators_per_path p)).*2
                   then clear_cache p else p).
  { unfold clear_all_caches. apply clear_all_caches_fold. }
  split_and!.
  - intros (path & c & Hc & Ha). rewrite Hall.
    assert (H : existsb (coordinator_alive p)
                  (map_to_list (s_coordinators_per_path p)).*2 = true).
    { apply existsb_exists. exists c. split; [|done].
      apply list_elem_of_In, elem_of_registry_values. eauto. }
    by rewrite H.
  - intros Hdead. rewrite Hall.
    destruct (existsb _ _) eqn:H; [|done].
    apply existsb_exists in H as (c & Hc & Ha).
    apply list_elem_of_In, elem_of_registry_values in Hc as [path Hc].
    rewrite (Hdead path c Hc) in Ha. done.
  - rewrite Hall. destruct (existsb _ _) eqn:H.
    + unfold clear_all_caches. rewrite clear_cache_registry, map_to_list_empty. done.
    + unfold clear_all_caches at 1. rewrite clear_all_caches_fold, H. done.
Qed.

(** * Further properties of the notifier machinery *)

(** ** Reaping dead notifiers *)

Lemma removelast_snoc {A} (l : list A) (x : A) : removelast (l ++ [x]) = l.
Proof.
  induction l as [|a l IH]; [done|]. simpl. rewrite IH.
  by destruct l.
Qed.

Lemma back_Some_snoc {A} (l : list A) (b : A) :
  back l = Some b → l = removelast l ++ [b].
Proof.
  induction l as [|a l IH] using rev_ind; [done|].
  rewrite back_snoc. intros [= ->]. by rewrite removelast_snoc.
Qed.

(** One removal of [swap_remove]: the container loses the element at [i]. *)
Lemma swap_remove_step_perm (container : list BackgroundCollection) (i : nat) n :
  container !! i = Some n →
  removelast
    (if bool_decide (i + 1 < length container)
     then match back container with
          | Some b => <[i := b]> container
          | None => container
          end
     else container)
  ≡ₚ delete i container
  ∧ take i (removelast
              (if bool_decide (i + 1 < length container)
               then match back container with
                    | Some b => <[i := b]> container
                    | None => container
                    end
               else container))
    = take i container.
Proof.
  intros Hi.
  destruct container as [|a l] using rev_ind; [done|]. clear IHl.
  rewrite back_snoc, length_app. cbn [length].
  assert (Hlt := lookup_lt_Some _ _ _ Hi). rewrite length_app in Hlt. cbn [length] in Hlt.
  case_bool_decide as Hlast.
  - assert (Hil : i < length l) by lia.
    rewrite insert_app_l by done. rewrite removelast_snoc. split.
    + rewrite insert_take_drop by done.
      rewrite delete_take_drop, take_app_le, drop_app_le by lia.
      apply Permutation_app_head. apply Permutation_cons_append.
    + rewrite take_insert_ge by done. by rewrite take_app_le by lia.
  - assert (i = length l) as -> by lia.
    rewrite removelast_snoc. split.
    + by rewrite delete_middle, app_nil_r.
    + by rewrite take_app_length, take_ge.
Qed.

Lemma swap_remove_loop_spec fuel :
  ∀ i container released did_remove,
    length container ≤ fuel + i →
    Forall (λ n, is_alive n = true) (take i container) →
    let '(container', released', did_remove') :=
      swap_remove_loop fuel i container released did_remove in
    container' ≡ₚ filter (λ n, is_alive n = true) container
    ∧ Forall (λ n, is_alive n = true) container'
    ∧ (∃ dead, released' = released ++ (notifier_id <$> dead)
               ∧ dead ≡ₚ filter (λ n, is_alive n = false) container)
    ∧ did_remove' = did_remove || negb (forallb is_alive container).
Proof.
  assert (Hdone : ∀ (container : list BackgroundCollection) released did_remove,
            Forall (λ n, is_alive n = true) container →
            container ≡ₚ filter (λ n, is_alive n = true) container
            ∧ Forall (λ n, is_alive n = true) container
            ∧ (∃ dead, released = released ++ (notifier_id <$> dead)
                       ∧ dead ≡ₚ filter (λ n, is_alive n = false) container)
            ∧ did_remove = did_remove || negb (forallb is_alive container)).
  { intros container released did_remove Hall. split_and!; [|done| |].
    - by rewrite filter_all by (by apply Forall_forall).
    - exists []. split; [by rewrite app_nil_r|].
      rewrite filter_none; [done|]. intros n Hn Hd.
      rewrite Forall_forall in Hall. rewrite (Hall n Hn) in Hd. done.
    - replace (forallb is_alive container) with true; [by rewrite orb_false_r|].
      symmetry. apply forallb_forall. intros n Hn. rewrite Forall_forall in Hall.
      apply Hall. by apply list_elem_of_In. }
  induction fuel as [|fuel IH]; intros i container released did_remove Hfuel Hpre.
  { simpl. apply Hdone. by rewrite take_ge in Hpre by lia. }
  cbn [swap_remove_loop].
  destruct (container !! i) as [n|] eqn:Hi.
  2:{ apply Hdone. apply lookup_ge_None in Hi. by rewrite take_ge in Hpre by lia. }
  destruct (is_alive n) eqn:Halive.
  - apply IH; [lia|]. rewrite (take_S_r _ _ _ Hi). apply Forall_app. split; [done|].
    by constructor.
  - destruct (swap_remove_step_perm container i n Hi) as [Hperm Htake].
    set (c2 := removelast _) in *.
    assert (Hlen : length c2 = length container - 1).
    { rewrite Hperm, length_delete by eauto. done. }
    specialize (IH i c2 (released ++ [notifier_id n]) true).
    destruct (swap_remove_loop fuel i c2 (released ++ [notifier_id n]) true)
      as [[container' released'] did_remove'].
    destruct IH as (Hc & Hall & (dead & Hrel & Hdead) & Hdid); [lia|by rewrite Htake|].
    assert (Hcont : container ≡ₚ n :: c2).
    { rewrite Hperm. by apply delete_Permutation. }
    split_and!.
    + rewrite Hc, Hcont. rewrite filter_cons_False; [done|]. by rewrite Halive.
    + done.
    + exists (n :: dead). split.
      * rewrite Hrel. rewrite <- app_assoc. done.
      * rewrite Hcont, filter_cons_True by done. by rewrite Hdead.
    + rewrite Hdid. simpl.
      replace (forallb is_alive container) with false; [by rewrite orb_true_r|].
      symmetry. apply not_true_iff_false. intros Hf.
      rewrite forallb_forall in Hf. 
      assert (Hin : n ∈ container) by (by eapply list_elem_of_lookup_2).
      apply list_elem_of_In in Hin. rewrite (Hf n Hin) in Halive. done.
Qed.

Lemma swap_remove_spec (container : list BackgroundCollection) :
  ∃ container' dead,
    swap_remove container
    = (container', notifier_id <$> dead, negb (forallb is_alive container))
    ∧ container' ≡ₚ filter (λ n, is_alive n = true) container
    ∧ Forall (λ n, is_alive n = true) container'
    ∧ dead ≡ₚ filter (λ n, is_alive n = false) container.
Proof.
  pose proof (swap_remove_loop_spec (length container) 0 container [] false) as H.
  unfold swap_remove.
  destruct (swap_remove_loop _ _ _ _ _) as [[container' released'] did_remove'].
  destruct H as (Hc & Hall & (dead & -> & Hdead) & ->); [lia|by rewrite take_0|].
  by exists container', dead.
Qed.

Lemma is_empty_all_reaped (l l' : list BackgroundCollection) :
  l' ≡ₚ filter (λ n, is_alive n = true) l →
  negb (forallb is_alive l) && is_empty l' = all_reaped l.
Proof.
  intros Hl'. unfold all_reaped. f_equal.
  destruct (forallb (λ n, negb (is_alive n)) l) eqn:Hdead.
  - rewrite forallb_forall in Hdead.
    rewrite filter_none in Hl'.
    + apply Permutation_nil_r in Hl'. by subst.
    + intros n Hn Ha. apply list_elem_of_In in Hn. specialize (Hdead n Hn).
      by rewrite Ha in Hdead.
  - destruct l' as [|n l']; [|done]. exfalso.
    apply Permutation_nil_l in Hl'. 
    apply not_true_iff_false in Hdead. apply Hdead. apply forallb_forall.
    intros n Hn. apply list_elem_of_In in Hn.
    destruct (is_alive n) eqn:Ha; [|done]. exfalso.
    assert (Hin : n ∈ filter (λ n, is_alive n = true) l) by by apply list_elem_of_filter.
    rewrite <- Hl' in Hin. by apply elem_of_nil in Hin.
Qed.

(** [clean_up_dead_notifiers], written out. *)
Lemma clean_up_dead_notifiers_eq {C} (w : World C) :
  let c := coordinator w in
  ∃ l1 l2 dead1 dead2,
    l1 ≡ₚ filter (λ n, is_alive n = true) (m_notifiers c)
    ∧ l2 ≡ₚ filter (λ n, is_alive n = true) (m_new_notifiers c)
    ∧ Forall (λ n, is_alive n = true) l1
    ∧ Forall (λ n, is_alive n = true) l2
    ∧ dead1 ≡ₚ filter (λ n, is_alive n = false) (m_notifiers c)
    ∧ dead2 ≡ₚ filter (λ n, is_alive n = false) (m_new_notifiers c)
    ∧ (all_reaped (m_notifiers c) = true → l1 = [])
    ∧ (all_reaped (m_new_notifiers c) = true → l2 = [])
    ∧ clean_up_dead_notifiers w
      = mkWorld
          (mkRealmCoordinator (m_config c) (m_notifier c) (m_weak_realm_notifiers c)
             l2 l1
             (if all_reaped (m_notifiers c) then end_read <$> m_notifier_sg c
              else m_notifier_sg c)
             (if all_reaped (m_new_notifiers c) then end_read <$> m_advancer_sg c
              else m_advancer_sg c)
             (m_async_error c))
          (builders w) (latest w) (open_with_config w)
          (trace w ++ (EvReleaseData <$> (notifier_id <$> dead1))
             ++ (if all_reaped (m_notifiers c) && bool_decide (is_Some (m_notifier_sg c))
                 then [EvEndRead NotifierSG] else [])
             ++ (EvReleaseData <$> (notifier_id <$> dead2))
             ++ (if all_reaped (m_new_notifiers c)
                    && bool_decide (is_Some (m_advancer_sg c))
                 then [EvEndRead AdvancerSG] else [])).
Proof.
  intros c. subst c. unfold clean_up_dead_notifiers.
  destruct (swap_remove_spec (m_notifiers (coordinator w)))
    as (l1 & dead1 & -> & Hl1 & Ha1 & Hd1).
  destruct (swap_remove_spec (m_new_notifiers (coordinator w)))
    as (l2 & dead2 & -> & Hl2 & Ha2 & Hd2).
  pose proof (is_empty_all_reaped _ _ Hl1) as H1.
  pose proof (is_empty_all_reaped _ _ Hl2) as H2.
  exists l1, l2, dead1, dead2. rewrite H1, H2.
  split_and!; [done..| | |].
  - intros Hr. rewrite Hr in H1. apply andb_true_iff in H1 as [_ H1]. by destruct l1.
  - intros Hr. rewrite Hr in H2. apply andb_true_iff in H2 as [_ H2]. by destruct l2.
  - destruct w as [[] ? ? ? ?]. cbn [coordinator m_notifiers m_new_notifiers
      m_notifier_sg m_advancer_sg m_config m_notifier m_weak_realm_notifiers
      m_async_error builders latest open_with_config trace] in *.
    destruct (all_reaped m_notifiers0), (all_reaped m_new_notifiers0),
      m_notifier_sg0, m_advancer_sg0; simpl;
      unfold emit, update_coordinator, set_coordinator; simpl;
      rewrite <- ?app_assoc, ?app_nil_r; reflexivity.
Qed.

(** X9: [clean_up_dead_notifiers] leaves in each of the two lists exactly
    the notifiers that are alive (their order may change), calls
    [release_data] once on each dead notifier and on no other, and besides
    that only ends reads; the configuration, the commit notifier, the weak
    references, the latched error and the change builders are left alone. *)
Theorem clean_up_dead_notifiers_reaps {C} (w : World C) :
  let c := coordinator w in
  let w' := clean_up_dead_notifiers w in
  let c' := coordinator w' in
  m_notifiers c' ≡ₚ filter (λ n, is_alive n = true) (m_notifiers c)
  ∧ m_new_notifiers c' ≡ₚ filter (λ n, is_alive n = true) (m_new_notifiers c)
  ∧ (∃ dead1 dead2,
       trace w'
       = trace w ++ (EvReleaseData <$> (notifier_id <$> dead1))
           ++ (if all_reaped (m_notifiers c) && bool_decide (is_Some (m_notifier_sg c))
               then [EvEndRead NotifierSG] else [])
           ++ (EvReleaseData <$> (notifier_id <$> dead2))
           ++ (if all_reaped (m_new_notifiers c) && bool_decide (is_Some (m_advancer_sg c))
               then [EvEndRead AdvancerSG] else [])
       ∧ dead1 ≡ₚ filter (λ n, is_alive n = false) (m_notifiers c)
       ∧ dead2 ≡ₚ filter (λ n, is_alive n = false) (m_new_notifiers c))
  ∧ m_config c' = m_config c
  ∧ m_notifier c' = m_notifier c
  ∧ m_weak_realm_notifiers c' = m_weak_realm_notifiers c
  ∧ m_async_error c' = m_async_error c
  ∧ builders w' = builders w.
Proof.
  intros c w' c'. subst c' w'.
  destruct (clean_up_dead_notifiers_eq w)
    as (l1 & l2 & dead1 & dead2 & Hl1 & Hl2 & _ & _ & Hd1 & Hd2 & _ & _ & ->).
  fold c. split_and!; [done|done| |done..].
  by exists dead1, dead2.
Qed.

(** X10: when [clean_up_dead_notifiers] has emptied the list of active
    notifiers by reaping, the notifier transaction holds no read any more,
    and likewise the advancer transaction for the staged notifiers; a
    transaction whose list was not emptied by reaping is left as it was;
    and calling [clean_up_dead_notifiers] again changes nothing. *)
Theorem clean_up_dead_notifiers_ends_reads {C} (w : World C) :
  let c := coordinator w in
  let w' := clean_up_dead_notifiers w in
  let c' := coordinator w' in
  m_notifier_sg c'
    = (if all_reaped (m_notifiers c) then end_read <$> m_notifier_sg c
       else m_notifier_sg c)
  ∧ m_advancer_sg c'
    = (if all_reaped (m_new_notifiers c) then end_read <$> m_advancer_sg c
       else m_advancer_sg c)
  ∧ (all_reaped (m_notifiers c) = true → m_notifiers c' = [])
  ∧ (all_reaped (m_new_notifiers c) = true → m_new_notifiers c' = [])
  ∧ clean_up_dead_notifiers w' = w'.
Proof.
  intros c w' c'. subst c' w'.
  destruct (clean_up_dead_notifiers_eq w)
    as (l1 & l2 & dead1 & dead2 & _ & _ & Ha1 & Ha2 & _ & _ & He1 & He2 & ->).
  fold c. split_and!; [done..|]. by apply clean_up_all_alive.
Qed.

(** ** The phases of a cycle *)

Section Cycle_phases.
Context {C : Type}.
Variable merge : C → C → C.
Variable table_log : N → N → list C.
Variable list_log : N → N → ListChangeInfo → C.

Lemma run_async_notifiers_phases (w : World C) :
  run_async_notifiers merge table_log list_log w =
    let w1 := clean_up_dead_notifiers w in
    if is_empty (m_notifiers (coordinator w1))
       && is_empty (m_new_notifiers (coordinator w1))
    then Returned None w1
    else
      match (if latched w1 then Returned tt w1 else open_helper_shared_group w1) with
      | Returned _ w2 =>
          if latched w2 then Returned None (update_coordinator drain_new_notifiers w2)
          else
            match advance_new_notifiers merge table_log list_log
                    (m_new_notifiers (coordinator w2))
                    (update_coordinator (set_m_new_notifiers []) w2) with
            | Returned (change_info, v, new_notifiers) w3 =>
                match advance_notifiers merge table_log list_log change_info v
                        (m_notifiers (coordinator w2)) w3 with
                | Returned change_info w4 =>
                    Returned (Some (merge_pass merge change_info))
                      (cycle_end merge (m_notifiers (coordinator w2)) new_notifiers
                         (merge_pass merge change_info) w4)
                | Thrown e s => Thrown e s
                | Aborted => Aborted
                end
            | Thrown e s => Thrown e s
            | Aborted => Aborted
            end
      | Thrown e s => Thrown e s
      | Aborted => Aborted
      end.
Proof.
  unfold run_async_notifiers. unfold_M. cbv zeta.
  destruct (_ && _); [done|].
  unfold latched.
  destruct (m_async_error (coordinator (clean_up_dead_notifiers w))) as [e|] eqn:He.
  - simpl. by rewrite He.
  - simpl. destruct (open_helper_shared_group _) as [[] w2| |]; [|done|done].
    destruct (m_async_error (coordinator w2)) as [e|] eqn:He2; simpl; [done|].
    destruct (advance_new_notifiers _ _ _ _ _) as [[[ci v] new] w3| |]; [|done|done].
    destruct (advance_notifiers _ _ _ _ _ _ _) as [ci4 w4| |]; done.
Qed.
End Cycle_phases.

(** ** The discipline of the background transactions *)

Lemma replay_app st es1 es2 :
  replay st (es1 ++ es2)
  = match replay st es1 with Some st' => replay st' es2 | None => None end.
Proof.
  revert st. induction es1 as [|e es1 IH]; intros st; simpl; [done|].
  destruct (replay_event st e); [apply IH|done].
Qed.

Lemma replay_neutral st es : Forall (λ e, neutral e = true) es → replay st es = Some st.
Proof.
  induction 1 as [|e es He _ IH]; simpl; [done|].
  unfold replay_event. unfold neutral in He.
  destruct (event_sg e) as [[]|]; try done.
Qed.

Lemma replay_fan_in n es :
  Forall (λ e, fan_in_event e = true) es →
  replay (mkStatuses (Some true) n) es = Some (mkStatuses (Some true) n).
Proof.
  induction 1 as [|e es He _ IH]; simpl; [done|].
  destruct e as [| | |[]| | | | | | | | | | |]; try done.
Qed.

Lemma follows_refl {C} (w : World C) : follows w w.
Proof. exists []. by rewrite app_nil_r. Qed.

Lemma follows_trans {C} (w1 w2 w3 : World C) :
  follows w1 w2 → follows w2 w3 → follows w1 w3.
Proof.
  intros (es1 & Ht1 & Hr1) (es2 & Ht2 & Hr2). exists (es1 ++ es2).
  split; [by rewrite Ht2, Ht1, app_assoc|]. by rewrite replay_app, Hr1.
Qed.

Lemma follows_neutral {C} (w w' : World C) es :
  trace w' = trace w ++ es →
  Forall (λ e, neutral e = true) es →
  statuses_of (coordinator w') = statuses_of (coordinator w) →
  follows w w'.
Proof.
  intros Ht Hes Hst. exists es. split; [done|]. by rewrite replay_neutral, Hst.
Qed.

Lemma Forall_neutral_fmap {A} (f : A → Event) (l : list A) :
  (∀ x, neutral (f x) = true) → Forall (λ e, neutral e = true) (f <$> l).
Proof. intros Hf. apply Forall_fmap, Forall_true. exact Hf. Qed.

Lemma is_empty_Permutation {A} (l l' : list A) : l ≡ₚ l' → is_empty l = is_empty l'.
Proof.
  intros H. destruct l, l'; try done.
  - by apply Permutation_nil_cons in H.
  - symmetry in H. by apply Permutation_nil_cons in H.
Qed.

Lemma is_empty_filter_alive (l : list BackgroundCollection) :
  is_empty (filter (λ n, is_alive n = true) l) = forallb (λ n, negb (is_alive n)) l.
Proof.
  induction l as [|n l IH]; [done|]. simpl.
  destruct (is_alive n) eqn:Ha.
  - by rewrite filter_cons_True.
  - rewrite filter_cons_False by (by rewrite Ha). by rewrite IH.
Qed.

Lemma all_reaped_false_empty (l : list BackgroundCollection) :
  all_reaped l = false →
  forallb (λ n, negb (is_alive n)) l = true → l = [].
Proof.
  unfold all_reaped. intros H1 H2. rewrite H2, andb_true_r in H1.
  apply negb_false_iff in H1. destruct l as [|n l]; [done|]. simpl in *.
  destruct (is_alive n); done.
Qed.

Lemma sg_status_end_read (sg : option SharedGroup) :
  sg_status (end_read <$> sg) = (λ _, false) <$> sg_status sg.
Proof. by destruct sg. Qed.

(** Reaping keeps to the discipline and keeps the reads where they are
    needed. *)
Lemma clean_up_follows {C} (w : World C) :
  follows w (clean_up_dead_notifiers w)
  ∧ (reads_held (coordinator w) → reads_held (coordinator (clean_up_dead_notifiers w))).
Proof.
  destruct (clean_up_dead_notifiers_eq w)
    as (l1 & l2 & dead1 & dead2 & Hl1 & Hl2 & _ & _ & _ & _ & He1 & He2 & ->).
  cbv zeta. split.
  - eexists. split; [reflexivity|]. cbn [coordinator].
    rewrite replay_app, replay_neutral by (by apply Forall_neutral_fmap).
    rewrite replay_app.
    unfold statuses_of. cbn [m_advancer_sg m_notifier_sg].
    destruct (all_reaped (m_notifiers (coordinator w))), (m_notifier_sg (coordinator w)) as [sgn|]; simpl;
      rewrite replay_app, replay_neutral by (by apply Forall_neutral_fmap);
      destruct (all_reaped (m_new_notifiers (coordinator w))), (m_advancer_sg (coordinator w)) as [sga|];
      reflexivity.
  - intros Hinv Herr. cbn [coordinator m_async_error m_new_notifiers m_notifiers
      m_advancer_sg m_notifier_sg] in *. destruct (Hinv Herr) as [Ha Hn]. split.
    + rewrite (is_empty_Permutation _ _ Hl2), is_empty_filter_alive.
      destruct (all_reaped (m_new_notifiers (coordinator w))) eqn:Hr.
      * unfold all_reaped in Hr. apply andb_true_iff in Hr as [_ ->].
        rewrite sg_status_end_read. by destruct (sg_status (m_advancer_sg (coordinator w))).
      * destruct (forallb _ (m_new_notifiers (coordinator w))) eqn:Hdead.
        -- rewrite (all_reaped_false_empty _ Hr Hdead) in Ha. exact Ha.
        -- destruct (m_new_notifiers (coordinator w)); [done|]. exact Ha.
    + rewrite (is_empty_Permutation _ _ Hl1), is_empty_filter_alive.
      destruct (all_reaped (m_notifiers (coordinator w))) eqn:Hr.
      * unfold all_reaped in Hr. apply andb_true_iff in Hr as [_ ->].
        rewrite sg_status_end_read. by destruct (sg_status (m_notifier_sg (coordinator w))).
      * destruct (forallb _ (m_notifiers (coordinator w))) eqn:Hdead.
        -- rewrite (all_reaped_false_empty _ Hr Hdead) in Hn. exact Hn.
        -- destruct (m_notifiers (coordinator w)); [done|]. exact Hn.
Qed.

Lemma is_empty_snoc {A} (l : list A) (x : A) : is_empty (l ++ [x]) = false.
Proof. by destruct l. Qed.

Lemma register_notifier_follows {C} (w w' : World C) (n : BackgroundCollection) :
  reads_held (coordinator w) →
  register_notifier n w = Returned tt w' →
  follows w w' ∧ reads_held (coordinator w').
Proof.
  intros Hinv. unfold register_notifier, pin_version. unfold_M.
  destruct w as [c b l o t]. cbn [coordinator latest open_with_config] in *.
  unfold reads_held in Hinv.
  destruct (m_async_error c) as [e|] eqn:Herr.
  { simpl. intros [= <-]. split.
    - apply (follows_neutral _ _ []); [by rewrite app_nil_r|done|done].
    - intros H. simpl in H. congruence. }
  destruct (Hinv eq_refl) as [Ha Hn]. simpl.
  destruct (m_advancer_sg c) as [[tx]|] eqn:Hadv.
  - destruct (is_empty (m_new_notifiers c)) eqn:Hempty.
    + intros [= <-]. split.
      * eexists. split; [reflexivity|]. unfold statuses_of. simpl. rewrite Hadv. simpl.
        destruct tx; [by destruct Ha|done].
      * intros _. simpl. rewrite is_empty_snoc. split; [done|exact Hn].
    + destruct (VersionID_ltb _ _).
      * intros [= <-]. split.
        -- eexists. split; [reflexivity|]. unfold statuses_of. simpl. rewrite Hadv. simpl.
           destruct tx; [done|]. simpl in Ha. done.
        -- intros _. simpl. rewrite is_empty_snoc. split; [done|exact Hn].
      * intros [= <-]. split.
        -- apply (follows_neutral _ _ []); [by rewrite app_nil_r|done|done].
        -- intros _. simpl. rewrite is_empty_snoc, Hadv. split; [exact Ha|exact Hn].
  - destruct o as [|e|].
    + intros [= <-]. split.
      * eexists. split; [reflexivity|]. unfold statuses_of. simpl. by rewrite Hadv.
      * intros _. simpl. rewrite is_empty_snoc. split; [done|exact Hn].
    + intros [= <-]. split.
      * eexists. split; [reflexivity|]. unfold statuses_of. simpl. by rewrite Hadv.
      * intros H. simpl in H. done.
    + done.
Qed.

Lemma open_helper_shared_group_follows {C} (w w' : World C) :
  reads_held (coordinator w) →
  m_async_error (coordinator w) = None →
  open_helper_shared_group w = Returned tt w' →
  follows w w'
  ∧ m_notifiers (coordinator w') = m_notifiers (coordinator w)
  ∧ m_new_notifiers (coordinator w') = m_new_notifiers (coordinator w)
  ∧ m_advancer_sg (coordinator w') = m_advancer_sg (coordinator w)
  ∧ (m_async_error (coordinator w') = None →
     sg_status (m_notifier_sg (coordinator w')) = Some true).
Proof.
  intros Hinv Herr. destruct (Hinv Herr) as [_ Hn].
  unfold open_helper_shared_group.
  destruct w as [c b l o t]. cbn [coordinator latest open_with_config] in *.
  destruct (m_notifier_sg c) as [[tx]|] eqn:Hntf.
  - destruct (is_empty (m_notifiers c)) eqn:Hempty.
    + intros [= <-]. split_and!; [|done..].
      eexists. split; [reflexivity|]. unfold statuses_of. simpl. rewrite Hntf. simpl.
      destruct tx; [by destruct Hn|done].
    + intros [= <-]. split_and!; [|done..|intros _; simpl; by rewrite Hntf].
      apply follows_refl.
  - destruct o as [|e|].
    + intros [= <-]. split_and!; [|done..].
      eexists. split; [reflexivity|]. unfold statuses_of. simpl. by rewrite Hntf.
    + intros [= <-]. split_and!; [|done..].
      eexists. split; [reflexivity|]. unfold statuses_of. simpl. by rewrite Hntf.
    + done.
Qed.

Section Protocol.
Context {C : Type}.
Variable merge : C → C → C.
Variable table_log : N → N → list C.
Variable list_log : N → N → ListChangeInfo → C.
Variable deliver : BackgroundCollection → SharedGroup → option Exception → bool.

Lemma fan_in_trace (latest : VersionID) ns :
  ∀ st, ∃ es,
    fi_trace (foldl (fan_in_step merge table_log list_log latest) st ns)
    = fi_trace st ++ es
    ∧ Forall (λ e, fan_in_event e = true) es.
Proof.
  induction ns as [|n ns IH]; intros st.
  { exists []. by rewrite app_nil_r. }
  cbn [foldl].
  destruct (IH (fan_in_step merge table_log list_log latest st n)) as (es & -> & Hes).
  assert (Hstep : ∃ es0, fi_trace (fan_in_step merge table_log list_log latest st n)
                         = fi_trace st ++ es0
                         ∧ Forall (λ e, fan_in_event e = true) es0).
  { unfold fan_in_step.
    destruct (negb _); [|by eexists; split; [reflexivity|repeat constructor]].
    destruct (back (fi_change_info st)); [|by eexists; split; [reflexivity|repeat constructor]].
    unfold advance. cbv beta iota zeta. cbn [fi_trace].
    rewrite <- app_assoc. eexists; split; [reflexivity|repeat constructor]. }
  destruct Hstep as (es0 & -> & Hes0).
  exists (es0 ++ es). split; [by rewrite app_assoc|]. by apply Forall_app.
Qed.

Lemma advance_new_notifiers_follows (w w' : World C) staged change_info v new_notifiers :
  (if is_empty staged then sg_status (m_advancer_sg (coordinator w)) ≠ Some true
   else sg_status (m_advancer_sg (coordinator w)) = Some true) →
  advance_new_notifiers merge table_log list_log staged w
  = Returned (change_info, v, new_notifiers) w' →
  follows w w'
  ∧ sg_status (m_advancer_sg (coordinator w')) ≠ Some true
  ∧ m_notifier_sg (coordinator w') = m_notifier_sg (coordinator w)
  ∧ m_notifiers (coordinator w') = m_notifiers (coordinator w)
  ∧ m_new_notifiers (coordinator w') = m_new_notifiers (coordinator w)
  ∧ m_async_error (coordinator w') = m_async_error (coordinator w)
  ∧ new_notifiers ≡ₚ staged.
Proof.
  intros Hadv. unfold advance_new_notifiers.
  destruct (is_empty staged) eqn:Hempty.
  { intros [= <- <- <- <-]. split_and!; [apply follows_refl|done..]. }
  destruct (m_advancer_sg (coordinator w)) as [sg|] eqn:Hsg; [|done].
  destruct (head (sort_by_version staged)) as [front|]; [|done].
  destruct (negb _); [done|].
  destruct (fan_in_trace (latest w) (sort_by_version staged)
              (mkFanIn [empty_info; empty_info] (get_version_of_current_transaction sg)
                 sg (builders w) (trace w))) as (es & Htr & Hes).
  set (st := foldl _ _ _) in *.
  destruct (back (fi_change_info st)) as [info|]; [|done].
  unfold advance. cbv beta iota zeta.
  intros [= <- <- <- <-]. cbn [coordinator trace].
  split_and!; [|done..|apply sort_by_version_perm].
  rewrite Htr. cbn [fi_trace]. eexists. split; [by rewrite <- app_assoc|].
  unfold statuses_of. rewrite Hsg, Hadv.
  rewrite replay_app, (replay_fan_in _ _ Hes). cbn [replay replay_event event_sg
    status_step fmap option_fmap option_map advancer_status notifier_status app].
  rewrite replay_app, replay_neutral by (by apply Forall_neutral_fmap).
  reflexivity.
Qed.

Lemma advance_notifiers_follows (w w' : World C) change_info v notifiers change_info' :
  sg_status (m_notifier_sg (coordinator w)) = Some true →
  advance_notifiers merge table_log list_log change_info v notifiers w
  = Returned change_info' w' →
  follows w w'
  ∧ sg_status (m_notifier_sg (coordinator w')) = Some true
  ∧ m_advancer_sg (coordinator w') = m_advancer_sg (coordinator w)
  ∧ m_notifiers (coordinator w') = m_notifiers (coordinator w)
  ∧ m_new_notifiers (coordinator w') = m_new_notifiers (coordinator w)
  ∧ m_async_error (coordinator w') = m_async_error (coordinator w).
Proof.
  intros Hntf. unfold advance_notifiers.
  destruct (m_notifier_sg (coordinator w)) as [sg|] eqn:Hsg; [|done].
  destruct (change_info !! 0) as [info0|]; [|done].
  unfold advance. cbv beta iota zeta.
  intros [= <- <-]. cbn [coordinator trace]. split_and!; [|done..].
  eexists. split; [reflexivity|].
  rewrite replay_app, replay_neutral by (by apply Forall_neutral_fmap).
  unfold statuses_of. rewrite Hsg, Hntf. reflexivity.
Qed.

Lemma cycle_end_follows (w : World C) notifiers new_notifiers change_info :
  follows w (cycle_end merge notifiers new_notifiers change_info w)
  ∧ (m_new_notifiers (coordinator w) = [] →
     sg_status (m_advancer_sg (coordinator w)) ≠ Some true →
     sg_status (m_notifier_sg (coordinator w)) = Some true →
     notifiers ++ new_notifiers ≠ [] →
     reads_held (coordinator (cycle_end merge notifiers new_notifiers change_info w))).
Proof.
  unfold cycle_end. cbv zeta.
  match goal with |- follows _ (clean_up_dead_notifiers ?x) ∧ _ => set (w5 := x) end.
  destruct (clean_up_follows w5) as [Hf Hinv].
  split.
  - eapply follows_trans; [|exact Hf].
    apply (follows_neutral _ _
             (((λ n, EvAttachTo (notifier_id n) NotifierSG) <$> new_notifiers)
                ++ (EvRun <$> (notifier_id <$> notifiers ++ new_notifiers))
                ++ (EvPrepareHandover <$> (notifier_id <$> notifiers ++ new_notifiers)))).
    + unfold w5. cbn [trace emit update_coordinator set_coordinator set_builders].
      by rewrite <- !app_assoc.
    + repeat (apply Forall_app; split); by apply Forall_neutral_fmap.
    + reflexivity.
  - intros Hnew Ha Hn Hne. apply Hinv. intros _. unfold w5.
    cbn [coordinator emit update_coordinator set_coordinator set_builders
           m_new_notifiers m_notifiers set_m_notifiers m_advancer_sg m_notifier_sg].
    rewrite Hnew. split; [exact Ha|]. by destruct (notifiers ++ new_notifiers).
Qed.

Lemma run_async_notifiers_follows (w w' : World C) r :
  reads_held (coordinator w) →
  run_async_notifiers merge table_log list_log w = Returned r w' →
  follows w w' ∧ reads_held (coordinator w').
Proof.
  intros Hinv. rewrite run_async_notifiers_phases. cbv zeta.
  destruct (clean_up_follows w) as [Hf1 Hinv1]. specialize (Hinv1 Hinv).
  set (w1 := clean_up_dead_notifiers w) in *.
  destruct (is_empty (m_notifiers (coordinator w1))
            && is_empty (m_new_notifiers (coordinator w1))) eqn:Hboth.
  { by intros [= <- <-]. }
  assert (Hdrain : ∀ w2, latched w2 = true → follows w1 w2 →
            follows w (update_coordinator drain_new_notifiers w2)
            ∧ reads_held (coordinator (update_coordinator drain_new_notifiers w2))).
  { intros w2 Hl Hf2. split.
    - eapply follows_trans; [exact Hf1|]. eapply follows_trans; [exact Hf2|].
      apply (follows_neutral _ _ []); [by rewrite app_nil_r|done|done].
    - intros H. simpl in H. unfold latched in Hl. apply bool_decide_eq_true in Hl.
      destruct Hl as [e He]. congruence. }
  destruct (latched w1) eqn:Hl1.
  { rewrite Hl1. intros [= <- <-]. apply Hdrain; [done|apply follows_refl]. }
  assert (Herr1 : m_async_error (coordinator w1) = None).
  { unfold latched in Hl1. apply bool_decide_eq_false in Hl1.
    destruct (m_async_error (coordinator w1)); [|done]. destruct Hl1. eauto. }
  destruct (open_helper_shared_group w1) as [[] w2| |] eqn:Hopen; [|done|done].
  destruct (open_helper_shared_group_follows w1 w2 Hinv1 Herr1 Hopen)
    as (Hf2 & Hact2 & Hnew2 & Hadv2 & Hntf2).
  destruct (latched w2) eqn:Hl2.
  { intros [= <- <-]. by apply Hdrain. }
  assert (Herr2 : m_async_error (coordinator w2) = None).
  { unfold latched in Hl2. apply bool_decide_eq_false in Hl2.
    destruct (m_async_error (coordinator w2)); [|done]. destruct Hl2. eauto. }
  specialize (Hntf2 Herr2). destruct (Hinv1 Herr1) as [Ha1 _].
  destruct (advance_new_notifiers _ _ _ _ _) as [[[ci v] new] w3| |] eqn:Hnew; [|done|done].
  apply advance_new_notifiers_follows in Hnew
    as (Hf3 & Ha3 & Hn3 & Hact3 & Hnew3 & Herr3 & Hperm).
  2:{ cbn [coordinator update_coordinator set_coordinator m_advancer_sg set_m_new_notifiers].
      by rewrite Hnew2, Hadv2. }
  cbn [coordinator update_coordinator set_coordinator m_advancer_sg set_m_new_notifiers
         m_notifier_sg m_notifiers m_new_notifiers m_async_error] in Hn3, Hact3, Hnew3, Herr3.
  destruct (advance_notifiers _ _ _ _ _ _ _) as [ci4 w4| |] eqn:Hadvn; [|done|done].
  apply advance_notifiers_follows in Hadvn
    as (Hf4 & Hn4 & Ha4 & Hact4 & Hnew4 & Herr4); [|by rewrite Hn3].
  intros [= <- <-].
  destruct (cycle_end_follows w4 (m_notifiers (coordinator w2)) new (merge_pass merge ci4))
    as [Hf5 Hinv5].
  split.
  - eapply follows_trans; [exact Hf1|]. eapply follows_trans; [exact Hf2|].
    eapply follows_trans; [|eapply follows_trans; [exact Hf3|]].
    + apply (follows_neutral _ _ []); [by rewrite app_nil_r|done|done].
    + eapply follows_trans; [exact Hf4|exact Hf5].
  - apply Hinv5.
    + by rewrite Hnew4, Hnew3.
    + by rewrite Ha4.
    + done.
    + rewrite Hact2. intros Hnil. apply app_eq_nil in Hnil as [Hnil1 Hnil2].
      rewrite Hnil1 in Hboth. rewrite Hnil2 in Hperm.
      apply Permutation_nil_l in Hperm. rewrite Hnew2 in Hperm.
      by rewrite <- Hperm in Hboth.
Qed.
Lemma run_async_notifiers_no_throw (w : World C) e s :
  run_async_notifiers merge table_log list_log w ≠ Thrown e s.
Proof.
  rewrite run_async_notifiers_phases. cbv zeta.
  destruct (_ && _); [done|].
  assert (Hopen : ∀ w1 : World C, open_helper_shared_group w1 ≠ Thrown e s
                    ∧ ∀ e' s', open_helper_shared_group w1 ≠ Thrown e' s').
  { intros w1. unfold open_helper_shared_group.
    destruct (m_notifier_sg _); [destruct (is_empty _)|destruct (open_with_config _)];
      done. }
  destruct (latched (clean_up_dead_notifiers w)) eqn:Hl1.
  - by rewrite Hl1.
  - destruct (open_helper_shared_group _) as [[] w2|e' s'|] eqn:Ho; [|by apply Hopen in Ho|done].
    destruct (latched w2); [done|].
    destruct (advance_new_notifiers _ _ _ _ _) as [[[ci v] new] w3|e' s'|] eqn:Hnew;
      [| |done].
    + destruct (advance_notifiers _ _ _ _ _ _ _) as [ci4 w4|e' s'|] eqn:Hadv; [done| |done].
      exfalso. revert Hadv. unfold advance_notifiers.
      destruct (m_notifier_sg _); [|done]. destruct (_ !! 0); [|done].
      unfold advance. done.
    + exfalso. revert Hnew. unfold advance_new_notifiers.
      destruct (is_empty _); [done|].
      destruct (m_advancer_sg _); [|done]. destruct (head _); [|done].
      destruct (negb _); [done|]. destruct (back _); [|done].
      unfold advance. done.
Qed.

Lemma emit_follows (w w1 : World C) es :
  follows w w1 → Forall (λ e, neutral e = true) es → follows w (emit es w1).
Proof.
  intros Hf Hes. eapply follows_trans; [exact Hf|].
  apply (follows_neutral _ _ es); [reflexivity|exact Hes|reflexivity].
Qed.

Lemma advance_to_ready_alone (sg sg' : SharedGroup) (w w' : World C) :
  advance_to_ready deliver [] sg w = Some (sg', w') →
  follows w w' ∧ coordinator w' = coordinator w.
Proof.
  unfold advance_to_ready.
  destruct (_ =? _)%N.
  { intros [= <- <-]. split; [|done].
    apply emit_follows; [apply follows_refl|by repeat constructor]. }
  destruct (VersionID_ltb _ _).
  { intros [= <- <-]. split; [apply follows_refl|done]. }
  cbn [advance_to_ready_loop].
  cbn [coordinator emit].
  destruct (_ =? _)%N.
  { intros [= <- <-]. split; [|done].
    apply emit_follows; [|done].
    apply emit_follows; [apply follows_refl|by repeat constructor]. }
  destruct (negb _); [done|].
  unfold deliver_all. intros [= <- <-]. split; [|done].
  apply emit_follows; [|by apply Forall_neutral_fmap].
  apply emit_follows; [|by apply Forall_neutral_fmap].
  apply (emit_follows w w); [apply follows_refl|by repeat constructor].
Qed.

Lemma call_follows (k : Call) (w w' : World C) :
  entry_point k = true →
  reads_held (coordinator w) →
  call merge table_log list_log deliver k w = Some w' →
  follows w w' ∧ reads_held (coordinator w').
Proof.
  intros Hk Hinv. destruct k; simpl in *; try done.
  - destruct (register_notifier notifier w) as [[] w1|e w1|] eqn:Hreg; [| |done].
    + intros [= <-]. by apply (register_notifier_follows w w1 notifier).
    + exfalso. revert Hreg. unfold register_notifier, pin_version. unfold_M.
      destruct (bool_decide _); [done|].
      destruct (m_advancer_sg _).
      * destruct (is_empty _); [done|]. by destruct (VersionID_ltb _ _).
      * by destruct (open_with_config w).
  - intros [= <-]. destruct (clean_up_follows w) as [? H]. auto.
  - destruct (run_async_notifiers _ _ _ w) as [r w1|e w1|] eqn:Hrun; [| |done].
    + intros [= <-]. by apply (run_async_notifiers_follows w w1 r).
    + by apply run_async_notifiers_no_throw in Hrun.
  - unfold on_change. unfold_M.
    destruct (run_async_notifiers _ _ _ w) as [r w1|e w1|] eqn:Hrun; [| |done].
    + simpl. intros [= <-].
      destruct (run_async_notifiers_follows w w1 r Hinv Hrun) as [Hf Hinv1].
      split; [|exact Hinv1].
      apply emit_follows; [exact Hf|].
      rewrite <- list_fmap_compose. by apply Forall_neutral_fmap.
    + by apply run_async_notifiers_no_throw in Hrun.
  - destruct interleavings; [|done].
    destruct (advance_to_ready deliver [] sg w) as [[sg' w1]|] eqn:Hadv; [|done].
    simpl. intros [= <-].
    apply advance_to_ready_alone in Hadv as [Hf Hc].
    split; [exact Hf|by rewrite Hc].
  - intros [= <-]. unfold process_available_async, deliver_all.
    split; [|exact Hinv].
    apply emit_follows; [|by apply Forall_neutral_fmap].
    apply (emit_follows w w); [apply follows_refl|by apply Forall_neutral_fmap].
  - unfold send_commit_notifications. unfold_M.
    destruct (negb _); [|done].
    destruct (m_notifier (coordinator w)); intros [= <-].
    + split; [|exact Hinv].
      apply (emit_follows w w); [apply follows_refl|by repeat constructor].
    + split; [apply follows_refl|exact Hinv].
  - intros [= <-]. split; [|exact Hinv].
    apply (follows_neutral _ _ []); [by rewrite app_nil_r|done|reflexivity].
Qed.

(** X11: started from a coordinator whose transactions hold a read exactly
    when their list of notifiers is not empty, as on a new coordinator, any
    sequence of calls that the process survives keeps to the discipline of
    the background transactions: neither is opened twice, a read is begun
    only on a transaction that holds none, only a transaction that holds a
    read is advanced, and a read is ended only on a transaction that
    exists; and afterwards each transaction again holds a read exactly when
    its list is not empty, unless an error is latched. *)
Theorem background_transactions_discipline (ks : list Call) (w w' : World C) :
  reads_held (coordinator w) →
  Forall (λ k, entry_point k = true) ks →
  run_calls merge table_log list_log deliver ks w = Some w' →
  follows w w' ∧ reads_held (coordinator w').
Proof.
  revert w. induction ks as [|k ks IH]; intros w Hinv Hks; simpl.
  - intros [= <-]. split; [apply follows_refl|done].
  - apply Forall_cons in Hks as [Hk Hks].
    destruct (call merge table_log list_log deliver k w) as [w1|] eqn:Hcall; [|done].
    simpl. intros Hrun.
    destruct (call_follows k w w1 Hk Hinv Hcall) as [Hf1 Hinv1].
    destruct (IH w1 Hinv1 Hks Hrun) as [Hf2 Hinv2].
    split; [by eapply follows_trans|done].
Qed.
End Protocol.

Lemma background_transactions_discipline_witness :
  ∃ w', run_calls app example_table_log example_list_log example_deliver
          [Call_register_notifier (example_notifier 1 3 true);
           Call_register_notifier (example_notifier 2 5 true);
           Call_on_change;
           Call_register_notifier (example_notifier 3 7 false);
           Call_on_change]
          (example_world 7 OpenOk) = Some w'
        ∧ follows (example_world 7 OpenOk) w'.
Proof.
  eexists. split; [vm_compute; reflexivity|].
  apply (background_transactions_discipline app example_table_log example_list_log
           example_deliver
           [Call_register_notifier (example_notifier 1 3 true);
            Call_register_notifier (example_notifier 2 5 true);
            Call_on_change;
            Call_register_notifier (example_notifier 3 7 false);
            Call_on_change]).
  - intros _. split; simpl; done.
  - repeat constructor.
  - vm_compute. reflexivity.
Defined.

(** ** Failing to open a background transaction *)

Section Open_fails.
Context {C : Type}.
Variable merge : C → C → C.
Variable table_log : N → N → list C.
Variable list_log : N → N → ListChangeInfo → C.
Variable deliver : BackgroundCollection → SharedGroup → option Exception → bool.

(** X12: when the advancer transaction cannot be opened at a registration,
    the exception is latched, the coordinator stays without advancer
    transaction and the notifier is staged all the same; the next cycle
    then moves it behind the active notifiers without opening anything, and
    [process_available_async] hands the latched exception to [deliver] for
    every active notifier and calls the callbacks of those for which
    [deliver] answers true. *)
Theorem register_notifier_open_fails (w : World C) (n : BackgroundCollection)
    (e : Exception) :
  m_async_error (coordinator w) = None →
  m_advancer_sg (coordinator w) = None →
  open_with_config w = OpenThrows e →
  let w1 :=
    update_coordinator (λ c, set_m_new_notifiers (m_new_notifiers c ++ [n]) c)
      (emit [EvOpenWithConfig AdvancerSG]
         (update_coordinator
            (λ c, set_m_advancer_sg None (set_m_async_error (Some e) c)) w)) in
  let w2 := update_coordinator drain_new_notifiers w1 in
  register_notifier n w = Returned tt w1
  ∧ (Forall (λ n, is_alive n = true) (m_notifiers (coordinator w)) →
     Forall (λ n, is_alive n = true) (m_new_notifiers (coordinator w)) →
     is_alive n = true →
     run_async_notifiers merge table_log list_log w1 = Returned None w2
     ∧ m_notifiers (coordinator w2)
       = m_notifiers (coordinator w) ++ m_new_notifiers (coordinator w) ++ [n]
     ∧ trace w2 = trace w1)
  ∧ (∀ sg, process_available_async deliver sg w2
           = emit (EvCallCallbacks <$>
                     (notifier_id <$>
                        filter (λ n, deliver n sg (Some e)) (m_notifiers (coordinator w2))))
               (emit (EvDeliver <$> (notifier_id <$> m_notifiers (coordinator w2))) w2)).
Proof.
  intros Herr Hadv Hopen w1 w2. split_and!.
  - unfold register_notifier, pin_version. unfold_M.
    rewrite Herr, Hadv, Hopen. simpl. reflexivity.
  - intros Ha1 Ha2 Ha3.
    assert (Hclean : clean_up_dead_notifiers w1 = w1).
    { apply clean_up_all_alive; [done|]. simpl. apply Forall_app. split; [done|].
      by repeat constructor. }
    rewrite run_async_notifiers_latched by (simpl; eauto).
    cbv zeta. rewrite Hclean.
    replace (is_empty (m_new_notifiers (coordinator w1))) with false
      by (simpl; by rewrite is_empty_snoc).
    rewrite andb_false_r. split_and!; [done| |done].
    simpl. done.
  - intros sg. reflexivity.
Qed.

(** X13: when the notifier transaction cannot be opened in a cycle, the
    exception is latched, every notifier that was staged is moved behind
    the active ones, nothing is advanced, and the advancer transaction is
    left as it was: it keeps the read it holds. *)
Theorem run_async_notifiers_open_fails (w : World C) (e : Exception) :
  let w1 := clean_up_dead_notifiers w in
  m_async_error (coordinator w) = None →
  m_notifier_sg (coordinator w) = None →
  open_with_config w = OpenThrows e →
  is_empty (m_notifiers (coordinator w1)) && is_empty (m_new_notifiers (coordinator w1))
    = false →
  ∃ w2, run_async_notifiers merge table_log list_log w = Returned None w2
    ∧ m_async_error (coordinator w2) = Some e
    ∧ m_notifiers (coordinator w2)
      = m_notifiers (coordinator w1) ++ m_new_notifiers (coordinator w1)
    ∧ m_new_notifiers (coordinator w2) = []
    ∧ m_advancer_sg (coordinator w2) = m_advancer_sg (coordinator w1)
    ∧ m_notifier_sg (coordinator w2) = None
    ∧ trace w2 = trace w1 ++ [EvOpenWithConfig NotifierSG].
Proof.
  intros w1 Herr Hntf Hopen Hboth.
  assert (Herr1 : m_async_error (coordinator w1) = None).
  { unfold w1. by rewrite clean_up_async_error. }
  assert (Hopen1 : open_with_config w1 = OpenThrows e).
  { unfold w1. destruct (clean_up_latest w) as [_ ->]. done. }
  assert (Hntf1 : m_notifier_sg (coordinator w1) = None).
  { unfold w1. destruct (clean_up_dead_notifiers_eq w)
      as (l1 & l2 & d1 & d2 & _ & _ & _ & _ & _ & _ & _ & _ & ->).
    cbv zeta. simpl. rewrite Hntf. by destruct (all_reaped _). }
  rewrite run_async_notifiers_phases. cbv zeta. fold w1. rewrite Hboth.
  unfold latched at 1. rewrite Herr1. simpl.
  unfold open_helper_shared_group. rewrite Hntf1, Hopen1.
  change (latched (emit _ (update_coordinator _ w1))) with true. cbv iota.
  eexists. split; [reflexivity|]. done.
Qed.
End Open_fails.

Lemma register_notifier_open_fails_witness :
  register_notifier (example_notifier 1 3 true)
    (example_world 3 (OpenThrows (other_exception "I/O error")))
  = Returned tt example_world_latched.
Proof.
  apply (register_notifier_open_fails app example_table_log example_list_log
           example_deliver (example_world 3 (OpenThrows (other_exception "I/O error")))
           (example_notifier 1 3 true) (other_exception "I/O error"));
    reflexivity.
Defined.

Lemma run_async_notifiers_open_fails_witness :
  ∃ w2, run_async_notifiers app example_table_log example_list_log
          (mkWorld (coordinator example_world_two_staged) (builders example_world_two_staged)
             (V 7) (OpenThrows (other_exception "I/O error")) [])
        = Returned None w2
    ∧ m_async_error (coordinator w2) = Some (other_exception "I/O error").
Proof.
  destruct (run_async_notifiers_open_fails app example_table_log example_list_log
              (mkWorld (coordinator example_world_two_staged)
                 (builders example_world_two_staged)
                 (V 7) (OpenThrows (other_exception "I/O error")) [])
              (other_exception "I/O error"))
    as (w2 & Hrun & Herr & _); [vm_compute; reflexivity..|].
  exists w2. by split.
Defined.

(** ** Registrations followed by a cycle *)

Lemma register_notifier_ok {C} (w : World C) (n : BackgroundCollection) :
  m_async_error (coordinator w) = None →
  open_with_config w = OpenOk →
  ∃ w', register_notifier n w = Returned tt w'
    ∧ m_async_error (coordinator w') = None
    ∧ open_with_config w' = OpenOk
    ∧ latest w' = latest w
    ∧ m_new_notifiers (coordinator w') = m_new_notifiers (coordinator w) ++ [n]
    ∧ m_notifiers (coordinator w') = m_notifiers (coordinator w)
    ∧ m_notifier_sg (coordinator w') = m_notifier_sg (coordinator w).
Proof.
  intros Herr Hopen. unfold register_notifier, pin_version. unfold_M.
  rewrite Herr, Hopen. simpl.
  destruct (m_advancer_sg (coordinator w)) as [sg|].
  - destruct (is_empty _); [by eexists|].
    destruct (VersionID_ltb _ _); by eexists.
  - by eexists.
Qed.

Section Registrations.
Context {C : Type}.
Variable merge : C → C → C.
Variable table_log : N → N → list C.
Variable list_log : N → N → ListChangeInfo → C.
Variable deliver : BackgroundCollection → SharedGroup → option Exception → bool.

Lemma register_all (ns : list BackgroundCollection) :
  ∀ w : World C,
    m_async_error (coordinator w) = None →
    open_with_config w = OpenOk →
    pinned_at_minimum (coordinator w) →
    Forall (λ n, origin n ≠ uint64_max) ns →
    ∃ w', run_calls merge table_log list_log deliver (Call_register_notifier <$> ns) w
          = Some w'
      ∧ m_async_error (coordinator w') = None
      ∧ open_with_config w' = OpenOk
      ∧ latest w' = latest w
      ∧ pinned_at_minimum (coordinator w')
      ∧ m_new_notifiers (coordinator w') = m_new_notifiers (coordinator w) ++ ns
      ∧ m_notifiers (coordinator w') = m_notifiers (coordinator w)
      ∧ m_notifier_sg (coordinator w') = m_notifier_sg (coordinator w).
Proof.
  induction ns as [|n ns IH]; intros w Herr Hopen Hpin Hdef.
  { exists w. rewrite app_nil_r. by split_and!. }
  apply Forall_cons in Hdef as [Hn Hdef].
  destruct (register_notifier_ok w n Herr Hopen)
    as (w1 & Hreg & Herr1 & Hopen1 & Hlatest1 & Hnew1 & Hact1 & Hsg1).
  pose proof (register_notifier_pins w w1 n Hn Hpin Hreg) as Hpin1.
  destruct (IH w1 Herr1 Hopen1 Hpin1 Hdef)
    as (w' & Hrun & Herr' & Hopen' & Hlatest' & Hpin' & Hnew' & Hact' & Hsg').
  exists w'. cbn [fmap list_fmap run_calls call]. rewrite Hreg. cbn [state_of mbind option_bind].
  split_and!; [done|done|done|congruence|done| |congruence|congruence].
  by rewrite Hnew', Hnew1, <- app_assoc.
Qed.

(** X14: on a coordinator without latched error whose background
    transactions can be opened, registering notifiers with defined versions
    leaves the advancer transaction on the oldest staged version, and the
    cycle that follows, no notifier having died meanwhile, passes its
    assertion and returns a [change_info] with one entry more than there
    are distinct versions among the staged notifiers; afterwards nothing is
    staged and the advancer transaction holds no read. *)
Theorem registrations_then_cycle (w : World C) (ns : list BackgroundCollection) :
  m_async_error (coordinator w) = None →
  open_with_config w = OpenOk →
  pinned_at_minimum (coordinator w) →
  Forall (λ n, is_alive n = true) (m_notifiers (coordinator w)) →
  Forall (λ n, is_alive n = true ∧ origin n ≠ uint64_max)
    (m_new_notifiers (coordinator w) ++ ns) →
  ns ≠ [] →
  ∃ w1, run_calls merge table_log list_log deliver (Call_register_notifier <$> ns) w
        = Some w1
    ∧ pinned_at_minimum (coordinator w1)
    ∧ ∃ change_info w2,
        run_async_notifiers merge table_log list_log w1 = Returned (Some change_info) w2
        ∧ length change_info
          = 1 + distinct_origins (m_new_notifiers (coordinator w) ++ ns)
        ∧ m_new_notifiers (coordinator w2) = []
        ∧ m_advancer_sg (coordinator w2) = Some (mkSharedGroup None).
Proof.
  intros Herr Hopen Hpin Hact Hall Hne.
  assert (Hdef : Forall (λ n, origin n ≠ uint64_max) ns).
  { apply Forall_app in Hall as [_ Hall]. eapply Forall_impl; [exact Hall|]. by intros ? []. }
  destruct (register_all ns w Herr Hopen Hpin Hdef)
    as (w1 & Hrun & Herr1 & Hopen1 & Hlatest1 & Hpin1 & Hnew1 & Hact1 & Hsg1).
  exists w1. split_and!; [done|done|].
  assert (Hclean : clean_up_dead_notifiers w1 = w1).
  { apply clean_up_all_alive; [by rewrite Hact1|]. rewrite Hnew1.
    eapply Forall_impl; [exact Hall|]. by intros ? []. }
  assert (Hstaged : m_new_notifiers (coordinator w1) ≠ []).
  { rewrite Hnew1. intros H. by apply app_eq_nil in H as [_ ?]. }
  destruct (Hpin1 Hstaged Herr1) as (sg & v0 & Hsg & Hv0 & Hmin).
  destruct (run_async_notifiers_staged merge table_log list_log w1 sg v0)
    as (info0 & slots & w2 & Hcycle & _ & Hslots & _ & Hadv & Hnew2);
    rewrite ?Hclean; try done.
  { by right. }
  { rewrite Hnew1. eapply Forall_impl; [exact Hall|]. by intros ? []. }
  exists (merge_pass merge (info0 :: slots)), w2.
  split_and!; [done| |done|done].
  rewrite Hclean in Hslots.
  destruct (sort_by_version_front (m_new_notifiers (coordinator w1)) (version v0)
              (eq_sym Hmin)) as (front & rest & Hsort & Hfront & Hasc).
  change (merge_pass merge (info0 :: slots)) with (merge_from merge 2 (info0 :: slots)).
  rewrite length_merge_from. cbn [length].
  rewrite <- (length_fmap tables slots), Hslots, length_app, length_closed_tables.
  rewrite <- Hnew1.
  rewrite <- (distinct_origins_perm _ _ (sort_by_version_perm (m_new_notifiers (coordinator w1)))).
  rewrite Hsort, (distinct_origins_ascending _ _ Hasc).
  cbn [slot_versions]. rewrite Hfront, N.eqb_refl. simpl. lia.
Qed.
End Registrations.

Lemma registrations_then_cycle_witness :
  ∃ w1, run_calls app example_table_log example_list_log example_deliver
          (Call_register_notifier <$> [example_notifier 1 3 true; example_notifier 2 5 true])
          (example_world 7 OpenOk)
        = Some w1
    ∧ pinned_at_minimum (coordinator w1).
Proof.
  destruct (registrations_then_cycle app example_table_log example_list_log
              example_deliver (example_world 7 OpenOk)
              [example_notifier 1 3 true; example_notifier 2 5 true])
    as (w1 & Hrun & Hpin & _).
  - reflexivity.
  - reflexivity.
  - intros H. by destruct H.
  - constructor.
  - repeat constructor; done.
  - done.
  - exists w1. by split.
Defined.

(** ** What a cycle leaves behind *)

Lemma filter_alive_twice (l : list BackgroundCollection) :
  filter (λ n, is_alive n = true) (filter (λ n, is_alive n = true) l)
  = filter (λ n, is_alive n = true) l.
Proof. apply filter_all. intros n Hn. by apply list_elem_of_filter in Hn as [? _]. Qed.

Section Summary.
Context {C : Type}.
Variable merge : C → C → C.
Variable table_log : N → N → list C.
Variable list_log : N → N → ListChangeInfo → C.
Variable deliver : BackgroundCollection → SharedGroup → option Exception → bool.

Lemma open_helper_shared_group_frame (w w' : World C) :
  open_helper_shared_group w = Returned tt w' →
  same_handles (coordinator w) (coordinator w')
  ∧ m_notifiers (coordinator w') = m_notifiers (coordinator w)
  ∧ m_new_notifiers (coordinator w') = m_new_notifiers (coordinator w).
Proof.
  unfold open_helper_shared_group.
  destruct (m_notifier_sg _); [destruct (is_empty _)|destruct (open_with_config w)];
    try done; by intros [= <-].
Qed.

Lemma advance_new_notifiers_frame (w w' : World C) staged change_info v new_notifiers :
  advance_new_notifiers merge table_log list_log staged w
  = Returned (change_info, v, new_notifiers) w' →
  same_handles (coordinator w) (coordinator w')
  ∧ m_notifiers (coordinator w') = m_notifiers (coordinator w)
  ∧ m_new_notifiers (coordinator w') = m_new_notifiers (coordinator w)
  ∧ m_async_error (coordinator w') = m_async_error (coordinator w)
  ∧ new_notifiers ≡ₚ staged.
Proof.
  unfold advance_new_notifiers.
  destruct (is_empty staged); [by intros [= <- <- <- <-]|].
  destruct (m_advancer_sg _); [|done]. destruct (head _); [|done].
  destruct (negb _); [done|]. destruct (back _); [|done].
  unfold advance. cbv beta iota zeta. intros [= <- <- <- <-].
  split_and!; [done..|apply sort_by_version_perm].
Qed.

Lemma advance_notifiers_frame (w w' : World C) change_info v notifiers change_info' :
  advance_notifiers merge table_log list_log change_info v notifiers w
  = Returned change_info' w' →
  same_handles (coordinator w) (coordinator w')
  ∧ m_notifiers (coordinator w') = m_notifiers (coordinator w)
  ∧ m_new_notifiers (coordinator w') = m_new_notifiers (coordinator w)
  ∧ m_async_error (coordinator w') = m_async_error (coordinator w).
Proof.
  unfold advance_notifiers.
  destruct (m_notifier_sg _); [|done]. destruct (_ !! 0); [|done].
  unfold advance. cbv beta iota zeta. by intros [= <- <-].
Qed.

Lemma clean_up_frame (w : World C) :
  let w' := clean_up_dead_notifiers w in
  same_handles (coordinator w) (coordinator w')
  ∧ m_notifiers (coordinator w')
    ≡ₚ filter (λ n, is_alive n = true) (m_notifiers (coordinator w))
  ∧ m_new_notifiers (coordinator w')
    ≡ₚ filter (λ n, is_alive n = true) (m_new_notifiers (coordinator w))
  ∧ m_async_error (coordinator w') = m_async_error (coordinator w).
Proof.
  destruct (clean_up_dead_notifiers_eq w)
    as (l1 & l2 & d1 & d2 & Hl1 & Hl2 & _ & _ & _ & _ & _ & _ & Heq).
  cbv zeta in *. rewrite Heq. by split_and!.
Qed.

(** What [run_async_notifiers] leaves behind when it returns. *)
Lemma run_async_notifiers_summary (w w' : World C) r :
  run_async_notifiers merge table_log list_log w = Returned r w' →
  same_handles (coordinator w) (coordinator w')
  ∧ m_new_notifiers (coordinator w') = []
  ∧ m_notifiers (coordinator w')
    ≡ₚ filter (λ n, is_alive n = true)
         (m_notifiers (coordinator w) ++ m_new_notifiers (coordinator w))
  ∧ (is_Some r → m_async_error (coordinator w') = None
                 ∧ m_async_error (coordinator w) = None).
Proof.
  rewrite run_async_notifiers_phases. cbv zeta.
  destruct (clean_up_frame w) as ((Hc1 & Hn1 & Hw1) & Hact1 & Hnew1 & Herr1).
  cbv zeta in *. set (w1 := clean_up_dead_notifiers w) in *.
  rewrite filter_app.
  destruct (is_empty (m_notifiers (coordinator w1))
            && is_empty (m_new_notifiers (coordinator w1))) eqn:Hboth.
  { intros [= <- <-]. apply andb_true_iff in Hboth as [H1 H2].
    destruct (m_notifiers (coordinator w1)); [|done].
    destruct (m_new_notifiers (coordinator w1)); [|done].
    split_and!; [done|done| |by intros [? ?]].
    by rewrite <- Hact1, <- Hnew1. }
  assert (Hdrain : ∀ w2 : World C,
            same_handles (coordinator w1) (coordinator w2) →
            m_notifiers (coordinator w2) = m_notifiers (coordinator w1) →
            m_new_notifiers (coordinator w2) = m_new_notifiers (coordinator w1) →
            Returned (A := option (list (TransactionChangeInfo C))) None
              (update_coordinator drain_new_notifiers w2) = Returned r w' →
            same_handles (coordinator w) (coordinator w')
            ∧ m_new_notifiers (coordinator w') = []
            ∧ m_notifiers (coordinator w')
              ≡ₚ filter (λ n, is_alive n = true) (m_notifiers (coordinator w))
                 ++ filter (λ n, is_alive n = true) (m_new_notifiers (coordinator w))
            ∧ (is_Some r → m_async_error (coordinator w') = None
                           ∧ m_async_error (coordinator w) = None)).
  { intros w2 (Hc2 & Hn2 & Hw2) Hact2 Hnew2 [= <- <-].
    split_and!; [split_and!; simpl; congruence|done| |by intros [? ?]].
    simpl. by rewrite Hact2, Hnew2, Hact1, Hnew1. }
  destruct (latched w1) eqn:Hl1.
  { rewrite Hl1. by apply Hdrain. }
  destruct (open_helper_shared_group w1) as [[] w2| |] eqn:Hopen; [|done|done].
  apply open_helper_shared_group_frame in Hopen as (Hh2 & Hact2 & Hnew2).
  destruct (latched w2) eqn:Hl2.
  { by apply Hdrain. }
  destruct (advance_new_notifiers _ _ _ _ _) as [[[ci v] new] w3| |] eqn:Hnew; [|done|done].
  apply advance_new_notifiers_frame in Hnew as (Hh3 & Hact3 & Hnew3 & Herr3 & Hperm).
  destruct (advance_notifiers _ _ _ _ _ _ _) as [ci4 w4| |] eqn:Hadv; [|done|done].
  apply advance_notifiers_frame in Hadv as (Hh4 & Hact4 & Hnew4 & Herr4).
  intros [= <- <-]. unfold cycle_end. cbv zeta.
  match goal with |- context [clean_up_dead_notifiers ?x] => set (w5 := x) end.
  destruct (clean_up_frame w5) as ((Hc6 & Hn6 & Hw6) & Hact6 & Hnew6 & Herr6).
  cbv zeta in *.
  assert (Hnew5 : m_new_notifiers (coordinator w5) = []).
  { unfold w5. simpl. by rewrite Hnew4, Hnew3. }
  rewrite Hnew5, filter_nil in Hnew6. apply Permutation_nil_r in Hnew6.
  destruct Hh2 as (? & ? & ?), Hh3 as (? & ? & ?), Hh4 as (? & ? & ?).
  simpl in *.
  split_and!.
  - split_and!; congruence.
  - done.
  - rewrite Hact6. unfold w5. simpl. rewrite filter_app, Hact2, Hperm, Hnew2.
    by rewrite Hact1, Hnew1, !filter_alive_twice.
  - intros _. unfold latched in Hl1, Hl2.
    apply bool_decide_eq_false in Hl1, Hl2.
    assert (Hnone : ∀ o : option Exception, ¬ is_Some o → o = None).
    { intros [x|] Ho; [|done]. destruct Ho. eauto. }
    apply Hnone in Hl1, Hl2. split; [|congruence].
    rewrite Herr6. unfold w5. simpl. congruence.
Qed.

(** X15: [on_change] runs a cycle and then calls [notify] once on each
    handle the coordinator has a weak reference to, in the order of the
    list, whatever the cycle had to do; the cycle itself leaves the
    configuration, the commit notifier and the weak references alone; and
    [on_change] fails exactly when the cycle fails its assertions. *)
Theorem on_change_notifies_handles (w : World C) :
  match run_async_notifiers merge table_log list_log w with
  | Returned r w1 =>
      on_change merge table_log list_log w
      = Returned tt
          (emit (EvNotify <$> (wrn_realm <$> m_weak_realm_notifiers (coordinator w))) w1)
      ∧ same_handles (coordinator w) (coordinator w1)
  | Thrown e w1 => False
  | Aborted => on_change merge table_log list_log w = Aborted
  end.
Proof.
  unfold on_change. unfold_M.
  destruct (run_async_notifiers merge table_log list_log w) as [r w1|e w1|] eqn:Hrun.
  - destruct (run_async_notifiers_summary w w1 r Hrun) as ((Hc & Hn & Hw) & _).
    split; [|done]. by rewrite Hw.
  - by apply run_async_notifiers_no_throw in Hrun.
  - done.
Qed.

(** X16: when [run_async_notifiers] returns, no notifier is staged any
    more and the active notifiers are the notifiers of both lists that are
    alive; it returns a [change_info] only when no error is latched. *)
Theorem run_async_notifiers_activates_staged (w w' : World C)
    (r : option (list (TransactionChangeInfo C))) :
  run_async_notifiers merge table_log list_log w = Returned r w' →
  m_new_notifiers (coordinator w') = []
  ∧ m_notifiers (coordinator w')
    ≡ₚ filter (λ n, is_alive n = true)
         (m_notifiers (coordinator w) ++ m_new_notifiers (coordinator w))
  ∧ (is_Some r → m_async_error (coordinator w') = None
                 ∧ m_async_error (coordinator w) = None).
Proof.
  intros Hrun. by destruct (run_async_notifiers_summary w w' r Hrun) as (_ & ? & ? & ?).
Qed.
End Summary.

Lemma run_async_notifiers_activates_staged_witness :
  m_new_notifiers
    (coordinator
       (returned (run_async_notifiers app example_table_log example_list_log
                    example_world_S4) example_world_S4))
  = [].
Proof.
  eapply (run_async_notifiers_activates_staged app example_table_log example_list_log
            example_world_S4).
  vm_compute. reflexivity.
Defined.

(** ** Delivery without interference *)

Section Undisturbed.
Context {C : Type}.
Variable deliver : BackgroundCollection → SharedGroup → option Exception → bool.

(** X17: when the background thread does not interfere and the version
    the notifiers are prepared at is not behind the handle's transaction,
    [advance_to_ready] is one advance of the handle's transaction to that
    version followed by what [process_available_async] does: [deliver] on
    every active notifier and then the callbacks of those for which it
    answers true. *)
Theorem advance_to_ready_undisturbed (sg : SharedGroup) (w : World C) :
  let target := get_notifier_version (m_notifiers (coordinator w)) in
  version target ≠ uint64_max →
  VersionID_ltb target (get_version_of_current_transaction sg) = false →
  advance_to_ready deliver [] sg w
  = Some (mkSharedGroup (Some target),
          process_available_async deliver (mkSharedGroup (Some target))
            (emit [EvAdvance HandleSG target] w)).
Proof.
  intros target Hdef Hlt. unfold advance_to_ready. fold target.
  destruct (N.eqb_spec (version target) uint64_max) as [|_]; [done|].
  rewrite Hlt. cbn [advance_to_ready_loop].
  rewrite (resolve_defined _ _ Hdef).
  cbn [coordinator emit]. fold target.
  destruct (N.eqb_spec (version target) uint64_max) as [|_]; [done|].
  unfold get_version_of_current_transaction. cbn [current_transaction default].
  unfold VersionID_eqb. rewrite N.eqb_refl. cbn [negb].
  unfold process_available_async. reflexivity.
Qed.
End Undisturbed.

Lemma advance_to_ready_undisturbed_witness :
  advance_to_ready example_deliver [] (mkSharedGroup (Some (V 5))) example_world_ready
  = Some (mkSharedGroup (Some (V 7)),
          process_available_async example_deliver (mkSharedGroup (Some (V 7)))
            (emit [EvAdvance HandleSG (V 7)] example_world_ready)).
Proof.
  apply (advance_to_ready_undisturbed example_deliver (mkSharedGroup (Some (V 5)))
           example_world_ready).
  - vm_compute. discriminate.
  - reflexivity.
Defined.

(** ** The changes of link lists *)

Section Lists.
Context {C : Type}.
Variable merge : C → C → C.
Variable table_log : N → N → list C.
Variable list_log : N → N → ListChangeInfo → C.

Lemma report_lists_lookup_other (from to : N) ls (b : gmap nat C) (p : nat) :
  p ∉ changes <$> ls → report_lists merge list_log from to ls b !! p = b !! p.
Proof.
  unfold report_lists. revert b. induction ls as [|l ls IH]; intros b Hp; [done|].
  rewrite fmap_cons in Hp. apply not_elem_of_cons in Hp as [Hne Hp].
  simpl. rewrite IH by done. by rewrite lookup_alter_ne.
Qed.

Lemma report_lists_lookup (from to : N) ls (b : gmap nat C) (l : ListChangeInfo) :
  NoDup (changes <$> ls) → l ∈ ls →
  report_lists merge list_log from to ls b !! changes l
  = (λ c, merge c (list_log from to l)) <$> b !! changes l.
Proof.
  unfold report_lists. revert b. induction ls as [|l0 ls IH]; intros b Hnd Hl.
  { by apply elem_of_nil in Hl. }
  rewrite fmap_cons in Hnd. apply NoDup_cons in Hnd as [Hl0 Hnd].
  apply elem_of_cons in Hl as [->|Hl]; simpl.
  - fold (report_lists merge list_log from to ls
            (alter (λ c, merge c (list_log from to l0)) (changes l0) b)).
    rewrite report_lists_lookup_other by done. by rewrite lookup_alter_eq.
  - rewrite IH by done. rewrite lookup_alter_ne; [done|].
    intros Heq. apply Hl0. rewrite Heq. by apply list_elem_of_fmap_2.
Qed.

Lemma lists_add_required (info : TransactionChangeInfo C) ns :
  lists (foldl (λ info n, add_required_change_info n info) info ns)
  = lists info ++ (ns ≫= required_lists).
Proof.
  revert info. induction ns as [|n ns IH]; intros info; simpl.
  - by rewrite app_nil_r.
  - rewrite IH. simpl. by rewrite <- app_assoc.
Qed.

Lemma dedup_inner_distinct ls li (j : nat) (b : gmap nat C) :
  (∀ (j' : nat) lj, j' < j → ls !! j' = Some lj → list_id li ≠ list_id lj) →
  dedup_inner merge ls li j b = b.
Proof.
  induction j as [|j IH]; intros Hj; [done|]. simpl.
  destruct (ls !! j) as [lj|] eqn:Hlj.
  - rewrite bool_decide_eq_false_2 by (apply (Hj j); [lia|done]).
    apply IH. intros j' lj' Hlt. apply Hj. lia.
  - apply IH. intros j' lj' Hlt. apply Hj. lia.
Qed.

Lemma dedup_lists_distinct ls (b : gmap nat C) :
  NoDup (list_id <$> ls) → dedup_lists merge ls b = b.
Proof.
  intros Hnd. unfold dedup_lists. generalize (seq 1 (length ls - 1)). intros idx.
  induction idx as [|i idx IH]; [done|]. simpl.
  destruct (ls !! i) as [li|] eqn:Hli; [|done].
  rewrite dedup_inner_distinct; [done|].
  intros j' lj Hlt Hlj Heq.
  assert (i = j'); [|lia].
  apply (NoDup_lookup _ _ _ (list_id li) Hnd).
  - by rewrite list_lookup_fmap, Hli.
  - by rewrite list_lookup_fmap, Hlj, Heq.
Qed.

Lemma dedup_pass_distinct (ci : list (TransactionChangeInfo C)) (b : gmap nat C) :
  Forall (λ info, NoDup (list_id <$> lists info)) ci → dedup_pass merge ci b = b.
Proof.
  unfold dedup_pass. induction 1 as [|info ci Hinfo _ IH]; [done|]. simpl.
  by rewrite dedup_lists_distinct.
Qed.

Lemma merge_pass_lists (info0 : TransactionChangeInfo C) slots :
  lists <$> merge_pass merge (info0 :: slots) = lists info0 :: (lists <$> slots).
Proof.
  change (merge_pass merge (info0 :: slots)) with (merge_from merge 2 (info0 :: slots)).
  rewrite merge_from_cons by done. simpl. f_equal. apply merge_from_1_lists.
Qed.

Lemma clean_up_builders (w : World C) :
  builders (clean_up_dead_notifiers w) = builders w.
Proof.
  unfold clean_up_dead_notifiers.
  destruct (swap_remove (m_notifiers _)) as [[l1 r1] d1].
  destruct (swap_remove (m_new_notifiers _)) as [[l2 r2] d2].
  destruct (d1 && is_empty l1), (d2 && is_empty l2),
    (m_notifier_sg (coordinator w)), (m_advancer_sg (coordinator w)); reflexivity.
Qed.

Lemma pointers_perm ns ms : ns ≡ₚ ms → pointers ns ≡ₚ pointers ms.
Proof. intros Hp. unfold pointers. by rewrite Hp. Qed.

Section Composition.
Hypothesis list_log_compose : ∀ (a b c : N) (l : ListChangeInfo) (x : C),
  (a < b)%N → (b ≤ c)%N →
  merge (merge x (list_log a b l)) (list_log b c l) = merge x (list_log a c l).

Lemma covered_advance (o : option C) (a v v' : N) (l : ListChangeInfo) :
  (a ≤ v)%N → (v < v')%N →
  (λ c, merge c (list_log v v' l)) <$> covered merge list_log o a v l
  = covered merge list_log o a v' l.
Proof.
  intros Hav Hvv. unfold covered.
  destruct (N.eqb_spec a v) as [Heq|Hne], (N.eqb_spec a v') as [Heq'|Hne']; try lia.
  - by subst a.
  - destruct o as [c|]; [|done]. simpl. f_equal. apply list_log_compose; lia.
Qed.

Lemma covered_final (o : option C) (a v T : N) (l : ListChangeInfo) :
  (a ≤ v)%N → (v ≤ T)%N →
  (λ c, merge c (list_log v T l)) <$> covered merge list_log o a v l
  = (λ c, merge c (list_log a T l)) <$> o.
Proof.
  intros Hav HvT. unfold covered.
  destruct (N.eqb_spec a v) as [->|Hne]; [done|].
  destruct o as [c|]; [|done]. simpl. f_equal. apply list_log_compose; lia.
Qed.

(** The loop of lines 352-361 as far as link lists go: the current slot
    holds the descriptors of every notifier met so far, and the builder
    each of them points to holds the changes of its list between the
    version of its notifier and the version reached. *)
Lemma fan_in_lists (latest : VersionID) (b0 : gmap nat C) ns :
  ∀ done pre cur v sg b tr,
    lists cur = done ≫= required_lists →
    Forall (λ n, origin n ≠ uint64_max) ns →
    version (get_version_of_current_transaction sg) = version v →
    ascending_from (version v) ns →
    Forall (λ n, (origin n ≤ version v)%N) done →
    NoDup (pointers (done ++ ns)) →
    (∀ n l, n ∈ done → l ∈ required_lists n →
       b !! changes l = covered merge list_log (b0 !! changes l) (origin n) (version v) l) →
    (∀ p, p ∉ pointers done → b !! p = b0 !! p) →
    let st := foldl (fan_in_step merge table_log list_log latest)
                (mkFanIn (pre ++ [cur]) v sg b tr) ns in
    let v' := last_version (version v) ns in
    (∃ closed cur', fi_change_info st = pre ++ closed ++ [cur']
                    ∧ Forall (λ info, lists info = []) closed
                    ∧ lists cur' = (done ++ ns) ≫= required_lists)
    ∧ (∀ n l, n ∈ done ++ ns → l ∈ required_lists n →
         fi_builders st !! changes l
         = covered merge list_log (b0 !! changes l) (origin n) v' l)
    ∧ (∀ p, p ∉ pointers (done ++ ns) → fi_builders st !! p = b0 !! p)
    ∧ Forall (λ n, (origin n ≤ v')%N) (done ++ ns)
    ∧ version (get_version_of_current_transaction (fi_sg st)) = v'.
Proof.
  induction ns as [|n ns IH];
    intros done pre cur v sg b tr Hcur Hdef Hsg Hasc Hle Hnd Hb Hout.
  { cbv zeta. cbn [foldl last_version fi_change_info fi_builders fi_sg].
    rewrite !app_nil_r. split_and!; [|done..].
    by exists [], cur. }
  apply Forall_cons in Hdef as [Hn Hdef]. destruct Hasc as [Hvn Hasc].
  assert (Heq' : (version v =? origin n)%N = VersionID_eqb v (notifier_version n))
    by reflexivity.
  assert (Happ : done ++ n :: ns = (done ++ [n]) ++ ns) by (by rewrite <- app_assoc).
  assert (Hfresh : ∀ l, l ∈ required_lists n → changes l ∉ pointers done).
  { intros l Hl Hin. unfold pointers in Hnd, Hin.
    rewrite bind_app, fmap_app in Hnd. apply NoDup_app in Hnd as (_ & Hdisj & _).
    apply (Hdisj _ Hin). rewrite bind_cons, fmap_app. apply elem_of_app. left.
    by apply list_elem_of_fmap_2. }
  assert (Hnd_done : NoDup (changes <$> (done ≫= required_lists))).
  { unfold pointers in Hnd. rewrite bind_app, fmap_app in Hnd.
    by apply NoDup_app in Hnd as (? & _ & _). }
  cbn [foldl last_version]. rewrite Heq', Happ.
  destruct (VersionID_eqb v (notifier_version n)) eqn:Heq.
  - rewrite fan_in_step_same by done.
    apply N.eqb_eq in Heq. fold (origin n) in Heq.
    apply (IH (done ++ [n])); [|exact Hdef|exact Hsg|by rewrite Heq| | | |].
    + simpl. rewrite Hcur, bind_app. simpl. by rewrite app_nil_r.
    + apply Forall_app. split; [done|]. constructor; [lia|done].
    + by rewrite <- Happ.
    + intros m l Hm Hl. apply elem_of_app in Hm as [Hm|Hm]; [by apply Hb|].
      apply list_elem_of_singleton in Hm as ->.
      rewrite Hout by (by apply Hfresh). unfold covered.
      by rewrite <- Heq, N.eqb_refl.
    + intros p Hp. apply Hout. intros Hin. apply Hp.
      unfold pointers in *. rewrite bind_app, fmap_app. apply elem_of_app. by left.
  - rewrite fan_in_step_new by done.
    apply N.eqb_neq in Heq. fold (origin n) in Heq.
    assert (Hlt : (version v < origin n)%N) by lia.
    rewrite resolve_defined by done. rewrite Hsg.
    match goal with
    | |- context [foldl _ (mkFanIn ((pre ++ [?c]) ++ [?cur']) ?v' ?sg' ?b' ?tr') ns] =>
        set (c0 := c);
        assert (Hgoal : ∀ X : Prop,
                  ((∃ closed cur'',
                      fi_change_info
                        (foldl (fan_in_step merge table_log list_log latest)
                           (mkFanIn ((pre ++ [c0]) ++ [cur']) v' sg' b' tr') ns)
                      = (pre ++ [c0]) ++ closed ++ [cur'']
                      ∧ Forall (λ info, lists info = []) closed
                      ∧ lists cur'' = ((done ++ [n]) ++ ns) ≫= required_lists) ∧ X)
                  → (∃ closed cur'',
                       fi_change_info
                         (foldl (fan_in_step merge table_log list_log latest)
                            (mkFanIn ((pre ++ [c0]) ++ [cur']) v' sg' b' tr') ns)
                       = pre ++ closed ++ [cur'']
                       ∧ Forall (λ info, lists info = []) closed
                       ∧ lists cur'' = ((done ++ [n]) ++ ns) ≫= required_lists) ∧ X);
        [intros X [(closed & cur'' & Hci & Hcl & Hl) HX]; split; [|exact HX];
         exists (c0 :: closed), cur''; split_and!;
         [by rewrite Hci, <- app_assoc|by constructor|done]|];
        cbv zeta; apply Hgoal;
        apply (IH (done ++ [n]) (pre ++ [c0]) cur' v' sg' b' tr')
    end; [|exact Hdef|reflexivity|exact Hasc| | | |].
    + simpl. rewrite Hcur, bind_app. simpl. by rewrite app_nil_r.
    + apply Forall_app. split.
      * eapply Forall_impl; [exact Hle|]. simpl. intros m Hm.
        change (version (notifier_version n)) with (origin n). lia.
      * constructor; [|done]. change (version (notifier_version n)) with (origin n). lia.
    + by rewrite <- Happ.
    + change (version (notifier_version n)) with (origin n).
      intros m l Hm Hl. apply elem_of_app in Hm as [Hm|Hm].
      * rewrite report_lists_lookup.
        -- rewrite (Hb m l Hm Hl). apply covered_advance; [|done].
           rewrite Forall_forall in Hle. by apply Hle.
        -- by rewrite Hcur.
        -- rewrite Hcur. apply list_elem_of_bind. eauto.
      * apply list_elem_of_singleton in Hm as ->.
        rewrite report_lists_lookup_other by (rewrite Hcur; by apply Hfresh).
        rewrite Hout by (by apply Hfresh). unfold covered. by rewrite N.eqb_refl.
    + intros p Hp. assert (Hp' : p ∉ pointers done).
      { intros Hin. apply Hp. unfold pointers in *.
        rewrite bind_app, fmap_app. apply elem_of_app. by left. }
      rewrite report_lists_lookup_other by (by rewrite Hcur). by apply Hout.
Qed.

(** Lines 329-370 as far as link lists go. *)
Lemma advance_new_notifiers_lists (w : World C) staged :
  (staged ≠ [] →
   ∃ sg v0, m_advancer_sg (coordinator w) = Some sg
            ∧ current_transaction sg = Some v0
            ∧ Some (version v0) = minimum_version staged) →
  Forall (λ n, origin n ≠ uint64_max ∧ (origin n ≤ version (latest w))%N) staged →
  NoDup (pointers staged) →
  NoDup (list_id <$> (staged ≫= required_lists)) →
  ∃ slots target w',
    advance_new_notifiers merge table_log list_log staged w
    = Returned (empty_info :: slots, target, sort_by_version staged) w'
    ∧ resolve (latest w) target = latest w
    ∧ m_notifier_sg (coordinator w') = m_notifier_sg (coordinator w)
    ∧ latest w' = latest w
    ∧ Forall (λ info, NoDup (list_id <$> lists info)) slots
    ∧ (∀ n l, n ∈ staged → l ∈ required_lists n →
         builders w' !! changes l
         = (λ c, merge c (list_log (origin n) (version (latest w)) l))
             <$> builders w !! changes l)
    ∧ (∀ p, p ∉ pointers staged → builders w' !! p = builders w !! p).
Proof.
  intros Hpin Hdef Hnd Hids.
  destruct (decide (staged = [])) as [->|Hne].
  { exists [], VersionID_default, w. split_and!; try done.
    intros n l Hn. by apply elem_of_nil in Hn. }
  destruct (Hpin Hne) as (sg & v0 & Hsg & Hv0 & Hmin).
  destruct (sort_by_version_front staged (version v0) (eq_sym Hmin))
    as (front & rest & Hsort & Hfront & Hasc).
  pose proof (sort_by_version_perm staged) as Hperm.
  assert (Hdef' : Forall (λ n, origin n ≠ uint64_max) (sort_by_version staged)).
  { rewrite Hperm. eapply Forall_impl; [exact Hdef|]. by intros n [? ?]. }
  assert (HleT : ∀ n, n ∈ sort_by_version staged → (origin n ≤ version (latest w))%N).
  { intros n Hn. rewrite Hperm in Hn. rewrite Forall_forall in Hdef.
    by destruct (Hdef n Hn). }
  unfold advance_new_notifiers.
  destruct staged as [|s0 staged0]; [done|]. cbn [is_empty].
  rewrite Hsg. set (sorted := sort_by_version (s0 :: staged0)) in *.
  rewrite Hsort. cbn [head].
  assert (Hgv : get_version_of_current_transaction sg = v0).
  { unfold get_version_of_current_transaction. by rewrite Hv0. }
  rewrite !Hgv.
  assert (Heq : VersionID_eqb v0 (notifier_version front) = true).
  { unfold VersionID_eqb. fold (origin front). rewrite Hfront. apply N.eqb_refl. }
  rewrite Heq. cbn [negb].
  rewrite <- Hsort.
  pose proof (fan_in_lists (latest w) (builders w) sorted
                [] [empty_info] empty_info v0 sg (builders w) (trace w)) as Hloop.
  cbn [app] in Hloop. cbv zeta in Hloop.
  destruct Hloop as ((closed & cur' & Hci & Hclosed & Hcur') & Hcov & Hout & Hle & Hlast).
  { done. }
  { exact Hdef'. }
  { by rewrite Hgv. }
  { rewrite Hsort. split; [by rewrite Hfront|done]. }
  { constructor. }
  { by rewrite (pointers_perm _ _ Hperm). }
  { intros n l Hn. by apply elem_of_nil in Hn. }
  { done. }
  set (st := foldl _ _ sorted) in *.
  assert (HvT : (last_version (version v0) sorted ≤ version (latest w))%N).
  { destruct (last_version_elem (version v0) sorted) as [->|(m & Hm & ->)].
    - rewrite <- Hfront. apply HleT. rewrite Hsort. left.
    - by apply HleT. }
  rewrite Hci. rewrite app_comm_cons, back_snoc.
  unfold advance. cbv beta iota zeta. rewrite update_back_snoc.
  rewrite resolve_default. cbn [end_read].
  eexists (closed ++ [_]), _, _. split; [reflexivity|].
  cbn [coordinator builders latest m_notifier_sg set_m_advancer_sg].
  split_and!.
  - apply resolve_latest.
  - by destruct (coordinator w).
  - done.
  - apply Forall_app. split.
    + eapply Forall_impl; [exact Hclosed|]. simpl. intros info ->. constructor.
    + constructor; [|constructor]. cbn [lists]. rewrite Hcur'.
      by rewrite Hperm.
  - intros n l Hn Hl. rewrite <- Hperm in Hn. rewrite Hlast.
    rewrite report_lists_lookup.
    + rewrite (Hcov n l Hn Hl). apply covered_final; [|done].
      rewrite Forall_forall in Hle. by apply Hle.
    + rewrite Hcur'. fold (pointers sorted). by rewrite (pointers_perm _ _ Hperm).
    + rewrite Hcur'. apply list_elem_of_bind. eauto.
  - intros p Hp. rewrite <- (pointers_perm _ _ Hperm) in Hp.
    rewrite report_lists_lookup_other by (by rewrite Hcur'). by apply Hout.
Qed.

(** X19: in an error-free cycle in which no two notifiers share a change
    builder or, within the staged and within the active ones, observe the
    same list, and the advancer transaction is on the oldest staged
    version, the builder of every list of a staged notifier receives the
    changes of that list from the notifier's own version to the latest
    one, the builder of every list of an active notifier those from the
    version of the notifier transaction to the latest one, and no other
    builder is touched. *)
Theorem run_async_notifiers_covers_lists (w : World C) :
  let w1 := clean_up_dead_notifiers w in
  let staged := m_new_notifiers (coordinator w1) in
  let active := m_notifiers (coordinator w1) in
  let T := version (latest w) in
  m_async_error (coordinator w) = None →
  is_Some (m_notifier_sg (coordinator w1)) ∨ open_with_config w = OpenOk →
  active ++ staged ≠ [] →
  pinned_at_minimum (coordinator w1) →
  Forall (λ n, origin n ≠ uint64_max ∧ (origin n ≤ T)%N) staged →
  NoDup (pointers (active ++ staged)) →
  NoDup (list_id <$> (active ≫= required_lists)) →
  NoDup (list_id <$> (staged ≫= required_lists)) →
  ∃ ci wf,
    run_async_notifiers merge table_log list_log w = Returned (Some ci) wf
    ∧ (∀ n l, n ∈ staged → l ∈ required_lists n →
         builders wf !! changes l
         = (λ c, merge c (list_log (origin n) T l)) <$> builders w !! changes l)
    ∧ (∀ n l, n ∈ active → l ∈ required_lists n →
         builders wf !! changes l
         = (λ c, merge c (list_log (version (notifier_sg_origin w1)) T l))
             <$> builders w !! changes l)
    ∧ (∀ p, p ∉ pointers (active ++ staged) → builders wf !! p = builders w !! p).
Proof.
  intros w1 staged active T Herr Hopen Hne Hpin Hdef Hnd Hida Hids.
  assert (Herr1 : m_async_error (coordinator w1) = None).
  { unfold w1. by rewrite clean_up_async_error. }
  destruct (clean_up_latest w) as [Hlatest Hoc]. fold w1 in Hlatest, Hoc.
  pose proof (clean_up_builders w) as Hb1. fold w1 in Hb1.
  rewrite <- Hoc in Hopen.
  destruct (open_helper_shared_group_ok w1 Hopen) as (sgn & es & Hhelper & Hsgn).
  set (w2 := emit es (update_coordinator (set_m_notifier_sg (Some sgn)) w1)) in *.
  assert (Hnd_staged : NoDup (pointers staged)).
  { unfold pointers in *. rewrite bind_app, fmap_app in Hnd.
    by apply NoDup_app in Hnd as (_ & _ & ?). }
  assert (Hnd_active : NoDup (pointers active)).
  { unfold pointers in *. rewrite bind_app, fmap_app in Hnd.
    by apply NoDup_app in Hnd as (? & _ & _). }
  assert (Hdisj : ∀ p, p ∈ pointers active → p ∉ pointers staged).
  { unfold pointers in *. rewrite bind_app, fmap_app in Hnd.
    by apply NoDup_app in Hnd as (_ & ? & _). }
  destruct (advance_new_notifiers_lists
              (update_coordinator (set_m_new_notifiers []) w2) staged)
    as (slots & target & w3 & Hnew & Htarget & Hsg3 & Hlatest3 & Hslots & Hcov & Hout).
  { intros Hne'. exact (Hpin Hne' Herr1). }
  { change (latest (update_coordinator (set_m_new_notifiers []) w2)) with (latest w1).
    by rewrite Hlatest. }
  { done. }
  { done. }
  change (latest (update_coordinator (set_m_new_notifiers []) w2))
    with (latest w1) in Htarget, Hlatest3, Hcov.
  change (builders (update_coordinator (set_m_new_notifiers []) w2))
    with (builders w1) in Hcov, Hout.
  change (m_notifier_sg (coordinator (update_coordinator (set_m_new_notifiers []) w2)))
    with (Some sgn) in Hsg3.
  rewrite Hlatest in Htarget, Hlatest3, Hcov. rewrite Hb1 in Hcov, Hout.
  unfold run_async_notifiers. unfold_M. fold w1.
  replace (is_empty (m_notifiers (coordinator w1)) && is_empty (m_new_notifiers (coordinator w1)))
    with false.
  2:{ fold staged. fold active. destruct active, staged; done. }
  rewrite Herr1.
  rewrite bool_decide_eq_false_2 by (by intros [? ?]). cbn [negb].
  rewrite Hhelper.
  replace (m_async_error (coordinator w2)) with (@None Exception) by (by rewrite <- Herr1).
  rewrite bool_decide_eq_false_2 by (by intros [? ?]).
  change (m_new_notifiers (coordinator w2)) with staged.
  rewrite Hnew. cbv beta iota zeta.
  unfold advance_notifiers. rewrite Hsg3. cbn [lookup list_lookup].
  unfold advance. cbv beta iota zeta.
  rewrite Hsgn, Hlatest3, Htarget.
  cbn [insert list_insert].
  change (m_notifiers (coordinator w2)) with active.
  eexists _, _. split; [reflexivity|].
  rewrite clean_up_builders.
  cbn [builders update_coordinator set_coordinator emit set_builders].
  rewrite dedup_pass_distinct.
  2:{ apply (Forall_fmap lists (λ ls, NoDup (list_id <$> ls))).
      rewrite merge_pass_lists. constructor.
      - cbn [lists]. by rewrite lists_add_required.
      - by apply (Forall_fmap lists (λ ls, NoDup (list_id <$> ls))). }
  rewrite lists_add_required. cbn [lists empty_info app].
  fold (notifier_sg_origin w1). fold T.
  split_and!.
  - intros n l Hn Hl.
    assert (Hp : changes l ∈ pointers staged).
    { apply list_elem_of_fmap_2, list_elem_of_bind. eauto. }
    rewrite report_lists_lookup_other; [by apply Hcov|].
    intros Hin. by apply (Hdisj _ Hin).
  - intros n l Hn Hl.
    assert (Hp : changes l ∈ pointers active).
    { apply list_elem_of_fmap_2, list_elem_of_bind. eauto. }
    rewrite report_lists_lookup; [|done|apply list_elem_of_bind; eauto].
    rewrite Hout; [done|]. by apply Hdisj.
  - intros p Hp.
    assert (Hboth : (p ∉ pointers active) ∧ (p ∉ pointers staged)); [|destruct Hboth as [Hpa Hps]].
    { unfold pointers in *. rewrite bind_app, fmap_app in Hp.
      split; intros Hin; apply Hp, elem_of_app; auto. }
    rewrite report_lists_lookup_other by done. by apply Hout.
Qed.
End Composition.
End Lists.

Lemma example_list_log_compose (a b c : N) (l : ListChangeInfo) (x : list N) :
  (a < b)%N → (b ≤ c)%N →
  (x ++ example_list_log a b l) ++ example_list_log b c l = x ++ example_list_log a c l.
Proof.
  intros Hab Hbc. unfold example_list_log.
  rewrite (commits_app a b c) by lia. by rewrite app_assoc.
Qed.

Lemma run_async_notifiers_covers_lists_witness :
  ∃ ci wf,
    run_async_notifiers app example_table_log example_list_log example_world_lists
    = Returned (Some ci) wf
    ∧ builders wf !! 1 = Some [4; 5; 6; 7]%N
    ∧ builders wf !! 2 = Some [6; 7]%N
    ∧ builders wf !! 3 = Some [6; 7]%N
    ∧ builders wf !! 4 = Some [].
Proof.
  destruct (run_async_notifiers_covers_lists app example_table_log example_list_log
              example_list_log_compose example_world_lists)
    as (ci & wf & Hrun & Hstaged & Hactive & Hother).
  - reflexivity.
  - left. vm_compute. eauto.
  - vm_compute. discriminate.
  - intros _ _. eexists _, _. vm_compute. done.
  - apply (bool_decide_unpack _). vm_compute. exact I.
  - apply (bool_decide_unpack _). vm_compute. exact I.
  - apply (bool_decide_unpack _). vm_compute. exact I.
  - apply (bool_decide_unpack _). vm_compute. exact I.
  - exists ci, wf. split_and!; [exact Hrun| | | |].
    + refine (eq_trans (Hstaged (example_list_notifier 1 3) (mkListChangeInfo 0 1 0 1) _ _) _).
      * vm_compute. left.
      * left.
      * reflexivity.
    + refine (eq_trans (Hstaged (example_list_notifier 2 5) (mkListChangeInfo 0 2 0 2) _ _) _).
      * vm_compute. right. left.
      * left.
      * reflexivity.
    + refine (eq_trans (Hactive (example_list_notifier 3 5) (mkListChangeInfo 0 3 0 3) _ _) _).
      * vm_compute. left.
      * left.
      * reflexivity.
    + refine (eq_trans (Hother 4 _) _).
      * apply (bool_decide_unpack _). vm_compute. exact I.
      * reflexivity.
Defined.

